(** * Gratefulness Jar: the entry service, date service, calendar statistics
      and the Dexie schema, embedded in Rocq.

    Sources embedded here:
    - [src/lib/services/entryService.ts]   (validateEntry and the CRUD gateway)
    - [src/lib/services/dateService.ts]    (isValidDateString, isFuture, getRelativeTime, ...)
    - [src/lib/services/calendarService.ts] (calculateMonthStats)
    - [src/lib/db/schema.ts]               (GratefulnessDB, exportDatabase, importDatabase)
    - [src/types/entry.ts], [src/types/rating.ts]

    Conventions of the embedding.
    - A JavaScript string is a [string]: the sequence of its code units, for
      strings whose code units are all below 256.  [String.length] is the
      [.length] of the source.
    - A JavaScript number that the code uses as an integer (rating, time
      stamps, day counts) is a [Z].
    - A promise is a computation in the monad [IO]: it reads and writes the
      [World] (the IndexedDB table behind [db.entries]) and either resolves
      with a value or rejects with the message of the [Error] thrown.
    - Readings of the environment ([new Date()], [Date.now()], [uuidv4()],
      [Math.random()]) are explicit arguments. *)

From Stdlib Require Import ZArith QArith Qround Ascii String.
From stdpp Require Import gmap strings list fin_maps pretty sorting.

Open Scope string_scope.
Open Scope list_scope.
Open Scope Z_scope.

(** ** JavaScript strings *)

(** WhiteSpace and LineTerminator code units below 256 (ECMAScript 12.2, 12.3):
    TAB, LF, VT, FF, CR, SP and NBSP. *)
Definition isWhiteSpace (c : ascii) : bool :=
  match c with
  | "009" | "010" | "011" | "012" | "013" | " " | "160" => true
  | _ => false
  end%char.

Fixpoint trimStart (s : string) : string :=
  match s with
  | "" => ""
  | String c s' => if isWhiteSpace c then trimStart s' else s
  end.

Fixpoint trimEnd (s : string) : string :=
  match s with
  | "" => ""
  | String c s' =>
      match trimEnd s' with
      | "" => if isWhiteSpace c then "" else String c ""
      | t => String c t
      end
  end.

(** [String.prototype.trim] *)
Definition trim (s : string) : string := trimEnd (trimStart s).

(** Lower-case mapping of one code unit below 256: A-Z, and the Latin-1
    capitals U+00C0..U+00DE except the multiplication sign U+00D7. *)
Definition toLowerCaseUnit (c : ascii) : ascii :=
  let n := N_of_ascii c in
  if ((65 <=? n) && (n <=? 90) ||
      (192 <=? n) && (n <=? 222) && negb (n =? 215))%N
  then ascii_of_N (n + 32) else c.

(** [String.prototype.toLowerCase] *)
Fixpoint toLowerCase (s : string) : string :=
  match s with
  | "" => ""
  | String c s' => String (toLowerCaseUnit c) (toLowerCase s')
  end.

(** [String.prototype.includes]: [needle] occurs in [hay] at some position. *)
Fixpoint includes (hay needle : string) : bool :=
  String.prefix needle hay ||
  match hay with
  | "" => false
  | String _ hay' => includes hay' needle
  end.

(** [Array.prototype.join] on an array of strings. *)
Definition join (sep : string) (l : list string) : string := String.concat sep l.

(** [Array.prototype.sort] with a comparator: the sort is stable (ECMAScript
    2019), written here as insertion from the right; an element moves past
    those the comparator puts strictly after it. *)
Fixpoint sort_insert {A} (cmp : A → A → Z) (x : A) (l : list A) : list A :=
  match l with
  | [] => [x]
  | y :: l' => if 0 <? cmp x y then y :: sort_insert cmp x l' else x :: l
  end.

Fixpoint js_sort {A} (cmp : A → A → Z) (l : list A) : list A :=
  match l with
  | [] => []
  | x :: l' => sort_insert cmp x (js_sort cmp l')
  end.

(** ** Rating ([src/types/rating.ts]) *)

Inductive Rating :=
  | NIGHTMARE | TERRIBLE | BAD | OK | GOOD | GREAT | THE_BEST.

Definition rating_value (r : Rating) : Z :=
  match r with
  | NIGHTMARE => 1 | TERRIBLE => 2 | BAD => 3 | OK => 4
  | GOOD => 5 | GREAT => 6 | THE_BEST => 7
  end.

Definition getAllRatings : list Rating :=
  [NIGHTMARE; TERRIBLE; BAD; OK; GOOD; GREAT; THE_BEST].

(** [getRatingFromValue]: the numeric value itself when it lies in 1..7. *)
Definition getRatingFromValue (value : Z) : option Z :=
  if (value <? 1) || (value >? 7) then None else Some value.

(** ** Calendar dates (what [dateService.ts] gets from date-fns) *)

(** A local calendar day: what [startOfDay] keeps of a [Date]. *)
Record CivilDate := { cd_year : Z; cd_month : Z; cd_day : Z }.

Definition isLeapYear (y : Z) : bool :=
  (y mod 400 =? 0) || ((y mod 4 =? 0) && negb (y mod 100 =? 0)).

Definition daysInMonth (y m : Z) : Z :=
  match m with
  | 2 => if isLeapYear y then 29 else 28
  | 4 | 6 | 9 | 11 => 30
  | _ => 31
  end.

(** Days in the months of year [y] before month [m]. *)
Fixpoint daysBeforeMonth_go (y : Z) (k : nat) : Z :=
  match k with
  | O => 0
  | S k' => daysBeforeMonth_go y k' + daysInMonth y (Z.of_nat k)
  end.

Definition daysBeforeMonth (y m : Z) : Z := daysBeforeMonth_go y (Z.to_nat (m - 1)).

(** Days in the years before year [y], counted from year 0 of the proleptic
    Gregorian calendar. *)
Definition daysBeforeYear (y : Z) : Z :=
  365 * y + (y + 3) / 4 - (y + 99) / 100 + (y + 399) / 400.

(** The number of the day: the time value of the local midnight, in days. *)
Definition dayNumber (d : CivilDate) : Z :=
  daysBeforeYear (cd_year d) + daysBeforeMonth (cd_year d) (cd_month d) + cd_day d.

(** [differenceInDays(a, b)] of two local midnights. *)
Definition differenceInDays (a b : CivilDate) : Z := dayNumber a - dayNumber b.

Definition digitValue (c : ascii) : option Z :=
  let n := N_of_ascii c in
  if ((48 <=? n) && (n <=? 57))%N then Some (Z.of_N n - 48) else None.

(** The regular expression [/^\d{4}-\d{2}-\d{2}$/], returning the three
    numbers it delimits. *)
Definition matchDatePattern (s : string) : option (Z * Z * Z) :=
  match s with
  | String y1 (String y2 (String y3 (String y4 (String "-"
    (String m1 (String m2 (String "-" (String d1 (String d2 ""))))))))) =>
      match digitValue y1, digitValue y2, digitValue y3, digitValue y4,
            digitValue m1, digitValue m2, digitValue d1, digitValue d2 with
      | Some a, Some b, Some c, Some d, Some e, Some f, Some g, Some h =>
          Some (1000 * a + 100 * b + 10 * c + d, 10 * e + f, 10 * g + h)
      | _, _, _, _, _, _, _, _ => None
      end
  | _ => None
  end.

(** [parseISO] followed by [isValid], on the calendar-date form YYYY-MM-DD:
    the month must be 1..12 and the day must exist in that month.  [None] is
    the Invalid Date.  The other ISO 8601 forms date-fns reads (week dates,
    times, short forms such as YYYYMMDD, YYYY-MM and YYYY) are outside this
    model: the statements about parsing are about the texts YYYY-MM-DD, the
    only ones [isValidDateString] accepts and [createEntry] stores. *)
Definition parseISO (s : string) : option CivilDate :=
  match matchDatePattern s with
  | Some (y, m, d) =>
      if (1 <=? m) && (m <=? 12) && (1 <=? d) && (d <=? daysInMonth y m)
      then Some {| cd_year := y; cd_month := m; cd_day := d |}
      else None
  | None => None
  end.

(** [addLeadingZeros(n, width)] *)
Fixpoint addLeadingZeros_go (k : nat) (s : string) : string :=
  match k with
  | O => s
  | S k' => addLeadingZeros_go k' ("0" +:+ s)
  end.

Definition addLeadingZeros (n : Z) (width : nat) : string :=
  let s := pretty (Z.abs n) in
  let padded := addLeadingZeros_go (width - String.length s) s in
  if n <? 0 then "-" +:+ padded else padded.

(** [format(date, 'yyyy-MM-dd')]: the year of the era, then month and day,
    each padded with zeros. *)
Definition getDateString (d : CivilDate) : string :=
  let y := if 0 <? cd_year d then cd_year d else 1 - cd_year d in
  addLeadingZeros y 4 +:+ "-" +:+ addLeadingZeros (cd_month d) 2 +:+ "-" +:+
  addLeadingZeros (cd_day d) 2.

(** [getTodayDateString]: [today] is the local calendar day of [new Date()]. *)
Definition getTodayDateString (today : CivilDate) : string := getDateString today.

(** [parseEntryDate]: [None] stands for the error it throws. *)
Definition parseEntryDate (dateString : string) : option CivilDate :=
  parseISO dateString.

Definition isToday (today : CivilDate) (dateString : string) : bool :=
  bool_decide (dateString = getTodayDateString today).

Definition isFuture (today : CivilDate) (dateString : string) : bool :=
  match parseEntryDate dateString with
  | Some date => dayNumber today <? dayNumber date
  | None => false
  end.

Definition getDaysBetween (dateString1 dateString2 : string) : Z :=
  match parseEntryDate dateString1, parseEntryDate dateString2 with
  | Some date1, Some date2 => differenceInDays date2 date1
  | _, _ => 0
  end.

Definition getRelativeTime (today : CivilDate) (dateString : string) : string :=
  match parseEntryDate dateString with
  | Some date =>
      let days := differenceInDays today date in
      if days =? 0 then "Today"
      else if days =? 1 then "Yesterday"
      else if days =? -1 then "Tomorrow"
      else if days <? 0 then "In " +:+ pretty (Z.abs days) +:+ " days"
      else if days <? 7 then pretty days +:+ " days ago"
      else if days <? 30 then
        let weeks := days / 7 in
        if weeks =? 1 then "1 week ago" else pretty weeks +:+ " weeks ago"
      else if days <? 365 then
        let months := days / 30 in
        if months =? 1 then "1 month ago" else pretty months +:+ " months ago"
      else
        let years := days / 365 in
        if years =? 1 then "1 year ago" else pretty years +:+ " years ago"
  | None => dateString
  end.

Definition isValidDateString (dateString : string) : bool :=
  bool_decide (is_Some (parseISO dateString)) &&
  bool_decide (is_Some (matchDatePattern dateString)).

(** [new Date(year, monthIndex, ...)]: a year 0..99 means 1900 + year, and a
    month index outside 0..11 carries into the year. *)
Definition jsDateYearMonth (year monthIndex : Z) : Z * Z :=
  let yr := if (0 <=? year) && (year <=? 99) then 1900 + year else year in
  (yr + monthIndex / 12, monthIndex mod 12 + 1).

(** [getDatesInMonth(year, month)], [month] in 1..12: day 0 of month index
    [month] is the last day of the month before it. *)
Definition getDatesInMonth (year month : Z) : list string :=
  let '(y, m) := jsDateYearMonth year (month - 1) in
  (λ day, getDateString {| cd_year := y; cd_month := m; cd_day := day |})
    <$> seqZ 1 (daysInMonth y m).

(** ** Entries ([src/types/entry.ts]) *)

Record Entry := {
  id : string;
  entry_date : string;
  gratitude_text : string;
  rating : Z;
  created_at : Z;
  updated_at : Z;
  synced_at : option Z;
  deleted : option bool
}.

#[global] Instance Entry_eq_dec : EqDecision Entry.
Proof. solve_decision. Defined.

(** [Partial<Entry>] as [validateEntry] reads it: an absent field is [None].
    A rating is an integer here; the number NaN, which fails both comparisons
    of the source, is outside this model. *)
Record PartialEntry := {
  p_gratitude_text : option string;
  p_rating : option Z;
  p_entry_date : option string
}.

(** [CreateEntryInput]: an entry without id, time stamps and sync fields. *)
Record CreateEntryInput := {
  c_entry_date : string;
  c_gratitude_text : string;
  c_rating : Z
}.

(** [UpdateEntryInput]: only gratitude_text and rating, each optional.  [None]
    is a key that is absent; a rating key that is present and holds
    [undefined], which the spread of [updateEntry] would copy over the stored
    rating, is outside this model. *)
Record UpdateEntryInput := {
  u_gratitude_text : option string;
  u_rating : option Z
}.

Definition partial_of_create (input : CreateEntryInput) : PartialEntry :=
  {| p_gratitude_text := Some (c_gratitude_text input);
     p_rating := Some (c_rating input);
     p_entry_date := Some (c_entry_date input) |}.

Definition partial_of_update (updates : UpdateEntryInput) : PartialEntry :=
  {| p_gratitude_text := u_gratitude_text updates;
     p_rating := u_rating updates;
     p_entry_date := None |}.

Record EntryValidationError := { field : string; message : string }.

Record ValidationResult := { valid : bool; errors : list EntryValidationError }.

(** ** Validation ([entryService.ts], validateEntry) *)

Definition validate_gratitude_text (data : PartialEntry) (isUpdate : bool)
  : list EntryValidationError :=
  if negb isUpdate || bool_decide (is_Some (p_gratitude_text data)) then
    let text := default "" (p_gratitude_text data) in
    if (String.length (trim text) =? 0)%nat then
      [{| field := "gratitude_text"; message := "Gratitude text is required" |}]
    else if (1000 <? String.length text)%nat then
      [{| field := "gratitude_text";
          message := "Gratitude text must be 1000 characters or less" |}]
    else []
  else [].

Definition validate_rating (data : PartialEntry) (isUpdate : bool)
  : list EntryValidationError :=
  if negb isUpdate || bool_decide (is_Some (p_rating data)) then
    match p_rating data with
    | None => [{| field := "rating"; message := "Rating is required" |}]
    | Some r =>
        if (r <? 1) || (7 <? r) then
          [{| field := "rating"; message := "Rating must be between 1 and 7" |}]
        else []
    end
  else [].

(** A string is truthy when it is present and not empty. *)
Definition validate_entry_date (today : CivilDate) (data : PartialEntry)
  (isUpdate : bool) : list EntryValidationError :=
  match p_entry_date data with
  | Some d =>
      if negb isUpdate && negb (bool_decide (d = "")) then
        if negb (isValidDateString d) then
          [{| field := "entry_date";
              message := "Invalid date format (use YYYY-MM-DD)" |}]
        else if isFuture today d then
          [{| field := "entry_date";
              message := "Cannot create entries for future dates" |}]
        else []
      else []
  | None => []
  end.

Definition validateEntry (today : CivilDate) (data : PartialEntry)
  (isUpdate : bool) : ValidationResult :=
  let errors :=
    (validate_gratitude_text data isUpdate ++ validate_rating data isUpdate ++
     validate_entry_date today data isUpdate)%list in
  {| valid := (length errors =? 0)%nat; errors := errors |}.

(** ** The store behind [db.entries] ([schema.ts], GratefulnessDB)

    Schema ['id, &entry_date, created_at, updated_at, rating']: the table maps
    the primary key [id] to its record, and the index on [entry_date] is
    unique.  Every request to the store may be failed by the engine: [faults]
    lists, for the requests to come, whether the engine fails the request and
    with which message (no entry left: no fault).  [constraint_message] is the
    message the engine puts into a ConstraintError. *)
Record World := {
  table : gmap string Entry;
  faults : list (option string);
  constraint_message : string
}.

(** How a promise settles: resolved with a value, or rejected with the
    message of the error. *)
Inductive Outcome (A : Type) :=
  | Resolved (a : A)
  | Rejected (msg : string).
Arguments Resolved {A} a.
Arguments Rejected {A} msg.

Definition IO (A : Type) : Type := World → Outcome A * World.

Definition ret {A} (a : A) : IO A := λ w, (Resolved a, w).

(** [throw new Error(msg)] *)
Definition throw {A} (msg : string) : IO A := λ w, (Rejected msg, w).

(** [await] *)
Definition bind {A B} (m : IO A) (k : A → IO B) : IO B :=
  λ w, match m w with
       | (Resolved a, w') => k a w'
       | (Rejected msg, w') => (Rejected msg, w')
       end.

(** [try { m } catch (error) { handler(error.message) }]; what the source
    writes to the console in its handlers is not part of the model. *)
Definition try_catch {A} (m : IO A) (handler : string → IO A) : IO A :=
  λ w, match m w with
       | (Resolved a, w') => (Resolved a, w')
       | (Rejected msg, w') => handler msg w'
       end.

Notation "'await' x '<-' m ';;' k" := (bind m (λ x, k))
  (at level 10, x name, m at level 99, k at level 200, only parsing).

(** One request to the store. *)
Definition request {A} (run : gmap string Entry → Outcome A * gmap string Entry)
  : IO A :=
  λ w, match faults w with
       | Some msg :: rest =>
           (Rejected msg,
            {| table := table w; faults := rest;
               constraint_message := constraint_message w |})
       | pending =>
           let '(r, t) := run (table w) in
           (r, {| table := t; faults := tail pending;
                  constraint_message := constraint_message w |})
       end.

Definition rows (t : gmap string Entry) : list Entry := (map_to_list t).*2.

Definition id_le (a b : Entry) : Prop := String.le (id a) (id b).
Definition entry_date_le (a b : Entry) : Prop :=
  String.le (entry_date a) (entry_date b).

#[global] Instance id_le_dec : RelDecision id_le.
Proof. intros a b. unfold id_le. apply _. Defined.
#[global] Instance entry_date_le_dec : RelDecision entry_date_le.
Proof. intros a b. unfold entry_date_le. apply _. Defined.

(** The records in the order of the primary key. *)
Definition by_primary_key (t : gmap string Entry) : list Entry :=
  merge_sort id_le (rows t).

(** The records in the order of the index on [entry_date]. *)
Definition by_entry_date (t : gmap string Entry) : list Entry :=
  merge_sort entry_date_le (rows t).

(** [where('entry_date').equals(d)] *)
Definition entry_date_equals (d : string) (t : gmap string Entry) : list Entry :=
  filter (λ e, entry_date e = d) (by_entry_date t).

(** [db.entries.get(id)] *)
Definition table_get (key : string) : IO (option Entry) :=
  request (λ t, (Resolved (t !! key), t)).

(** [db.entries.where('entry_date').equals(d).first()] *)
Definition table_first_by_date (d : string) : IO (option Entry) :=
  request (λ t, (Resolved (head (entry_date_equals d t)), t)).

(** [db.entries.orderBy('entry_date').reverse().toArray()] *)
Definition table_by_date_desc : IO (list Entry) :=
  request (λ t, (Resolved (reverse (by_entry_date t)), t)).

(** [db.entries.where('entry_date').between(a, b, true, true).toArray()] *)
Definition table_between (a b : string) : IO (list Entry) :=
  request (λ t,
    (Resolved (filter (λ e, String.le a (entry_date e) ∧ String.le (entry_date e) b)
                      (by_entry_date t)), t)).

(** [db.entries.where('entry_date').notEqual(d).toArray()] *)
Definition table_not_equal (d : string) : IO (list Entry) :=
  request (λ t, (Resolved (filter (λ e, entry_date e ≠ d) (by_entry_date t)), t)).

(** [db.entries.toArray()] *)
Definition table_toArray : IO (list Entry) :=
  request (λ t, (Resolved (by_primary_key t), t)).

(** [db.entries.count()] *)
Definition table_count : IO nat :=
  request (λ t, (Resolved (size t), t)).

(** [db.entries.add(entry)]: a ConstraintError when the primary key is taken
    or when the unique index already holds the entry_date. *)
Definition table_add (entry : Entry) : IO string :=
  λ w, request (λ t,
    match t !! id entry, entry_date_equals (entry_date entry) t with
    | None, [] => (Resolved (id entry), <[id entry := entry]> t)
    | _, _ => (Rejected (constraint_message w), t)
    end) w.

(** [db.entries.update(key, changes)] where [changes] is a whole record that
    keeps the id and the entry_date of the stored one, as [updateEntry] builds
    it: the stored record becomes [changes]; the result is the number of
    records changed. *)
Definition table_update (key : string) (changes : Entry) : IO nat :=
  request (λ t,
    match t !! key with
    | Some _ => (Resolved 1%nat, <[key := changes]> t)
    | None => (Resolved 0%nat, t)
    end).

(** [db.entries.delete(key)] *)
Definition table_delete (key : string) : IO unit :=
  request (λ t, (Resolved tt, delete key t)).

(** [db.entries.clear()] *)
Definition table_clear : IO unit :=
  request (λ t, (Resolved tt, ∅)).

(** ** The gateway ([entryService.ts]) *)

(** [entry || null]: a record read from the table is an object, never falsy. *)
Definition getTodayEntry (today : CivilDate) : IO (option Entry) :=
  try_catch
    (table_first_by_date (getTodayDateString today))
    (λ _, throw "Failed to load today's entry").

Definition getEntryByDate (dateString : string) : IO (option Entry) :=
  try_catch
    (table_first_by_date dateString)
    (λ _, throw ("Failed to load entry for " +:+ dateString)).

Definition getEntryById (key : string) : IO (option Entry) :=
  try_catch
    (table_get key)
    (λ _, throw ("Failed to load entry " +:+ key)).

Definition getAllEntries : IO (list Entry) :=
  try_catch table_by_date_desc (λ _, throw "Failed to load entries").

(** [a.localeCompare(b)], as the order of the code units: the order of the
    collation on the digits and hyphens of a date string. *)
Definition localeCompare (a b : string) : Z :=
  match String.compare a b with
  | Lt => -1
  | Eq => 0
  | Gt => 1
  end.

Definition getEntriesInRange (startDate endDate : string) : IO (list Entry) :=
  try_catch
    (await entries <- table_between startDate endDate;;
     ret (js_sort (λ a b, localeCompare (entry_date b) (entry_date a)) entries))
    (λ _, throw "Failed to load entries").

Definition duplicate_date_message (d : string) : string :=
  "An entry already exists for " +:+ d +:+
  ". Please edit the existing entry instead.".

(** [now] is the reading of [Date.now()], [uuid] the result of [uuidv4()]. *)
Definition createEntry (today : CivilDate) (now : Z) (uuid : string)
  (input : CreateEntryInput) : IO Entry :=
  let validation := validateEntry today (partial_of_create input) false in
  if negb (valid validation) then
    throw (join ", " (message <$> errors validation))
  else
    await existing <- getEntryByDate (c_entry_date input);;
    match existing with
    | Some _ => throw (duplicate_date_message (c_entry_date input))
    | None =>
        let entry :=
          {| id := uuid;
             entry_date := c_entry_date input;
             gratitude_text := trim (c_gratitude_text input);
             rating := c_rating input;
             created_at := now;
             updated_at := now;
             synced_at := None;
             deleted := None |} in
        try_catch
          (await _key <- table_add entry;; ret entry)
          (λ msg,
             if includes msg "constraint" then
               throw "An entry already exists for this date. Please edit the existing entry instead."
             else throw "Failed to save entry")
    end.

Definition createTodayEntry (today : CivilDate) (now : Z) (uuid : string)
  (gratitude_text : string) (rating : Z) : IO Entry :=
  createEntry today now uuid
    {| c_entry_date := getTodayDateString today;
       c_gratitude_text := gratitude_text;
       c_rating := rating |}.

(** [{ ...existing, ...updates, gratitude_text: ..., updated_at: Date.now() }] *)
Definition merge_updates (existing : Entry) (updates : UpdateEntryInput)
  (now : Z) : Entry :=
  {| id := id existing;
     entry_date := entry_date existing;
     gratitude_text :=
       match u_gratitude_text updates with
       | Some text => trim text
       | None => gratitude_text existing
       end;
     rating := default (rating existing) (u_rating updates);
     created_at := created_at existing;
     updated_at := now;
     synced_at := synced_at existing;
     deleted := deleted existing |}.

Definition updateEntry (today : CivilDate) (now : Z) (key : string)
  (updates : UpdateEntryInput) : IO Entry :=
  let validation := validateEntry today (partial_of_update updates) true in
  if negb (valid validation) then
    throw (join ", " (message <$> errors validation))
  else
    await existing <- getEntryById key;;
    match existing with
    | None => throw "Entry not found"
    | Some existing =>
        let updatedEntry := merge_updates existing updates now in
        try_catch
          (await _n <- table_update key updatedEntry;; ret updatedEntry)
          (λ _, throw "Failed to update entry")
    end.

Definition deleteEntry (key : string) : IO unit :=
  await existing <- getEntryById key;;
  match existing with
  | None => throw "Entry not found"
  | Some _ => try_catch (table_delete key) (λ _, throw "Failed to delete entry")
  end.

Definition getEntryCount : IO nat :=
  try_catch table_count (λ _, ret 0%nat).

(** [random] is the reading of [Math.random()]. *)
Definition getRandomEntry (today : CivilDate) (random : Q) : IO (option Entry) :=
  try_catch
    (await entries <- table_not_equal (getTodayDateString today);;
     if (length entries =? 0)%nat then ret None
     else
       let randomIndex := Qfloor (random * inject_Z (Z.of_nat (length entries))) in
       ret (if randomIndex <? 0 then None else entries !! Z.to_nat randomIndex))
    (λ _, ret None).

Definition searchEntries (query : string) : IO (list Entry) :=
  try_catch
    (let normalizedQuery := trim (toLowerCase query) in
     if bool_decide (normalizedQuery = "") then ret []
     else
       await allEntries <- getAllEntries;;
       ret (filter (λ entry,
                      includes (toLowerCase (gratitude_text entry)) normalizedQuery = true)
                   allEntries))
    (λ _, ret []).

(** ** Backup and restore ([schema.ts]) *)

(** The values [JSON.stringify] writes and [JSON.parse] reads.  The text
    between the two is not modelled: parsing what was written gives the value
    back. *)
#[warnings="-register-all"]
Inductive Json :=
  | JNull
  | JBool (b : bool)
  | JNumber (n : Z)
  | JString (s : string)
  | JArray (items : list Json)
  | JObject (members : list (string * Json)).

Definition json_optional {A} (name : string) (enc : A → Json) (v : option A)
  : list (string * Json) :=
  match v with
  | Some a => [(name, enc a)]
  | None => []
  end.

(** An absent optional field is not written. *)
Definition json_of_entry (e : Entry) : Json :=
  JObject
    ([("id", JString (id e));
      ("entry_date", JString (entry_date e));
      ("gratitude_text", JString (gratitude_text e));
      ("rating", JNumber (rating e));
      ("created_at", JNumber (created_at e));
      ("updated_at", JNumber (updated_at e))] ++
     json_optional "synced_at" JNumber (synced_at e) ++
     json_optional "deleted" JBool (deleted e))%list.

(** A member read by name; of two members of one name the later one counts. *)
Definition json_member (name : string) (members : list (string * Json))
  : option Json :=
  snd <$> head (filter (λ p, p.1 = name) (reverse members)).

Definition json_string (j : option Json) : option string :=
  match j with Some (JString s) => Some s | _ => None end.

Definition json_number (j : option Json) : option Z :=
  match j with Some (JNumber n) => Some n | _ => None end.

Definition json_bool (j : option Json) : option bool :=
  match j with Some (JBool b) => Some b | _ => None end.

(** The parsed value read as the [Entry] the source declares it to be. A value
    that is no whole Entry record is outside that type: [None].  The source
    does not check the items, and the table of this model holds Entry records
    only, so the statements about an import are about arrays of Entry
    records. *)
Definition entry_of_json (j : Json) : option Entry :=
  match j with
  | JObject members =>
      match json_string (json_member "id" members),
            json_string (json_member "entry_date" members),
            json_string (json_member "gratitude_text" members),
            json_number (json_member "rating" members),
            json_number (json_member "created_at" members),
            json_number (json_member "updated_at" members) with
      | Some i, Some d, Some t, Some r, Some c, Some u =>
          Some {| id := i; entry_date := d; gratitude_text := t; rating := r;
                  created_at := c; updated_at := u;
                  synced_at := json_number (json_member "synced_at" members);
                  deleted := json_bool (json_member "deleted" members) |}
      | _, _, _, _, _, _ => None
      end
  | _ => None
  end.

(** The engine's own error is thrown again as it is. *)
Definition clearDatabase : IO unit :=
  try_catch table_clear (λ msg, throw msg).

Definition exportDatabase : IO Json :=
  try_catch
    (await entries <- table_toArray;; ret (JArray (json_of_entry <$> entries)))
    (λ msg, throw msg).

(** The loop of [importDatabase]: an entry the store refuses is skipped. An
    item that is no Entry record is left out here; what the source does with
    such an item (it hands it to the store all the same) is not modelled. *)
Fixpoint import_entries (items : list Json) (imported : nat) : IO nat :=
  match items with
  | [] => ret imported
  | item :: items' =>
      await imported' <-
        match entry_of_json item with
        | Some entry =>
            try_catch (await _key <- table_add entry;; ret (S imported))
                      (λ _, ret imported)
        | None => ret imported
        end;;
      import_entries items' imported'
  end.

Definition importDatabase (jsonData : Json) : IO nat :=
  try_catch
    (match jsonData with
     | JArray items => import_entries items 0%nat
     | _ => throw "Invalid import data: expected array of entries"
     end)
    (λ msg, throw msg).

(** ** Month statistics ([calendarService.ts]) *)

Record BestDay := { date : string; best_rating : Z }.

Record MonthStats := {
  totalEntries : nat;
  averageRating : option Q;
  bestDay : option BestDay;
  completionRate : Z
}.

(** [Math.round] *)
Definition Math_round (x : Q) : Z := Qfloor (x + (1 # 2))%Q.

(** The quotients are kept exact. *)
Definition calculateMonthStats (entries : list Entry) (year month : Z)
  : MonthStats :=
  let datesInMonth := getDatesInMonth year month in
  let totalDaysInMonth := length datesInMonth in
  let monthEntries := filter (λ entry, entry_date entry ∈ datesInMonth) entries in
  let totalEntries := length monthEntries in
  let averageRating :=
    if (0 <? totalEntries)%nat then
      let sumRatings := foldl (λ sum entry, sum + rating entry) 0 monthEntries in
      Some (inject_Z sumRatings / inject_Z (Z.of_nat totalEntries))%Q
    else None in
  let bestDay :=
    if (0 <? totalEntries)%nat then
      let sorted := js_sort (λ a b, rating b - rating a) monthEntries in
      match head sorted with
      | Some best => Some {| date := entry_date best; best_rating := rating best |}
      | None => None
      end
    else None in
  let completionRate :=
    if (0 <? totalDaysInMonth)%nat then
      Math_round (inject_Z (Z.of_nat totalEntries) /
                  inject_Z (Z.of_nat totalDaysInMonth) * 100)%Q
    else 0 in
  {| totalEntries := totalEntries;
     averageRating := averageRating;
     bestDay := bestDay;
     completionRate := completionRate |}.

(** ** Text utilities ([src/lib/utils.ts]) *)

(** The first [n] code units. *)
Fixpoint string_take (n : nat) (s : string) : string :=
  match n, s with
  | S n', String c s' => String c (string_take n' s')
  | _, _ => ""
  end.

(** [text.slice(0, end)]: a negative [end] counts from the end of the text. *)
Definition slice_from_start (text : string) (end_ : Z) : string :=
  let len := Z.of_nat (String.length text) in
  let stop := if end_ <? 0 then Z.max (len + end_) 0 else Z.min end_ len in
  string_take (Z.to_nat stop) text.

(** [text.lastIndexOf(c)], scanning from index [i]; [found] is the last index
    seen so far, -1 when there is none. *)
Fixpoint lastIndexOf_go (c : ascii) (s : string) (i found : Z) : Z :=
  match s with
  | "" => found
  | String a s' => lastIndexOf_go c s' (i + 1) (if Ascii.eqb a c then i else found)
  end.

Definition lastIndexOf (text : string) (c : ascii) : Z :=
  lastIndexOf_go c text 0 (-1).

(** [truncateText(text, maxLength)]; the source gives [maxLength] the default
    150. *)
Definition truncateText (text : string) (maxLength : Z) : string :=
  if Z.of_nat (String.length text) <=? maxLength then text
  else
    let truncated := slice_from_start text maxLength in
    let lastSpace := lastIndexOf truncated " " in
    (if 0 <? lastSpace then slice_from_start truncated lastSpace else truncated)
    +:+ "...".

(** ** The month of today ([dateService.ts], getCurrentMonthRange) *)

Record DateRange := { range_start : string; range_end : string }.

(** [now] is the local calendar day of [new Date()]; [getMonth()] is its month
    less one.  Day 0 of the next month index is the last day of this month. *)
Definition getCurrentMonthRange (now : CivilDate) : DateRange :=
  let '(y, m) := jsDateYearMonth (cd_year now) (cd_month now - 1) in
  {| range_start := getDateString {| cd_year := y; cd_month := m; cd_day := 1 |};
     range_end :=
       getDateString {| cd_year := y; cd_month := m; cd_day := daysInMonth y m |} |}.

(** ** The state cache ([src/store/entryStore.ts]) *)

Module EntryStore.

Record EntryState := {
  entries : list Entry;
  todayEntry : option Entry;
  selectedEntry : option Entry;
  isLoading : bool;
  error : option string
}.

Definition initial : EntryState :=
  {| entries := []; todayEntry := None; selectedEntry := None;
     isLoading := false; error := None |}.

(** An action of the store: it changes the state of the store and the world,
    and settles like a promise. *)
Definition Action (A : Type) : Type :=
  EntryState → World → Outcome A * EntryState * World.

(** [set({ error: null })] *)
Definition clear_error (s : EntryState) : EntryState :=
  {| entries := entries s; todayEntry := todayEntry s;
     selectedEntry := selectedEntry s; isLoading := isLoading s; error := None |}.

(** [set({ error: message })]; every error the gateway throws is an [Error],
    so the message is its own. *)
Definition set_error (msg : string) (s : EntryState) : EntryState :=
  {| entries := entries s; todayEntry := todayEntry s;
     selectedEntry := selectedEntry s; isLoading := isLoading s;
     error := Some msg |}.

Definition loadEntries : Action unit :=
  λ s w,
    let s1 := {| entries := entries s; todayEntry := todayEntry s;
                 selectedEntry := selectedEntry s; isLoading := true;
                 error := None |} in
    match getAllEntries w with
    | (Resolved loaded, w1) =>
        (Resolved tt,
         {| entries := loaded; todayEntry := todayEntry s1;
            selectedEntry := selectedEntry s1; isLoading := false;
            error := error s1 |}, w1)
    | (Rejected msg, w1) =>
        (Resolved tt,
         {| entries := entries s1; todayEntry := todayEntry s1;
            selectedEntry := selectedEntry s1; isLoading := false;
            error := Some msg |}, w1)
    end.

Definition loadTodayEntry (today : CivilDate) : Action unit :=
  λ s w,
    let s1 := clear_error s in
    match getTodayEntry today w with
    | (Resolved loaded, w1) =>
        (Resolved tt,
         {| entries := entries s1; todayEntry := loaded;
            selectedEntry := selectedEntry s1; isLoading := isLoading s1;
            error := error s1 |}, w1)
    | (Rejected msg, w1) => (Resolved tt, set_error msg s1, w1)
    end.

(** [[entry, ...state.entries].sort(...)], newest date first. *)
Definition sort_newest_first (l : list Entry) : list Entry :=
  js_sort (λ a b, localeCompare (entry_date b) (entry_date a)) l.

Definition createEntry (today : CivilDate) (now : Z) (uuid : string)
  (input : CreateEntryInput) : Action Entry :=
  λ s w,
    let s1 := clear_error s in
    match createEntry today now uuid input w with
    | (Resolved entry, w1) =>
        (Resolved entry,
         {| entries := sort_newest_first (entry :: entries s1);
            todayEntry :=
              if bool_decide (c_entry_date input = getTodayDateString today)
              then Some entry else todayEntry s1;
            selectedEntry := selectedEntry s1; isLoading := isLoading s1;
            error := error s1 |}, w1)
    | (Rejected msg, w1) => (Rejected msg, set_error msg s1, w1)
    end.

Definition createTodayEntry (today : CivilDate) (now : Z) (uuid : string)
  (gratitude_text : string) (rating : Z) : Action Entry :=
  createEntry today now uuid
    {| c_entry_date := getTodayDateString today;
       c_gratitude_text := gratitude_text;
       c_rating := rating |}.

(** [state.todayEntry?.id === id ? replacement : state.todayEntry] *)
Definition replace_if_id (key : string) (replacement : option Entry)
  (current : option Entry) : option Entry :=
  match current with
  | Some e => if bool_decide (id e = key) then replacement else current
  | None => current
  end.

Definition updateEntry (today : CivilDate) (now : Z) (key : string)
  (updates : UpdateEntryInput) : Action Entry :=
  λ s w,
    let s1 := clear_error s in
    match updateEntry today now key updates w with
    | (Resolved updatedEntry, w1) =>
        (Resolved updatedEntry,
         {| entries :=
              (λ e, if bool_decide (id e = key) then updatedEntry else e)
                <$> entries s1;
            todayEntry := replace_if_id key (Some updatedEntry) (todayEntry s1);
            selectedEntry :=
              replace_if_id key (Some updatedEntry) (selectedEntry s1);
            isLoading := isLoading s1; error := error s1 |}, w1)
    | (Rejected msg, w1) => (Rejected msg, set_error msg s1, w1)
    end.

Definition deleteEntry (key : string) : Action unit :=
  λ s w,
    let s1 := clear_error s in
    match deleteEntry key w with
    | (Resolved _, w1) =>
        (Resolved tt,
         {| entries := filter (λ e, id e ≠ key) (entries s1);
            todayEntry := replace_if_id key None (todayEntry s1);
            selectedEntry := replace_if_id key None (selectedEntry s1);
            isLoading := isLoading s1; error := error s1 |}, w1)
    | (Rejected msg, w1) => (Rejected msg, set_error msg s1, w1)
    end.

Definition selectEntry (entry : option Entry) (s : EntryState) : EntryState :=
  {| entries := entries s; todayEntry := todayEntry s; selectedEntry := entry;
     isLoading := isLoading s; error := error s |}.

Definition clearError (s : EntryState) : EntryState := clear_error s.

(** The selectors; strings are compared by their code units. *)
Definition useEntriesInRange (startDate endDate : string) (s : EntryState)
  : list Entry :=
  filter (λ entry, String.le startDate (entry_date entry) ∧
                   String.le (entry_date entry) endDate) (entries s).

Definition useEntryByDate (dateString : string) (s : EntryState) : option Entry :=
  head (filter (λ entry, entry_date entry = dateString) (entries s)).

Definition useEntryCount (s : EntryState) : nat := length (entries s).

End EntryStore.

(** ** Notions used in the statements *)

(** What the engine maintains of the table: a record is stored under its own
    id, and no two records share an entry_date. *)
Definition store_ok (t : gmap string Entry) : Prop :=
  (∀ k e, t !! k = Some e → id e = k) ∧
  (∀ k1 k2 e1 e2, t !! k1 = Some e1 → t !! k2 = Some e2 →
                  entry_date e1 = entry_date e2 → k1 = k2).

(** [e] cannot be added to [t]: its id is taken, or its entry_date is. *)
Definition collides (e : Entry) (t : gmap string Entry) : Prop :=
  is_Some (t !! id e) ∨ ∃ k e', t !! k = Some e' ∧ entry_date e' = entry_date e.

(** A day of the calendar with a year of four digits. *)
Definition is_calendar_date (d : CivilDate) : Prop :=
  0 ≤ cd_year d ≤ 9999 ∧ 1 ≤ cd_month d ≤ 12 ∧
  1 ≤ cd_day d ≤ daysInMonth (cd_year d) (cd_month d).

Definition digitChar (n : Z) : ascii := ascii_of_N (48 + Z.to_N n).

(** The text YYYY-MM-DD of a day. *)
Definition date_text (d : CivilDate) : string :=
  let y := cd_year d in
  let m := cd_month d in
  let dd := cd_day d in
  String (digitChar (y / 1000)) (String (digitChar (y / 100 mod 10))
  (String (digitChar (y / 10 mod 10)) (String (digitChar (y mod 10))
  (String "-" (String (digitChar (m / 10)) (String (digitChar (m mod 10))
  (String "-" (String (digitChar (dd / 10)) (String (digitChar (dd mod 10))
  ""))))))))).

(** [needle] occurs in [hay]. *)
Definition is_substring (needle hay : string) : Prop :=
  ∃ before after, hay = before +:+ needle +:+ after.

(** The string is empty or made of white space only. *)
Fixpoint only_whitespace (s : string) : bool :=
  match s with
  | "" => true
  | String c s' => isWhiteSpace c && only_whitespace s'
  end.

(** "1 week ago", "3 weeks ago", ... *)
Definition ago_label (n : Z) (unit : string) : string :=
  if n =? 1 then "1 " +:+ unit +:+ " ago"
  else pretty n +:+ " " +:+ unit +:+ "s ago".

(** The writing operations of the gateway with the readings of the
    environment each of them makes. *)
Inductive Operation :=
  | OpCreate (today : CivilDate) (now : Z) (uuid : string) (input : CreateEntryInput)
  | OpUpdate (today : CivilDate) (now : Z) (key : string) (updates : UpdateEntryInput)
  | OpDelete (key : string).

Definition run_operation (op : Operation) (w : World) : World :=
  match op with
  | OpCreate today now uuid input => (createEntry today now uuid input w).2
  | OpUpdate today now key updates => (updateEntry today now key updates w).2
  | OpDelete key => (deleteEntry key w).2
  end.

Definition run_operations (ops : list Operation) (w : World) : World :=
  foldl (λ w op, run_operation op w) w ops.

(** The clock never runs backwards: the readings of [Date.now()] made by the
    operations, in their order, start at [t0] or later and do not decrease. *)
Fixpoint chronological (t0 : Z) (ops : list Operation) : Prop :=
  match ops with
  | [] => True
  | OpCreate _ now _ _ :: ops' => t0 ≤ now ∧ chronological now ops'
  | OpUpdate _ now _ _ :: ops' => t0 ≤ now ∧ chronological now ops'
  | OpDelete _ :: ops' => chronological t0 ops'
  end.


(** Every entry_date of the table is empty or a valid date string, as
    [createEntry] leaves them.  On such strings the collation of
    [localeCompare] is the order of the code units. *)
Definition date_strings (t : gmap string Entry) : Prop :=
  ∀ k e, t !! k = Some e →
         entry_date e = "" ∨ isValidDateString (entry_date e) = true.

(** [d1] is an earlier day of the calendar than [d2]. *)
Definition date_before (d1 d2 : CivilDate) : Prop :=
  cd_year d1 < cd_year d2 ∨
  (cd_year d1 = cd_year d2 ∧
   (cd_month d1 < cd_month d2 ∨
    (cd_month d1 = cd_month d2 ∧ cd_day d1 < cd_day d2))).

(** The day after [d]. *)
Definition next_day (d : CivilDate) : CivilDate :=
  if cd_day d <? daysInMonth (cd_year d) (cd_month d) then
    {| cd_year := cd_year d; cd_month := cd_month d; cd_day := cd_day d + 1 |}
  else if cd_month d <? 12 then
    {| cd_year := cd_year d; cd_month := cd_month d + 1; cd_day := 1 |}
  else {| cd_year := cd_year d + 1; cd_month := 1; cd_day := 1 |}.

(** What the gateway lets into the store: a text that is trimmed, not empty
    and of at most 1000 code units, a rating in 1..7, and an entry_date that
    is empty or a valid date string. *)
Definition record_ok (e : Entry) : Prop :=
  gratitude_text e ≠ "" ∧ trim (gratitude_text e) = gratitude_text e ∧
  (String.length (gratitude_text e) ≤ 1000)%nat ∧
  1 ≤ rating e ≤ 7 ∧
  (entry_date e = "" ∨ isValidDateString (entry_date e) = true).

(** The cache of the state store mirrors the table: the list holds the
    records of the table, the newest entry_date first; the entry of today is
    the one the table holds for today's date; a selected entry is a record of
    the table. *)
Definition cache_ok (today : CivilDate) (s : EntryStore.EntryState)
  (t : gmap string Entry) : Prop :=
  EntryStore.entries s = reverse (by_entry_date t) ∧
  EntryStore.todayEntry s = head (entry_date_equals (getTodayDateString today) t) ∧
  (∀ e, EntryStore.selectedEntry s = Some e → t !! id e = Some e).

(** How an action of the store settles: a success leaves no error message; a
    failure records its message and leaves the cached data as they were. *)
Definition settles_in {A} (o : Outcome A) (s s' : EntryStore.EntryState) : Prop :=
  EntryStore.isLoading s' = EntryStore.isLoading s ∧
  match o with
  | Resolved _ => EntryStore.error s' = None
  | Rejected msg =>
      EntryStore.error s' = Some msg ∧
      EntryStore.entries s' = EntryStore.entries s ∧
      EntryStore.todayEntry s' = EntryStore.todayEntry s ∧
      EntryStore.selectedEntry s' = EntryStore.selectedEntry s
  end.

(** ** Example data *)

Definition today_2024_06_15 : CivilDate :=
  {| cd_year := 2024; cd_month := 6; cd_day := 15 |}.

(** A text of 1001 code units, 1000 of them left after trimming. *)
Definition padded_text : string := " " +:+ String.concat "" (replicate 1000 "a").

Definition entry_june_1 : Entry :=
  {| id := "id-1"; entry_date := "2024-06-01"; gratitude_text := "Morning sun";
     rating := 7; created_at := 100; updated_at := 100;
     synced_at := None; deleted := None |}.

Definition entry_june_2 : Entry :=
  {| id := "id-2"; entry_date := "2024-06-02"; gratitude_text := "Rain on the roof";
     rating := 3; created_at := 200; updated_at := 200;
     synced_at := None; deleted := None |}.

Definition chrome_constraint_message : string :=
  "Key already exists in the object store.".

Definition empty_world : World :=
  {| table := ∅; faults := []; constraint_message := chrome_constraint_message |}.

(** A store holding the entries of June 1 and June 2. *)
Definition june_world : World :=
  {| table := <["id-2" := entry_june_2]> (<["id-1" := entry_june_1]> ∅);
     faults := [];
     constraint_message := chrome_constraint_message |}.

(** The same store when the engine fails the next request. *)
Definition failing_world : World :=
  {| table := table june_world;
     faults := [Some "QuotaExceededError"];
     constraint_message := chrome_constraint_message |}.

(** The same store when the engine answers the next request and fails the
    one after it. *)
Definition failing_later_world : World :=
  {| table := table june_world;
     faults := [None; Some "QuotaExceededError"];
     constraint_message := chrome_constraint_message |}.

(** A create at time 300, an update of the rating at time 400 and a delete. *)
Definition example_operations : list Operation :=
  [OpCreate today_2024_06_15 300 "id-7"
     {| c_entry_date := "2024-06-15"; c_gratitude_text := "Tea"; c_rating := 5 |};
   OpUpdate today_2024_06_15 400 "id-7"
     {| u_gratitude_text := None; u_rating := Some 6 |};
   OpDelete "id-1"].

(** Another store.  One of its entries has the date of the entry of June 1
    under another id; the other has the id of the entry of June 2 and another
    date. *)
Definition entry_june_1_again : Entry :=
  {| id := "id-8"; entry_date := "2024-06-01"; gratitude_text := "Coffee";
     rating := 4; created_at := 40; updated_at := 40;
     synced_at := None; deleted := None |}.

Definition entry_june_9 : Entry :=
  {| id := "id-2"; entry_date := "2024-06-09"; gratitude_text := "A letter";
     rating := 5; created_at := 50; updated_at := 60;
     synced_at := None; deleted := None |}.

Definition other_world : World :=
  {| table := <["id-8" := entry_june_1_again]> (<["id-2" := entry_june_9]> ∅);
     faults := [];
     constraint_message := chrome_constraint_message |}.

(** A create at time 300 followed by an update of the same entry at a time
    when the clock reads 100: it has been set back in between. *)
Definition clock_set_back_operations : list Operation :=
  [OpCreate today_2024_06_15 300 "id-7"
     {| c_entry_date := "2024-06-15"; c_gratitude_text := "Tea"; c_rating := 5 |};
   OpUpdate today_2024_06_15 100 "id-7"
     {| u_gratitude_text := None; u_rating := Some 6 |}].


(** The cache of the state store after loading the store of June. *)
Definition june_cache : EntryStore.EntryState :=
  {| EntryStore.entries := [entry_june_2; entry_june_1];
     EntryStore.todayEntry := None;
     EntryStore.selectedEntry := Some entry_june_1;
     EntryStore.isLoading := false;
     EntryStore.error := None |}.

(** * Properties *)

(** ** Strings *)

Lemma isWhiteSpace_toLowerCaseUnit c :
  isWhiteSpace (toLowerCaseUnit c) = isWhiteSpace c.
Proof. by destruct c as [[] [] [] [] [] [] [] []]. Qed.

Lemma toLowerCase_empty s : toLowerCase s = "" ↔ s = "".
Proof. by destruct s. Qed.

Lemma trimStart_toLowerCase s :
  trimStart (toLowerCase s) = toLowerCase (trimStart s).
Proof.
  induction s as [|c s IH]; [done|]. cbn [toLowerCase trimStart].
  rewrite isWhiteSpace_toLowerCaseUnit. by destruct (isWhiteSpace c).
Qed.

Lemma trimEnd_toLowerCase s :
  trimEnd (toLowerCase s) = toLowerCase (trimEnd s).
Proof.
  induction s as [|c s IH]; [done|]. cbn [toLowerCase trimEnd].
  rewrite IH, isWhiteSpace_toLowerCaseUnit.
  destruct (trimEnd s) eqn:E; cbn [toLowerCase]; [|done].
  by destruct (isWhiteSpace c).
Qed.

Lemma trim_toLowerCase s : trim (toLowerCase s) = toLowerCase (trim s).
Proof. unfold trim. by rewrite trimStart_toLowerCase, trimEnd_toLowerCase. Qed.

Lemma trimStart_only_whitespace s :
  only_whitespace s = true ↔ trimStart s = "".
Proof.
  induction s as [|c s IH]; [done|]. cbn [only_whitespace trimStart].
  destruct (isWhiteSpace c); [done|]. split; discriminate.
Qed.

Lemma trimEnd_empty s : trimEnd s = "" ↔ only_whitespace s = true.
Proof.
  induction s as [|c s IH]; [done|]. cbn [only_whitespace trimEnd].
  destruct (trimEnd s) eqn:E.
  - destruct IH as [IH _]. rewrite (IH eq_refl).
    destruct (isWhiteSpace c); split; (done || discriminate).
  - destruct (only_whitespace s).
    + destruct IH as [_ IH]. by specialize (IH eq_refl).
    + rewrite andb_false_r. split; discriminate.
Qed.

Lemma trimStart_keeps_whitespace s :
  only_whitespace (trimStart s) = only_whitespace s.
Proof.
  induction s as [|c s IH]; [done|]. cbn [only_whitespace trimStart].
  destruct (isWhiteSpace c) eqn:E; [done|]. cbn [only_whitespace]. by rewrite E.
Qed.

Lemma trim_empty s : trim s = "" ↔ only_whitespace s = true.
Proof. unfold trim. by rewrite trimEnd_empty, trimStart_keeps_whitespace. Qed.

Lemma prefix_spec n h : String.prefix n h = true ↔ ∃ after, h = n +:+ after.
Proof.
  revert h. induction n as [|c n IH]; intros h.
  - destruct h; (split; [intros _; eexists; reflexivity | done]).
  - destruct h as [|c' h]; cbn [String.prefix].
    + split; [done|]. by intros [after Ha].
    + destruct (Ascii.ascii_dec c c') as [->|Hne].
      * rewrite IH. split; intros [after Ha]; exists after.
        -- by rewrite Ha.
        -- by injection Ha.
      * split; [done|]. intros [after Ha]. by injection Ha.
Qed.

Lemma includes_spec h n : includes h n = true ↔ is_substring n h.
Proof.
  induction h as [|c h IH]; cbn [includes].
  - rewrite orb_false_r, prefix_spec. split.
    + intros [after Ha]. by exists "", after.
    + intros ([|b before] & after & Ha); [by exists after|done].
  - rewrite orb_true_iff, prefix_spec, IH. split.
    + intros [[after Ha]|(before & after & Ha)].
      * by exists "", after.
      * exists (String c before), after. by rewrite Ha.
    + intros ([|b before] & after & Ha).
      * left. by exists after.
      * right. exists before, after. by injection Ha.
Qed.

(** ** Dates *)

Lemma digitValue_digitChar n : 0 ≤ n ≤ 9 → digitValue (digitChar n) = Some n.
Proof.
  intros Hn.
  assert (n = 0 ∨ n = 1 ∨ n = 2 ∨ n = 3 ∨ n = 4 ∨ n = 5 ∨ n = 6 ∨ n = 7 ∨
          n = 8 ∨ n = 9) as Hcases by lia.
  repeat (destruct Hcases as [->|Hcases]; [reflexivity|]). by subst.
Qed.

Lemma daysInMonth_le_31 y m : daysInMonth y m ≤ 31.
Proof.
  unfold daysInMonth.
  repeat match goal with
         | |- context [match ?x with _ => _ end] => destruct x
         end; lia.
Qed.

Lemma matchDatePattern_date_text d :
  0 ≤ cd_year d ≤ 9999 → 0 ≤ cd_month d ≤ 99 → 0 ≤ cd_day d ≤ 99 →
  matchDatePattern (date_text d) = Some (cd_year d, cd_month d, cd_day d).
Proof.
  destruct d as [y m dd]. cbn [cd_year cd_month cd_day]. intros Hy Hm Hd.
  unfold date_text, matchDatePattern. cbn [cd_year cd_month cd_day].
  rewrite !digitValue_digitChar by (Z.div_mod_to_equations; lia).
  do 2 f_equal; [f_equal|]; Z.div_mod_to_equations; lia.
Qed.

Lemma parseISO_date_text d :
  is_calendar_date d → parseISO (date_text d) = Some d.
Proof.
  intros (Hy & Hm & Hd). unfold parseISO.
  pose proof (daysInMonth_le_31 (cd_year d) (cd_month d)).
  rewrite matchDatePattern_date_text by lia.
  destruct d as [y m dd]. cbn [cd_year cd_month cd_day] in *.
  assert ((1 <=? m) && (m <=? 12) && (1 <=? dd) && (dd <=? daysInMonth y m) = true)
    as ->; [|done].
  rewrite !andb_true_iff, !Z.leb_le. lia.
Qed.

Lemma isValidDateString_date_text d :
  is_calendar_date d → isValidDateString (date_text d) = true.
Proof.
  intros Hd. unfold isValidDateString.
  pose proof (daysInMonth_le_31 (cd_year d) (cd_month d)).
  rewrite parseISO_date_text by done.
  destruct Hd as (Hy & Hm & Hd).
  rewrite matchDatePattern_date_text by lia.
  rewrite !bool_decide_eq_true_2; [done|by eexists..].
Qed.

Lemma isFuture_date_text today d :
  is_calendar_date d → isFuture today (date_text d) = bool_decide (dayNumber today < dayNumber d).
Proof.
  intros Hd. unfold isFuture, parseEntryDate. rewrite parseISO_date_text by done.
  case_bool_decide; [by apply Z.ltb_lt|by apply Z.ltb_ge; lia].
Qed.

(** ** Validation *)

(** C2, as the code has it: a create payload is accepted when its text is not
    blank after trimming and has at most 1000 code units before trimming,
    its rating lies in 1..7, and its entry_date, if supplied, is the text
    YYYY-MM-DD of a day of the calendar that is not after today.  The result
    then has [valid = true] and no errors. *)
Theorem validateEntry_accepts (today : CivilDate) (text : string) (r : Z)
  (date : option string) :
  trim text ≠ "" →
  (String.length text ≤ 1000)%nat →
  1 ≤ r ≤ 7 →
  (∀ s, date = Some s →
        ∃ d, is_calendar_date d ∧ s = date_text d ∧ dayNumber d ≤ dayNumber today) →
  validateEntry today
    {| p_gratitude_text := Some text; p_rating := Some r; p_entry_date := date |}
    false
  = {| valid := true; errors := [] |}.
Proof.
  intros Htrim Hlen Hr Hdate.
  assert (validate_gratitude_text
            {| p_gratitude_text := Some text; p_rating := Some r;
               p_entry_date := date |} false = []) as Htext.
  { unfold validate_gratitude_text, default, from_option, Datatypes.id.
    cbn [negb orb p_gratitude_text].
    destruct (trim text) as [|c t] eqn:E; [done|]. cbn [String.length Nat.eqb].
    by apply Nat.ltb_ge in Hlen as ->. }
  assert (validate_rating
            {| p_gratitude_text := Some text; p_rating := Some r;
               p_entry_date := date |} false = []) as Hrating.
  { unfold validate_rating. cbn.
    assert ((r <? 1) || (7 <? r) = false) as ->; [|done].
    apply orb_false_iff. split; apply Z.ltb_ge; lia. }
  assert (validate_entry_date today
            {| p_gratitude_text := Some text; p_rating := Some r;
               p_entry_date := date |} false = []) as Hd.
  { unfold validate_entry_date. cbn [p_entry_date negb andb].
    destruct date as [s|]; [|done].
    destruct (Hdate s eq_refl) as (d & Hcal & -> & Hpast).
    rewrite isValidDateString_date_text, isFuture_date_text by done.
    rewrite (bool_decide_eq_false_2 (dayNumber today < dayNumber d)) by lia.
    by case_bool_decide. }
  unfold validateEntry. by rewrite Htext, Hrating, Hd.
Qed.

Lemma validateEntry_accepts_witness :
  validateEntry today_2024_06_15
    {| p_gratitude_text := Some " a walk in the sun ";
       p_rating := Some 6;
       p_entry_date := Some "2024-06-14" |} false
  = {| valid := true; errors := [] |}.
Proof.
  apply (validateEntry_accepts today_2024_06_15 " a walk in the sun " 6
           (Some "2024-06-14")).
  - vm_compute. discriminate.
  - vm_compute. lia.
  - lia.
  - intros s [= <-].
    exists {| cd_year := 2024; cd_month := 6; cd_day := 14 |}.
    split; [|split]; [vm_compute; intuition discriminate|reflexivity|vm_compute; discriminate].
Defined.

(** C2 as stated fails: the limit of 1000 is checked on the text before
    trimming, so a text whose trimmed length is 1000 is refused when it has
    white space around it. *)
Lemma validateEntry_rejects_padded_text :
  (1 ≤ String.length (trim padded_text) ≤ 1000)%nat ∧
  valid (validateEntry today_2024_06_15
           {| p_gratitude_text := Some padded_text; p_rating := Some 4;
              p_entry_date := None |} false) = false ∧
  message <$> errors (validateEntry today_2024_06_15
           {| p_gratitude_text := Some padded_text; p_rating := Some 4;
              p_entry_date := None |} false)
  = ["Gratitude text must be 1000 characters or less"].
Proof. vm_compute. repeat split; lia. Qed.

(** ** Relative time *)

Ltac branch :=
  match goal with
  | |- context [?a =? ?b] => destruct (Z.eqb_spec a b)
  | |- context [?a <? ?b] => destruct (Z.ltb_spec a b)
  end.

(** C9: for the text YYYY-MM-DD of a day of the calendar that lies [days] days
    before today, getRelativeTime returns "Yesterday" for 1 day and
    "1 week ago" for 8 days; for 0 < days < 7 the label counts days (for one
    day it is the "Yesterday" above), for 7 <= days < 30 it counts weeks, for
    30 <= days < 365 months, and from 365 days on years. *)
Theorem getRelativeTime_past (today date : CivilDate) :
  is_calendar_date date →
  let days := differenceInDays today date in
  let label := getRelativeTime today (date_text date) in
  (days = 1 → label = "Yesterday") ∧
  (days = 8 → label = "1 week ago") ∧
  (0 < days < 7 →
   label = if days =? 1 then "Yesterday" else pretty days +:+ " days ago") ∧
  (7 ≤ days < 30 → label = ago_label (days / 7) "week") ∧
  (30 ≤ days < 365 → label = ago_label (days / 30) "month") ∧
  (365 ≤ days → label = ago_label (days / 365) "year").
Proof.
  intros Hcal days label. subst label.
  unfold getRelativeTime, parseEntryDate. rewrite parseISO_date_text by done.
  change (differenceInDays today date) with days. clearbody days.
  repeat split; intros Hdays.
  - by subst.
  - by subst.
  - repeat branch; (done || lia).
  - unfold ago_label. repeat branch; (done || lia).
  - unfold ago_label. repeat branch; (done || lia).
  - unfold ago_label. repeat branch; (done || lia).
Qed.

Lemma getRelativeTime_past_witness :
  getRelativeTime today_2024_06_15 "2024-06-07" = "1 week ago" ∧
  getRelativeTime today_2024_06_15 "2024-06-14" = "Yesterday" ∧
  getRelativeTime today_2024_06_15 "2024-06-12" = "3 days ago" ∧
  getRelativeTime today_2024_06_15 "2023-06-15" = "1 year ago".
Proof.
  assert (∀ y m d, (1 <=? m) && (m <=? 12) && (1 <=? d) && (d <=? daysInMonth y m)
                   && (0 <=? y) && (y <=? 9999) = true →
                   is_calendar_date {| cd_year := y; cd_month := m; cd_day := d |})
    as Hcal.
  { intros y m d. rewrite !andb_true_iff, !Z.leb_le. unfold is_calendar_date.
    cbn [cd_year cd_month cd_day]. lia. }
  split_and!.
  - destruct (getRelativeTime_past today_2024_06_15
                {| cd_year := 2024; cd_month := 6; cd_day := 7 |})
      as (_ & H8 & _); [by apply Hcal|].
    exact (H8 eq_refl).
  - destruct (getRelativeTime_past today_2024_06_15
                {| cd_year := 2024; cd_month := 6; cd_day := 14 |})
      as (H1 & _); [by apply Hcal|].
    exact (H1 eq_refl).
  - destruct (getRelativeTime_past today_2024_06_15
                {| cd_year := 2024; cd_month := 6; cd_day := 12 |})
      as (_ & _ & Hdays & _); [by apply Hcal|].
    apply Hdays. vm_compute. intuition discriminate.
  - destruct (getRelativeTime_past today_2024_06_15
                {| cd_year := 2023; cd_month := 6; cd_day := 15 |})
      as (_ & _ & _ & _ & _ & Hyears); [by apply Hcal|].
    apply Hyears. vm_compute. discriminate.
Defined.

(** ** Month statistics *)

Lemma addLeadingZeros_4 y :
  0 ≤ y ≤ 9999 →
  addLeadingZeros y 4 =
  String (digitChar (y / 1000)) (String (digitChar (y / 100 mod 10))
    (String (digitChar (y / 10 mod 10)) (String (digitChar (y mod 10)) ""))).
Proof.
  intros Hy.
  assert (forallb (λ y, bool_decide
            (addLeadingZeros y 4 =
             String (digitChar (y / 1000)) (String (digitChar (y / 100 mod 10))
               (String (digitChar (y / 10 mod 10))
                  (String (digitChar (y mod 10)) "")))))
            (seqZ 0 10000) = true) as Hall by (vm_compute; reflexivity).
  rewrite forallb_forall in Hall.
  eapply bool_decide_eq_true_1, Hall. apply list_elem_of_In, elem_of_seqZ. lia.
Qed.

Lemma addLeadingZeros_2 n :
  0 ≤ n ≤ 99 →
  addLeadingZeros n 2 = String (digitChar (n / 10)) (String (digitChar (n mod 10)) "").
Proof.
  intros Hn.
  assert (forallb (λ n, bool_decide
            (addLeadingZeros n 2 =
             String (digitChar (n / 10)) (String (digitChar (n mod 10)) "")))
            (seqZ 0 100) = true) as Hall by (vm_compute; reflexivity).
  rewrite forallb_forall in Hall.
  eapply bool_decide_eq_true_1, Hall. apply list_elem_of_In, elem_of_seqZ. lia.
Qed.

Lemma getDateString_date_text d :
  1 ≤ cd_year d ≤ 9999 → 0 ≤ cd_month d ≤ 99 → 0 ≤ cd_day d ≤ 99 →
  getDateString d = date_text d.
Proof.
  intros Hy Hm Hd. unfold getDateString, date_text.
  assert ((0 <? cd_year d) = true) as -> by (apply Z.ltb_lt; lia).
  by rewrite addLeadingZeros_4, !addLeadingZeros_2 by lia.
Qed.

Lemma jsDateYearMonth_plain year month :
  ¬ (0 ≤ year ≤ 99) → 1 ≤ month ≤ 12 →
  jsDateYearMonth year (month - 1) = (year, month).
Proof.
  intros Hy Hm. unfold jsDateYearMonth.
  assert ((0 <=? year) && (year <=? 99) = false) as ->.
  { apply andb_false_iff. rewrite !Z.leb_gt. lia. }
  f_equal; Z.div_mod_to_equations; lia.
Qed.










(** Two entries of June share the highest rating: the earlier one in the
    list is the best day. *)
Example bestDay_of_a_tie :
  bestDay (calculateMonthStats
             [entry_june_2; entry_june_9; entry_june_1;
              {| id := "id-4"; entry_date := "2024-06-04"; gratitude_text := "Bread";
                 rating := 7; created_at := 1; updated_at := 1;
                 synced_at := None; deleted := None |};
              {| id := "id-5"; entry_date := "2024-07-01"; gratitude_text := "July";
                 rating := 7; created_at := 1; updated_at := 1;
                 synced_at := None; deleted := None |}] 2024 6)
  = Some {| date := "2024-06-01"; best_rating := 7 |}.
Proof. reflexivity. Qed.

Lemma rating_value_range r : 1 ≤ rating_value r ≤ 7.
Proof. destruct r; cbn; lia. Qed.

(** ** The store *)

Lemma world_eta w :
  {| table := table w; faults := faults w;
     constraint_message := constraint_message w |} = w.
Proof. by destruct w. Qed.

Lemma request_no_fault {A} (run : gmap string Entry → Outcome A * gmap string Entry) w :
  faults w = [] →
  request run w =
  ((run (table w)).1,
   {| table := (run (table w)).2; faults := [];
      constraint_message := constraint_message w |}).
Proof. unfold request. intros ->. by destruct (run (table w)). Qed.

Lemma request_fault {A} (run : gmap string Entry → Outcome A * gmap string Entry)
  w msg rest :
  faults w = Some msg :: rest →
  request run w =
  (Rejected msg,
   {| table := table w; faults := rest;
      constraint_message := constraint_message w |}).
Proof. unfold request. by intros ->. Qed.

Lemma request_read_no_fault {A} (read : gmap string Entry → A) w :
  faults w = [] →
  request (λ t, (Resolved (read t), t)) w = (Resolved (read (table w)), w).
Proof.
  intros Hf. rewrite request_no_fault by done. cbn. rewrite <- Hf.
  by rewrite world_eta.
Qed.

Lemma elem_of_rows e t : e ∈ rows t ↔ ∃ k, t !! k = Some e.
Proof.
  unfold rows. rewrite list_elem_of_fmap. split.
  - intros ([k e'] & -> & Hin%elem_of_map_to_list). by exists k.
  - intros [k Hk]. exists (k, e). by rewrite elem_of_map_to_list.
Qed.

Lemma NoDup_rows t : store_ok t → NoDup (rows t).
Proof.
  intros [Hid _]. unfold rows. apply NoDup_fmap_2_strong.
  - intros [k1 e1] [k2 e2] H1%elem_of_map_to_list H2%elem_of_map_to_list Heq.
    cbn in Heq. subst e2. by rewrite <- (Hid _ _ H1), <- (Hid _ _ H2).
  - apply NoDup_map_to_list.
Qed.

Lemma by_entry_date_rows t : by_entry_date t ≡ₚ rows t.
Proof. apply merge_sort_Permutation. Qed.

Lemma by_primary_key_rows t : by_primary_key t ≡ₚ rows t.
Proof. apply merge_sort_Permutation. Qed.

Lemma elem_of_entry_date_equals e d t :
  e ∈ entry_date_equals d t ↔ (∃ k, t !! k = Some e) ∧ entry_date e = d.
Proof.
  unfold entry_date_equals.
  rewrite list_elem_of_filter, by_entry_date_rows, elem_of_rows. tauto.
Qed.

Lemma entry_date_equals_nil d t :
  entry_date_equals d t = [] ↔ ∀ k e, t !! k = Some e → entry_date e ≠ d.
Proof.
  split.
  - intros Hnil k e Hk Hd.
    assert (e ∈ entry_date_equals d t) as Hin
      by (apply elem_of_entry_date_equals; eauto).
    rewrite Hnil in Hin. by apply elem_of_nil in Hin.
  - intros Hnone. destruct (entry_date_equals d t) as [|e l] eqn:E; [done|].
    assert (e ∈ entry_date_equals d t) as Hin by (rewrite E; left).
    apply elem_of_entry_date_equals in Hin as [[k Hk] Hd]. by destruct (Hnone k e).
Qed.

Lemma filter_only {A} (P : A → Prop) `{!∀ x, Decision (P x)} (l : list A) e :
  NoDup l → e ∈ l → P e → (∀ x, x ∈ l → P x → x = e) → filter P l = [e].
Proof.
  induction l as [|y l IH]; intros Hnd Hin HP Hall.
  - by apply elem_of_nil in Hin.
  - apply NoDup_cons in Hnd as [Hy Hnd].
    destruct (decide (P y)) as [HPy|HPy].
    + rewrite filter_cons_True by done.
      assert (y = e) as -> by (apply Hall; [left|done]).
      f_equal. destruct (filter P l) as [|z l'] eqn:E; [done|].
      assert (z ∈ filter P l) as Hz by (rewrite E; left).
      apply list_elem_of_filter in Hz as [HPz Hz].
      assert (z = e) as -> by (apply Hall; [by right|done]). done.
    + rewrite filter_cons_False by done.
      apply IH; [done| |done|].
      * apply elem_of_cons in Hin as [->|Hin]; done.
      * intros x Hx. apply Hall. by right.
Qed.

Lemma entry_date_equals_only t k e :
  store_ok t → t !! k = Some e →
  filter (λ e', entry_date e' = entry_date e) (rows t) = [e].
Proof.
  intros Hok Hk. apply filter_only.
  - by apply NoDup_rows.
  - apply elem_of_rows. eauto.
  - done.
  - intros x [k' Hk']%elem_of_rows Hd. destruct Hok as [_ Huniq].
    assert (k' = k) as -> by eauto. congruence.
Qed.

(** ** Reading *)

Lemma getEntryByDate_no_fault d w :
  faults w = [] →
  getEntryByDate d w = (Resolved (head (entry_date_equals d (table w))), w).
Proof.
  intros Hf. unfold getEntryByDate, try_catch, table_first_by_date.
  by rewrite request_read_no_fault.
Qed.

Lemma getEntryById_no_fault key w :
  faults w = [] → getEntryById key w = (Resolved (table w !! key), w).
Proof.
  intros Hf. unfold getEntryById, try_catch, table_get.
  by rewrite request_read_no_fault.
Qed.

Lemma getAllEntries_no_fault w :
  faults w = [] →
  getAllEntries w = (Resolved (reverse (by_entry_date (table w))), w).
Proof.
  intros Hf. unfold getAllEntries, try_catch, table_by_date_desc.
  by rewrite request_read_no_fault.
Qed.

(** ** The invariant of the store is kept by the engine *)

Lemma store_ok_empty : store_ok ∅.
Proof. split; intros *; by rewrite lookup_empty. Qed.

Lemma store_ok_insert t e :
  store_ok t → t !! id e = None → entry_date_equals (entry_date e) t = [] →
  store_ok (<[id e := e]> t).
Proof.
  intros [Hid Huniq] Hfree Hdate. rewrite entry_date_equals_nil in Hdate. split.
  - intros k e' [[<- <-]|[_ Hk]]%lookup_insert_Some; eauto.
  - intros k1 k2 e1 e2 [[<- <-]|[Hne1 Hk1]]%lookup_insert_Some
                       [[<- <-]|[Hne2 Hk2]]%lookup_insert_Some Heq; [done|..].
    + by destruct (Hdate k2 e2).
    + by destruct (Hdate k1 e1).
    + eauto.
Qed.

Lemma store_ok_update t key e e' :
  store_ok t → t !! key = Some e → id e' = id e → entry_date e' = entry_date e →
  store_ok (<[key := e']> t).
Proof.
  intros [Hid Huniq] Hkey Hi Hd. split.
  - intros k x [[<- <-]|[_ Hk]]%lookup_insert_Some; [|eauto].
    rewrite Hi. eauto.
  - intros k1 k2 e1 e2 [[<- <-]|[Hne1 Hk1]]%lookup_insert_Some
                       [[<- <-]|[Hne2 Hk2]]%lookup_insert_Some Heq; [done|..].
    + rewrite Hd in Heq. eauto.
    + rewrite Hd in Heq. eauto.
    + eauto.
Qed.

Lemma store_ok_delete t key : store_ok t → store_ok (delete key t).
Proof.
  intros [Hid Huniq]. split.
  - intros k e [_ Hk]%lookup_delete_Some. eauto.
  - intros k1 k2 e1 e2 [_ Hk1]%lookup_delete_Some [_ Hk2]%lookup_delete_Some. eauto.
Qed.

Lemma date_strings_june_world : date_strings (table june_world).
Proof.
  intros k e Hk. right. unfold june_world in Hk. cbn [table] in Hk.
  apply lookup_insert_Some in Hk as [[_ <-]|[_ Hk]]; [reflexivity|].
  apply lookup_insert_Some in Hk as [[_ <-]|[_ Hk]]; [reflexivity|].
  by rewrite lookup_empty in Hk.
Qed.

Lemma store_ok_june_world : store_ok (table june_world).
Proof.
  apply (store_ok_insert _ entry_june_2); [|done..].
  apply (store_ok_insert _ entry_june_1); [|done..].
  apply store_ok_empty.
Qed.

(** ** Creating *)

(** C1: when the store holds an entry [e] for the date of a valid create
    payload, createEntry rejects with the duplicate-date message and leaves
    the store as it was; the records of the store with that date are still
    [e] alone. *)
Theorem createEntry_duplicate_date (today : CivilDate) (now : Z) (uuid : string)
  (input : CreateEntryInput) (w : World) (key : string) (e : Entry) :
  faults w = [] →
  store_ok (table w) →
  table w !! key = Some e →
  entry_date e = c_entry_date input →
  valid (validateEntry today (partial_of_create input) false) = true →
  ∃ w', createEntry today now uuid input w
        = (Rejected (duplicate_date_message (c_entry_date input)), w') ∧
        table w' = table w ∧
        filter (λ e', entry_date e' = c_entry_date input) (rows (table w')) = [e].
Proof.
  intros Hf Hok Hkey Hdate Hvalid. exists w. split_and!; [|done|].
  - unfold createEntry. rewrite Hvalid. cbn [negb]. unfold bind.
    rewrite getEntryByDate_no_fault by done.
    destruct (entry_date_equals (c_entry_date input) (table w)) as [|x l] eqn:E;
      [|done].
    rewrite entry_date_equals_nil in E. by destruct (E key e).
  - rewrite <- Hdate. by eapply entry_date_equals_only.
Qed.

Lemma createEntry_duplicate_date_witness :
  ∃ w', createEntry today_2024_06_15 300 "id-3"
          {| c_entry_date := "2024-06-02"; c_gratitude_text := "Again";
             c_rating := 5 |} june_world
        = (Rejected "An entry already exists for 2024-06-02. Please edit the existing entry instead.",
           w') ∧
        table w' = table june_world ∧
        filter (λ e', entry_date e' = "2024-06-02") (rows (table w')) = [entry_june_2].
Proof.
  apply (createEntry_duplicate_date today_2024_06_15 300 "id-3"
           {| c_entry_date := "2024-06-02"; c_gratitude_text := "Again";
              c_rating := 5 |} june_world "id-2" entry_june_2).
  - reflexivity.
  - apply store_ok_june_world.
  - reflexivity.
  - reflexivity.
  - reflexivity.
Defined.

(** ** Updating *)

Lemma table_update_no_fault key changes w e :
  faults w = [] → table w !! key = Some e →
  table_update key changes w =
  (Resolved 1%nat,
   {| table := <[key := changes]> (table w); faults := [];
      constraint_message := constraint_message w |}).
Proof.
  intros Hf Hkey. unfold table_update. rewrite request_no_fault by done.
  by rewrite Hkey.
Qed.

(** C3: updateEntry with only a rating in 1..7, on the id of a stored entry,
    resolves with the stored record in which rating became the new rating and
    updated_at the reading of the clock; every other field is as before, the
    record is stored under the same id and all other records are untouched. *)
Theorem updateEntry_rating_only (today : CivilDate) (now : Z) (key : string)
  (R : Z) (w : World) (e : Entry) :
  faults w = [] →
  table w !! key = Some e →
  1 ≤ R ≤ 7 →
  ∃ e' w',
    updateEntry today now key {| u_gratitude_text := None; u_rating := Some R |} w
    = (Resolved e', w') ∧
    rating e' = R ∧ updated_at e' = now ∧
    id e' = id e ∧ entry_date e' = entry_date e ∧
    created_at e' = created_at e ∧ gratitude_text e' = gratitude_text e ∧
    synced_at e' = synced_at e ∧ deleted e' = deleted e ∧
    table w' !! key = Some e' ∧
    (∀ k, k ≠ key → table w' !! k = table w !! k).
Proof.
  intros Hf Hkey HR.
  eexists (merge_updates e {| u_gratitude_text := None; u_rating := Some R |} now), _.
  split_and!; [|done..| |].
  - unfold updateEntry.
    assert (valid (validateEntry today
              (partial_of_update {| u_gratitude_text := None; u_rating := Some R |})
              true) = true) as ->.
    { unfold validateEntry, validate_gratitude_text, validate_rating,
        validate_entry_date. cbn.
      assert ((R <? 1) || (7 <? R) = false) as ->; [|done].
      apply orb_false_iff. split; apply Z.ltb_ge; lia. }
    cbn [negb]. unfold bind. rewrite getEntryById_no_fault, Hkey by done.
    unfold try_catch, bind. by erewrite table_update_no_fault.
  - cbn. by rewrite lookup_insert_eq.
  - intros k Hk. cbn. by rewrite lookup_insert_ne.
Qed.

Lemma updateEntry_rating_only_witness :
  ∃ e' w',
    updateEntry today_2024_06_15 900 "id-2"
      {| u_gratitude_text := None; u_rating := Some 6 |} june_world
    = (Resolved e', w') ∧
    rating e' = 6 ∧ updated_at e' = 900 ∧
    id e' = "id-2" ∧ entry_date e' = "2024-06-02" ∧
    created_at e' = 200 ∧ gratitude_text e' = "Rain on the roof" ∧
    synced_at e' = None ∧ deleted e' = None ∧
    table w' !! "id-2" = Some e' ∧
    (∀ k, k ≠ "id-2" → table w' !! k = table june_world !! k).
Proof.
  apply (updateEntry_rating_only today_2024_06_15 900 "id-2" 6 june_world
           entry_june_2).
  - reflexivity.
  - reflexivity.
  - lia.
Defined.

(** ** Deleting *)

Lemma table_delete_no_fault key w :
  faults w = [] →
  table_delete key w =
  (Resolved tt,
   {| table := delete key (table w); faults := [];
      constraint_message := constraint_message w |}).
Proof. intros Hf. unfold table_delete. by rewrite request_no_fault. Qed.

Lemma deleteEntry_absent key w :
  faults w = [] → table w !! key = None →
  deleteEntry key w = (Rejected "Entry not found", w).
Proof.
  intros Hf Hkey. unfold deleteEntry, bind.
  by rewrite getEntryById_no_fault, Hkey.
Qed.

(** C8: deleteEntry on a stored id resolves and removes that record and no
    other; after it getEntryById resolves with null and a second deleteEntry
    rejects with "Entry not found".  On an id that is not stored deleteEntry
    rejects with "Entry not found" and the store is as before. *)
Theorem deleteEntry_spec (key : string) (w : World) :
  faults w = [] →
  (is_Some (table w !! key) →
   ∃ w', deleteEntry key w = (Resolved tt, w') ∧
         table w' = delete key (table w) ∧
         getEntryById key w' = (Resolved None, w') ∧
         deleteEntry key w' = (Rejected "Entry not found", w')) ∧
  (table w !! key = None →
   deleteEntry key w = (Rejected "Entry not found", w)).
Proof.
  intros Hf. split.
  - intros [e Hkey]. eexists. split_and!.
    + unfold deleteEntry, bind. rewrite getEntryById_no_fault, Hkey by done.
      unfold try_catch. by rewrite table_delete_no_fault.
    + done.
    + rewrite getEntryById_no_fault by done. cbn. by rewrite lookup_delete_eq.
    + apply deleteEntry_absent; [done|]. cbn. by rewrite lookup_delete_eq.
  - by apply deleteEntry_absent.
Qed.

Lemma deleteEntry_spec_witness :
  (∃ w', deleteEntry "id-1" june_world = (Resolved tt, w') ∧
         table w' = delete "id-1" (table june_world) ∧
         getEntryById "id-1" w' = (Resolved None, w') ∧
         deleteEntry "id-1" w' = (Rejected "Entry not found", w')) ∧
  deleteEntry "id-9" june_world = (Rejected "Entry not found", june_world).
Proof.
  split.
  - apply (deleteEntry_spec "id-1" june_world); [reflexivity|].
    by exists entry_june_1.
  - apply (deleteEntry_spec "id-9" june_world); reflexivity.
Defined.

(** ** Searching *)

(** C10: for a query that is empty or white space only, searchEntries
    resolves with the empty list, whatever the store; for any other query it
    resolves with a list holding exactly the stored entries whose lower-cased
    gratitude_text contains the lower-cased trimmed query. *)
Theorem searchEntries_spec (query : string) (w : World) :
  (only_whitespace query = true → searchEntries query w = (Resolved [], w)) ∧
  (only_whitespace query = false → faults w = [] →
   ∃ found, searchEntries query w = (Resolved found, w) ∧
     ∀ e, e ∈ found ↔
          (∃ k, table w !! k = Some e) ∧
          is_substring (toLowerCase (trim query)) (toLowerCase (gratitude_text e))).
Proof.
  unfold searchEntries, try_catch. rewrite trim_toLowerCase. split.
  - intros Hblank%trim_empty. rewrite Hblank. done.
  - intros Hquery Hf.
    rewrite bool_decide_eq_false_2.
    2:{ rewrite toLowerCase_empty, trim_empty. by rewrite Hquery. }
    unfold bind. rewrite getAllEntries_no_fault by done. eexists. split; [done|].
    intros e. rewrite list_elem_of_filter, elem_of_reverse, by_entry_date_rows,
      elem_of_rows, includes_spec. tauto.
Qed.

Lemma searchEntries_spec_witness :
  searchEntries "  " june_world = (Resolved [], june_world) ∧
  (∃ found, searchEntries " RAIN " june_world = (Resolved found, june_world) ∧
     ∀ e, e ∈ found ↔
          (∃ k, table june_world !! k = Some e) ∧
          is_substring (toLowerCase (trim " RAIN ")) (toLowerCase (gratitude_text e))).
Proof.
  split.
  - apply (searchEntries_spec "  " june_world). reflexivity.
  - apply (searchEntries_spec " RAIN " june_world); reflexivity.
Defined.

(** ** What an operation can do to the table, faults included *)

Lemma request_cases {A} (run : gmap string Entry → Outcome A * gmap string Entry)
  w o w1 :
  request run w = (o, w1) →
  (table w1 = table w ∧ ∃ msg, o = Rejected msg ∧ head (faults w) = Some (Some msg)) ∨
  (table w1 = (run (table w)).2 ∧ o = (run (table w)).1).
Proof.
  unfold request. destruct (faults w) as [|[msg|] rest] eqn:Hf.
  - destruct (run (table w)) as [r t]. intros [= <- <-]. by right.
  - intros [= <- <-]. left. eauto.
  - destruct (run (table w)) as [r t]. intros [= <- <-]. by right.
Qed.

Lemma getEntryById_cases key w o w1 :
  getEntryById key w = (o, w1) →
  table w1 = table w ∧
  (o = Resolved (table w !! key) ∨ o = Rejected ("Failed to load entry " +:+ key)).
Proof.
  unfold getEntryById, try_catch, table_get.
  destruct (request _ w) as [[a|msg] w2] eqn:E; intros [= <- <-];
    apply request_cases in E as [[Ht (m & Ho & _)]|[Ht Ho]]; cbn in *;
    simplify_eq; auto.
Qed.

Lemma getEntryByDate_cases d w o w1 :
  getEntryByDate d w = (o, w1) →
  table w1 = table w ∧
  (o = Resolved (head (entry_date_equals d (table w))) ∨
   o = Rejected ("Failed to load entry for " +:+ d)).
Proof.
  unfold getEntryByDate, try_catch, table_first_by_date.
  destruct (request _ w) as [[a|msg] w2] eqn:E; intros [= <- <-];
    apply request_cases in E as [[Ht (m & Ho & _)]|[Ht Ho]]; cbn in *;
    simplify_eq; auto.
Qed.

Lemma table_add_cases entry w o w1 :
  table_add entry w = (o, w1) →
  (table w1 = table w ∧ ∃ msg, o = Rejected msg) ∨
  (table w1 = <[id entry := entry]> (table w) ∧ o = Resolved (id entry) ∧
   table w !! id entry = None ∧ entry_date_equals (entry_date entry) (table w) = []).
Proof.
  unfold table_add. intros [[Ht (m & Ho & _)]|[Ht Ho]]%request_cases.
  - left. eauto.
  - destruct (table w !! id entry) eqn:Hid;
      [|destruct (entry_date_equals (entry_date entry) (table w)) eqn:Hd];
      cbn in *; eauto.
Qed.

Lemma table_update_cases key changes w o w1 :
  table_update key changes w = (o, w1) →
  table w1 = table w ∨
  (is_Some (table w !! key) ∧ table w1 = <[key := changes]> (table w) ∧
   o = Resolved 1%nat).
Proof.
  unfold table_update. intros [[Ht _]|[Ht Ho]]%request_cases; [by left|].
  destruct (table w !! key) eqn:Hkey; cbn in *; eauto.
Qed.

Lemma table_delete_cases key w o w1 :
  table_delete key w = (o, w1) →
  table w1 = table w ∨ table w1 = delete key (table w).
Proof.
  unfold table_delete. intros [[Ht _]|[Ht Ho]]%request_cases; cbn in *; auto.
Qed.

Lemma createEntry_cases today now uuid input w o w1 :
  createEntry today now uuid input w = (o, w1) →
  (table w1 = table w ∧ ∃ msg, o = Rejected msg) ∨
  (∃ e, o = Resolved e ∧ table w1 = <[id e := e]> (table w) ∧
        created_at e = now ∧ updated_at e = now ∧ id e = uuid ∧
        entry_date e = c_entry_date input ∧
        table w !! id e = None ∧ entry_date_equals (entry_date e) (table w) = []).
Proof.
  unfold createEntry.
  destruct (valid _); cbn [negb]; [|intros [= <- <-]; left; eauto].
  unfold bind at 1.
  destruct (getEntryByDate _ w) as [o2 w2] eqn:E2.
  apply getEntryByDate_cases in E2 as [Ht2 [->| ->]];
    [|intros [= <- <-]; left; eauto].
  destruct (head _); [intros [= <- <-]; left; eauto|].
  unfold try_catch, bind.
  destruct (table_add _ w2) as [o3 w3] eqn:E3.
  apply table_add_cases in E3 as [[Ht3 [msg ->]]|(Ht3 & -> & Hfree & Hdate)].
  - destruct (includes msg "constraint"); intros [= <- <-]; left;
      (split; [congruence|eauto]).
  - intros [= <- <-]. right. eexists. rewrite <- Ht2. split_and!; done.
Qed.

Lemma updateEntry_cases today now key updates w o w1 :
  updateEntry today now key updates w = (o, w1) →
  (table w1 = table w ∧ ∀ e', o = Resolved e' →
     ∃ e, table w !! key = Some e ∧ e' = merge_updates e updates now) ∨
  (∃ e, table w !! key = Some e ∧
        o = Resolved (merge_updates e updates now) ∧
        table w1 = <[key := merge_updates e updates now]> (table w)).
Proof.
  unfold updateEntry.
  destruct (valid _); cbn [negb]; [|intros [= <- <-]; left; by split].
  unfold bind at 1.
  destruct (getEntryById _ w) as [o2 w2] eqn:E2.
  apply getEntryById_cases in E2 as [Ht2 [->| ->]];
    [|intros [= <- <-]; left; by split].
  destruct (table w !! key) as [e|] eqn:Hkey; [|intros [= <- <-]; left; by split].
  unfold try_catch, bind.
  destruct (table_update _ _ w2) as [[n|msg] w3] eqn:E3; intros [= <- <-];
    apply table_update_cases in E3 as [Ht3|(_ & Ht3 & [=])].
  - left. split; [congruence|]. intros e' [= <-]. eauto.
  - right. exists e. split_and!; [done..|congruence].
  - left. split; [congruence|done].
Qed.

Lemma deleteEntry_cases key w o w1 :
  deleteEntry key w = (o, w1) →
  table w1 = table w ∨ table w1 = delete key (table w).
Proof.
  unfold deleteEntry, bind.
  destruct (getEntryById _ w) as [o2 w2] eqn:E2.
  apply getEntryById_cases in E2 as [Ht2 [->| ->]]; [|intros [= <- <-]; by left].
  destruct (table w !! key); [|intros [= <- <-]; by left].
  unfold try_catch.
  destruct (table_delete _ w2) as [[u|msg] w3] eqn:E3; intros [= <- <-];
    apply table_delete_cases in E3 as [Ht3|Ht3]; rewrite Ht3, Ht2; auto.
Qed.

(** The writing operations keep the invariant of the store. *)
Lemma store_ok_run_operation op w :
  store_ok (table w) → store_ok (table (run_operation op w)).
Proof.
  intros Hok. destruct op as [today now uuid input|today now key updates|key];
    cbn [run_operation].
  - destruct (createEntry today now uuid input w) as [o w1] eqn:E. cbn [snd].
    apply createEntry_cases in E
      as [[-> _]|(e & _ & -> & _ & _ & _ & _ & Hfree & Hdate)]; [done|].
    by apply store_ok_insert.
  - destruct (updateEntry today now key updates w) as [o w1] eqn:E. cbn [snd].
    apply updateEntry_cases in E as [[-> _]|(e & Hkey & _ & ->)]; [done|].
    by eapply store_ok_update.
  - destruct (deleteEntry key w) as [o w1] eqn:E. cbn [snd].
    apply deleteEntry_cases in E as [-> | ->]; [done|].
    by apply store_ok_delete.
Qed.

Lemma store_ok_run_operations ops w :
  store_ok (table w) → store_ok (table (run_operations ops w)).
Proof.
  revert w. induction ops as [|op ops IH]; intros w Hok; [done|].
  cbn [run_operations foldl]. apply IH. by apply store_ok_run_operation.
Qed.

(** ** Time stamps *)

(** Every record was created at or before [t], and changed no earlier than
    it was created. *)
Lemma stamps_step (op : Operation) (w : World) (t0 : Z) :
  (∀ k e, table w !! k = Some e → created_at e ≤ updated_at e ∧ created_at e ≤ t0) →
  chronological t0 [op] →
  ∃ t1, t0 ≤ t1 ∧
        (∀ ops, chronological t0 (op :: ops) → chronological t1 ops) ∧
        ∀ k e, table (run_operation op w) !! k = Some e →
               created_at e ≤ updated_at e ∧ created_at e ≤ t1.
Proof.
  intros Hinv Hop. destruct op as [today now uuid input|today now key updates|key];
    cbn [run_operation chronological] in *.
  - destruct Hop as [Hnow _]. exists now. split_and!; [done|by intros ops [_ ?]|].
    destruct (createEntry today now uuid input w) as [o w1] eqn:E. cbn [snd].
    apply createEntry_cases in E
      as [[-> _]|(e' & _ & -> & Hc & Hu & _)]; intros k e.
    + intros Hk. destruct (Hinv _ _ Hk). lia.
    + intros [[<- <-]|[_ Hk]]%lookup_insert_Some; [lia|].
      destruct (Hinv _ _ Hk). lia.
  - destruct Hop as [Hnow _]. exists now. split_and!; [done|by intros ops [_ ?]|].
    destruct (updateEntry today now key updates w) as [o w1] eqn:E. cbn [snd].
    apply updateEntry_cases in E as [[-> _]|(e' & Hkey & _ & ->)]; intros k e.
    + intros Hk. destruct (Hinv _ _ Hk). lia.
    + destruct (Hinv _ _ Hkey).
      intros [[<- <-]|[_ Hk]]%lookup_insert_Some; [cbn; lia|].
      destruct (Hinv _ _ Hk). lia.
  - exists t0. split_and!; [done|done|].
    destruct (deleteEntry key w) as [o w1] eqn:E. cbn [snd].
    apply deleteEntry_cases in E as [-> | ->]; intros k e.
    + apply Hinv.
    + intros [_ ?]%lookup_delete_Some. by eapply Hinv.
Qed.

(** C4, as the code has it: createEntry gives a new record the reading of
    the clock as both created_at and updated_at; updateEntry keeps
    created_at and sets updated_at to its own reading of the clock, which it
    does not compare with created_at; so when the clock never runs
    backwards, every record of the store has updated_at >= created_at after
    any sequence of create, update and delete operations, whatever requests
    the engine fails on the way. *)
Theorem updated_at_not_before_created_at :
  (∀ today now uuid input w e w1,
     createEntry today now uuid input w = (Resolved e, w1) →
     created_at e = now ∧ updated_at e = now) ∧
  (∀ today now key updates w e' w1,
     updateEntry today now key updates w = (Resolved e', w1) →
     ∃ e, table w !! key = Some e ∧
          created_at e' = created_at e ∧ updated_at e' = now) ∧
  (∀ (ops : list Operation) (w : World) (t0 : Z),
     (∀ k e, table w !! k = Some e →
             created_at e ≤ updated_at e ∧ created_at e ≤ t0) →
     chronological t0 ops →
     ∀ k e, table (run_operations ops w) !! k = Some e →
            created_at e ≤ updated_at e).
Proof.
  split_and!.
  - intros * [[_ [msg [=]]]|(e' & [= <-] & _ & ? & ? & _)]%createEntry_cases. done.
  - intros * [[_ He]|(e & Hkey & [= ->] & _)]%updateEntry_cases.
    + destruct (He e' eq_refl) as (e & Hkey & ->). by exists e.
    + by exists e.
  - intros ops. induction ops as [|op ops IH]; intros w t0 Hinv Hchron k e.
    + cbn. intros Hk. by destruct (Hinv _ _ Hk).
    + cbn [run_operations foldl].
      destruct (stamps_step op w t0 Hinv) as (t1 & _ & Hnext & Hinv1).
      { destruct op; cbn in *; tauto. }
      apply (IH (run_operation op w) t1 Hinv1 (Hnext ops Hchron)).
Qed.

Lemma updated_at_not_before_created_at_witness :
  Forall (λ e, created_at e ≤ updated_at e)
         (rows (table (run_operations example_operations june_world))).
Proof.
  apply Forall_forall. intros e [k Hk]%elem_of_rows.
  destruct updated_at_not_before_created_at as (_ & _ & Hseq).
  apply (Hseq example_operations june_world 200) with k; [|cbn; lia|done].
  intros k' e' Hk'. unfold june_world in Hk'. cbn [table] in Hk'.
  apply lookup_insert_Some in Hk' as [[_ <-]|[_ Hk']]; [cbn; lia|].
  apply lookup_insert_Some in Hk' as [[_ <-]|[_ Hk']]; [cbn; lia|].
  by rewrite lookup_empty in Hk'.
Defined.

(** Without that condition on the clock the invariant fails: [Date.now()]
    is read anew by updateEntry, and after a create at 300 and an update at
    100 the stored record has created_at 300 and updated_at 100. *)
Lemma updated_at_before_created_at :
  ∃ e, table (run_operations clock_set_back_operations empty_world) !! "id-7"
       = Some e ∧
       created_at e = 300 ∧ updated_at e = 100 ∧ updated_at e < created_at e.
Proof. eexists. split; [vm_compute; reflexivity|]. cbn. lia. Qed.

(** ** Failures of the store *)

Lemma request_answered {A} (run : gmap string Entry → Outcome A * gmap string Entry)
  w rest :
  faults w = None :: rest →
  request run w =
  ((run (table w)).1,
   {| table := (run (table w)).2; faults := rest;
      constraint_message := constraint_message w |}).
Proof. unfold request. intros ->. by destruct (run (table w)). Qed.

(** C5, as the code has it.  When the engine fails the request an operation
    makes, the getters getTodayEntry, getEntryByDate, getEntryById,
    getAllEntries and getEntriesInRange and the writers createEntry,
    updateEntry and deleteEntry reject with a fixed message of their own, in
    which the message of the engine does not appear; getEntryCount,
    getRandomEntry and searchEntries resolve instead, with 0, null and the
    empty list.  The writers do the same when their first request is answered
    and their second one fails. *)
Theorem gateway_store_failure (w : World) (msg : string)
  (rest : list (option string)) :
  (faults w = Some msg :: rest →
   (∀ today, (getTodayEntry today w).1 = Rejected "Failed to load today's entry") ∧
   (∀ d, (getEntryByDate d w).1 = Rejected ("Failed to load entry for " +:+ d)) ∧
   (∀ key, (getEntryById key w).1 = Rejected ("Failed to load entry " +:+ key)) ∧
   (getAllEntries w).1 = Rejected "Failed to load entries" ∧
   (∀ a b, (getEntriesInRange a b w).1 = Rejected "Failed to load entries") ∧
   (∀ today now uuid input,
      valid (validateEntry today (partial_of_create input) false) = true →
      (createEntry today now uuid input w).1
      = Rejected ("Failed to load entry for " +:+ c_entry_date input)) ∧
   (∀ today now key updates,
      valid (validateEntry today (partial_of_update updates) true) = true →
      (updateEntry today now key updates w).1
      = Rejected ("Failed to load entry " +:+ key)) ∧
   (∀ key, (deleteEntry key w).1 = Rejected ("Failed to load entry " +:+ key)) ∧
   (getEntryCount w).1 = Resolved 0%nat ∧
   (∀ today random, (getRandomEntry today random w).1 = Resolved None) ∧
   (∀ query, (searchEntries query w).1 = Resolved [])) ∧
  (faults w = None :: Some msg :: rest →
   (∀ today now uuid input,
      valid (validateEntry today (partial_of_create input) false) = true →
      entry_date_equals (c_entry_date input) (table w) = [] →
      (createEntry today now uuid input w).1
      = Rejected (if includes msg "constraint"
                  then "An entry already exists for this date. Please edit the existing entry instead."
                  else "Failed to save entry")) ∧
   (∀ today now key updates,
      valid (validateEntry today (partial_of_update updates) true) = true →
      is_Some (table w !! key) →
      (updateEntry today now key updates w).1 = Rejected "Failed to update entry") ∧
   (∀ key, is_Some (table w !! key) →
           (deleteEntry key w).1 = Rejected "Failed to delete entry")).
Proof.
  split; intros Hf.
  - split_and!.
    + intros today. unfold getTodayEntry, try_catch, table_first_by_date.
      by rewrite (request_fault _ _ _ _ Hf).
    + intros d. unfold getEntryByDate, try_catch, table_first_by_date.
      by rewrite (request_fault _ _ _ _ Hf).
    + intros key. unfold getEntryById, try_catch, table_get.
      by rewrite (request_fault _ _ _ _ Hf).
    + unfold getAllEntries, try_catch, table_by_date_desc.
      by rewrite (request_fault _ _ _ _ Hf).
    + intros a b. unfold getEntriesInRange, try_catch, bind, table_between.
      by rewrite (request_fault _ _ _ _ Hf).
    + intros today now uuid input Hvalid. unfold createEntry. rewrite Hvalid.
      cbn [negb]. unfold bind, getEntryByDate, try_catch, table_first_by_date.
      by rewrite (request_fault _ _ _ _ Hf).
    + intros today now key updates Hvalid. unfold updateEntry. rewrite Hvalid.
      cbn [negb]. unfold bind, getEntryById, try_catch, table_get.
      by rewrite (request_fault _ _ _ _ Hf).
    + intros key. unfold deleteEntry, bind, getEntryById, try_catch, table_get.
      by rewrite (request_fault _ _ _ _ Hf).
    + unfold getEntryCount, try_catch, table_count.
      by rewrite (request_fault _ _ _ _ Hf).
    + intros today random. unfold getRandomEntry, try_catch, bind, table_not_equal.
      by rewrite (request_fault _ _ _ _ Hf).
    + intros query. unfold searchEntries, try_catch.
      case_bool_decide; [done|].
      unfold bind, getAllEntries, try_catch, table_by_date_desc.
      by rewrite (request_fault _ _ _ _ Hf).
  - split_and!.
    + intros today now uuid input Hvalid Hnone. unfold createEntry.
      rewrite Hvalid. cbn [negb].
      unfold bind at 1. unfold getEntryByDate, try_catch at 1, table_first_by_date.
      rewrite (request_answered _ _ _ Hf). cbn [fst snd]. rewrite Hnone. cbn [head].
      unfold try_catch, bind, table_add.
      erewrite request_fault by done. by destruct (includes msg "constraint").
    + intros today now key updates Hvalid [e He]. unfold updateEntry.
      rewrite Hvalid. cbn [negb].
      unfold bind at 1. unfold getEntryById, try_catch at 1, table_get.
      rewrite (request_answered _ _ _ Hf). cbn [fst snd]. rewrite He.
      unfold try_catch, bind, table_update.
      by erewrite request_fault by done.
    + intros key [e He]. unfold deleteEntry.
      unfold bind at 1. unfold getEntryById, try_catch at 1, table_get.
      rewrite (request_answered _ _ _ Hf). cbn [fst snd]. rewrite He.
      unfold try_catch, table_delete.
      by erewrite request_fault by done.
Qed.

Lemma gateway_store_failure_witness :
  (getAllEntries failing_world).1 = Rejected "Failed to load entries" ∧
  (getEntryById "id-1" failing_world).1 = Rejected "Failed to load entry id-1" ∧
  (getEntryCount failing_world).1 = Resolved 0%nat ∧
  (deleteEntry "id-1" failing_later_world).1 = Rejected "Failed to delete entry".
Proof.
  destruct (gateway_store_failure failing_world "QuotaExceededError" [])
    as [Hfirst _].
  destruct (Hfirst eq_refl) as (_ & _ & Hid & Hall & _ & _ & _ & _ & Hcount & _).
  destruct (gateway_store_failure failing_later_world "QuotaExceededError" [])
    as [_ Hsecond].
  destruct (Hsecond eq_refl) as (_ & _ & Hdelete).
  split_and!.
  - exact Hall.
  - exact (Hid "id-1").
  - exact Hcount.
  - apply Hdelete. by exists entry_june_1.
Defined.

(** C5 as stated fails: with a store of two entries whose engine fails the
    request, getEntryCount resolves with 0, getRandomEntry with null and
    searchEntries with the empty list; none of them rejects. *)
Lemma store_failure_not_propagated :
  head (faults failing_world) = Some (Some "QuotaExceededError") ∧
  (getEntryCount june_world).1 = Resolved 2%nat ∧
  (getEntryCount failing_world).1 = Resolved 0%nat ∧
  (getRandomEntry today_2024_06_15 (1 # 2) failing_world).1 = Resolved None ∧
  (searchEntries "rain" june_world).1 = Resolved [entry_june_2] ∧
  (searchEntries "rain" failing_world).1 = Resolved [].
Proof. vm_compute. done. Qed.

(** ** Backup and restore *)

Lemma entry_of_json_of_entry e : entry_of_json (json_of_entry e) = Some e.
Proof. by destruct e as [i d t r c u [s|] [b|]]. Qed.

Lemma not_collides e t :
  ¬ collides e t ↔
  t !! id e = None ∧ entry_date_equals (entry_date e) t = [].
Proof.
  unfold collides. rewrite entry_date_equals_nil. split.
  - intros Hno. split.
    + destruct (t !! id e) eqn:E; [|done]. destruct Hno. left. eauto.
    + intros k e' Hk Hd. apply Hno. right. eauto.
  - intros [Hid Hd] [[x Hx]|(k & e' & Hk & He')]; [congruence|]. by eapply Hd.
Qed.

Lemma collides_mono e t1 t2 : t1 ⊆ t2 → collides e t1 → collides e t2.
Proof.
  intros Hsub [[x Hx]|(k & e' & Hk & Hd)].
  - left. exists x. by eapply lookup_weaken.
  - right. exists k, e'. split; [by eapply lookup_weaken|done].
Qed.

Lemma table_add_fresh entry w :
  faults w = [] → ¬ collides entry (table w) →
  table_add entry w =
  (Resolved (id entry),
   {| table := <[id entry := entry]> (table w); faults := [];
      constraint_message := constraint_message w |}).
Proof.
  intros Hf [Hid Hd]%not_collides. unfold table_add.
  rewrite request_no_fault by done. by rewrite Hid, Hd.
Qed.

Lemma table_add_refused entry w :
  faults w = [] → collides entry (table w) →
  table_add entry w = (Rejected (constraint_message w), w).
Proof.
  intros Hf Hc. unfold table_add. rewrite request_no_fault by done.
  destruct (table w !! id entry) eqn:Hid;
    [|destruct (entry_date_equals (entry_date entry) (table w)) eqn:Hd].
  - cbn. rewrite <- Hf. by rewrite world_eta.
  - exfalso. by apply (proj2 (not_collides entry (table w))).
  - cbn. rewrite <- Hf. by rewrite world_eta.
Qed.

Lemma import_entries_spec (l : list Entry) :
  ∀ (n : nat) (w : World),
    faults w = [] →
    NoDup (id <$> l) → NoDup (entry_date <$> l) →
    ∃ m w',
      import_entries (json_of_entry <$> l) n w = (Resolved (n + m)%nat, w') ∧
      faults w' = [] ∧
      (store_ok (table w) → store_ok (table w')) ∧
      size (table w') = (size (table w) + m)%nat ∧
      (∀ k e, table w' !! k = Some e ↔
              table w !! k = Some e ∨
              (e ∈ l ∧ k = id e ∧ ¬ collides e (table w))).
Proof.
  induction l as [|x l IH]; intros n w Hf Hids Hdates.
  - exists 0%nat, w. cbn. rewrite Nat.add_0_r. split_and!; [done..|].
    intros k e. split; [auto|]. intros [?|[?%elem_of_nil _]]; done.
  - cbn [fmap list_fmap import_entries]. rewrite entry_of_json_of_entry.
    rewrite fmap_cons in Hids, Hdates.
    apply NoDup_cons in Hids as [Hid_x Hids].
    apply NoDup_cons in Hdates as [Hdate_x Hdates].
    unfold bind at 1. unfold try_catch, bind.
    destruct (decide (collides x (table w))) as [Hc|Hc].
    + rewrite table_add_refused by done. unfold ret. cbv beta iota.
      destruct (IH n w Hf Hids Hdates) as (m & w' & -> & Hf' & Hok & Hsize & Hiff).
      exists m, w'. split_and!; [done..|].
      intros k e. rewrite Hiff. split; [|intros [?|([->|?]%elem_of_cons & ? & ?)]].
      * intros [?|(? & ? & ?)]; [by left|right]. split_and!; [by right|done..].
      * by left.
      * done.
      * right. done.
    + rewrite table_add_fresh by done. unfold ret. cbv beta iota.
      pose proof Hc as [Hfree Hdate]%not_collides.
      match goal with
      | |- context [import_entries _ _ ?w1] =>
          destruct (IH (S n) w1 eq_refl Hids Hdates)
            as (m & w' & -> & Hf' & Hok & Hsize & Hiff)
      end.
      cbn [table] in Hok, Hsize, Hiff.
      exists (S m), w'. split_and!.
      * f_equal. f_equal. lia.
      * done.
      * intros Hok0. apply Hok. by apply store_ok_insert.
      * rewrite Hsize, map_size_insert_None by done. lia.
      * intros k e. rewrite Hiff, lookup_insert_Some. split.
        -- intros [[[<- <-]|[Hne Hk]]|(Hin & -> & Hnc)].
           ++ right. split_and!; [left|done..].
           ++ by left.
           ++ right. split_and!; [by right|done|].
              intros Hc'. apply Hnc. eapply collides_mono; [|done].
              by apply insert_subseteq.
        -- intros [Hk|([->|Hin]%elem_of_cons & -> & Hnc)].
           ++ left. right. split; [|done]. intros <-. congruence.
           ++ left. by left.
           ++ right. split_and!; [done..|].
              intros [[y Hy]|(k' & e' & Hk' & Hd')].
              ** apply lookup_insert_Some in Hy as [[Heq _]|[_ Hy]].
                 --- apply Hid_x. rewrite Heq. by apply list_elem_of_fmap_2.
                 --- apply Hnc. left. eauto.
              ** apply lookup_insert_Some in Hk' as [[_ <-]|[_ Hk']].
                 --- apply Hdate_x. rewrite Hd'. by apply list_elem_of_fmap_2.
                 --- apply Hnc. right. eauto.
Qed.

Lemma NoDup_ids_by_primary_key t : store_ok t → NoDup (id <$> by_primary_key t).
Proof.
  intros Hok. rewrite by_primary_key_rows. apply NoDup_fmap_2_strong.
  - intros x y [kx Hx]%elem_of_rows [ky Hy]%elem_of_rows Heq.
    destruct Hok as [Hid _].
    assert (kx = ky) as -> by (by rewrite <- (Hid _ _ Hx), <- (Hid _ _ Hy)).
    congruence.
  - by apply NoDup_rows.
Qed.

Lemma NoDup_dates_by_primary_key t :
  store_ok t → NoDup (entry_date <$> by_primary_key t).
Proof.
  intros Hok. rewrite by_primary_key_rows. apply NoDup_fmap_2_strong.
  - intros x y [kx Hx]%elem_of_rows [ky Hy]%elem_of_rows Heq.
    destruct Hok as [_ Huniq]. assert (kx = ky) as -> by eauto. congruence.
  - by apply NoDup_rows.
Qed.

Lemma importDatabase_array l w n w' :
  import_entries l 0 w = (Resolved n, w') →
  importDatabase (JArray l) w = (Resolved n, w').
Proof. unfold importDatabase, try_catch. by intros ->. Qed.

(** C6, as the code has it.  Exporting a store and importing the snapshot
    into an empty store gives a store with the same records and returns their
    number.  Importing a snapshot of records with distinct ids and distinct
    dates (every exported snapshot is one) into any store skips exactly the
    records whose entry_date or whose id is already in the store, keeps the
    records of the store, adds the others, and returns the number of records
    added. *)
Theorem export_import :
  (∀ w target : World,
     faults w = [] → store_ok (table w) →
     faults target = [] → table target = ∅ →
     ∃ l w1 target',
       exportDatabase w = (Resolved (JArray (json_of_entry <$> l)), w1) ∧
       table w1 = table w ∧
       NoDup (id <$> l) ∧ NoDup (entry_date <$> l) ∧
       (∀ e, e ∈ l ↔ ∃ k, table w !! k = Some e) ∧
       importDatabase (JArray (json_of_entry <$> l)) target
       = (Resolved (size (table w)), target') ∧
       table target' = table w) ∧
  (∀ (l : list Entry) (w : World),
     faults w = [] → NoDup (id <$> l) → NoDup (entry_date <$> l) →
     ∃ n w',
       importDatabase (JArray (json_of_entry <$> l)) w = (Resolved n, w') ∧
       size (table w') = (size (table w) + n)%nat ∧
       (store_ok (table w) → store_ok (table w')) ∧
       (∀ k e, table w' !! k = Some e ↔
               table w !! k = Some e ∨
               (e ∈ l ∧ k = id e ∧ ¬ collides e (table w)))).
Proof.
  assert (∀ (l : list Entry) (w : World),
     faults w = [] → NoDup (id <$> l) → NoDup (entry_date <$> l) →
     ∃ n w',
       importDatabase (JArray (json_of_entry <$> l)) w = (Resolved n, w') ∧
       size (table w') = (size (table w) + n)%nat ∧
       (store_ok (table w) → store_ok (table w')) ∧
       (∀ k e, table w' !! k = Some e ↔
               table w !! k = Some e ∨
               (e ∈ l ∧ k = id e ∧ ¬ collides e (table w)))) as Himport.
  { intros l w Hf Hids Hdates.
    destruct (import_entries_spec l 0 w Hf Hids Hdates)
      as (m & w' & Hrun & _ & Hok & Hsize & Hiff).
    exists m, w'. split_and!; [|done..]. by apply importDatabase_array. }
  split; [|done].
  intros w target Hf Hok Hft Hempty.
  pose proof (NoDup_ids_by_primary_key _ Hok) as Hids.
  pose proof (NoDup_dates_by_primary_key _ Hok) as Hdates.
  destruct (Himport (by_primary_key (table w)) target Hft Hids Hdates)
    as (n & target' & Hrun & Hsize & _ & Hiff).
  assert (table target' = table w) as Htable.
  { apply map_eq. intros k. apply option_eq. intros e.
    rewrite Hiff, Hempty, lookup_empty, by_primary_key_rows, elem_of_rows.
    destruct Hok as [Hid _]. split.
    - intros [?|([k' Hk'] & -> & _)]; [done|]. by rewrite (Hid _ _ Hk').
    - intros Hk. right. split_and!; [by exists k|by rewrite (Hid _ _ Hk)|].
      apply not_collides. split; [apply lookup_empty|].
      apply entry_date_equals_nil. intros k' e'. by rewrite lookup_empty. }
  exists (by_primary_key (table w)), w, target'.
  split_and!; [|done|done|done| | |done].
  - unfold exportDatabase, try_catch, bind, table_toArray.
    by rewrite request_read_no_fault.
  - intros e. by rewrite by_primary_key_rows, elem_of_rows.
  - rewrite Hrun. do 2 f_equal.
    rewrite Htable, Hempty, map_size_empty in Hsize. lia.
Qed.

Lemma export_import_witness :
  (∃ l w1 target',
     exportDatabase june_world = (Resolved (JArray (json_of_entry <$> l)), w1) ∧
     table w1 = table june_world ∧
     NoDup (id <$> l) ∧ NoDup (entry_date <$> l) ∧
     (∀ e, e ∈ l ↔ ∃ k, table june_world !! k = Some e) ∧
     importDatabase (JArray (json_of_entry <$> l)) empty_world
     = (Resolved (size (table june_world)), target') ∧
     table target' = table june_world) ∧
  (∃ n w',
     importDatabase (JArray (json_of_entry <$> [entry_june_1; entry_june_2]))
       other_world = (Resolved n, w') ∧
     size (table w') = (size (table other_world) + n)%nat ∧
     (store_ok (table other_world) → store_ok (table w')) ∧
     (∀ k e, table w' !! k = Some e ↔
             table other_world !! k = Some e ∨
             (e ∈ [entry_june_1; entry_june_2] ∧ k = id e ∧
              ¬ collides e (table other_world)))).
Proof.
  destruct export_import as [Hround Himport]. split.
  - apply (Hround june_world empty_world);
      [reflexivity|apply store_ok_june_world|reflexivity|reflexivity].
  - apply (Himport [entry_june_1; entry_june_2] other_world); [reflexivity|..].
    + apply (bool_decide_unpack _). vm_compute. exact I.
    + apply (bool_decide_unpack _). vm_compute. exact I.
Defined.

(** C6 as stated fails.  The store holds an entry for June 1 and none for
    June 2.  Of the exported snapshot the import skips the entry of June 1,
    whose date collides, and also the entry of June 2, whose date is free:
    its id is taken in the store.  The import returns 0 and the table is as
    before. *)
Lemma import_skips_taken_id :
  (exportDatabase june_world).1
  = Resolved (JArray (json_of_entry <$> [entry_june_1; entry_june_2])) ∧
  entry_date_equals "2024-06-01" (table other_world) = [entry_june_1_again] ∧
  entry_date_equals "2024-06-02" (table other_world) = [] ∧
  table other_world !! "id-2" = Some entry_june_9 ∧
  (importDatabase (JArray (json_of_entry <$> [entry_june_1; entry_june_2]))
                  other_world).1 = Resolved 0%nat ∧
  table (importDatabase
           (JArray (json_of_entry <$> [entry_june_1; entry_june_2]))
           other_world).2 = table other_world.
Proof. vm_compute. done. Qed.

(** * Further properties of the code *)

(** ** Date strings *)

Lemma digitValue_inv c n :
  digitValue c = Some n → 0 ≤ n ≤ 9 ∧ c = digitChar n.
Proof.
  destruct c as [[] [] [] [] [] [] [] []]; vm_compute; intros [= <-];
    by split_and!.
Qed.

Lemma matchDatePattern_inv s y m dd :
  matchDatePattern s = Some (y, m, dd) →
  0 ≤ y ≤ 9999 ∧ 0 ≤ m ≤ 99 ∧ 0 ≤ dd ≤ 99 ∧
  s = date_text {| cd_year := y; cd_month := m; cd_day := dd |}.
Proof.
  unfold matchDatePattern. intros H.
  repeat case_match; try discriminate. injection H as <- <- <-.
  repeat match goal with
         | H : digitValue _ = Some _ |- _ =>
             apply digitValue_inv in H as [? ->]
         end.
  repeat match goal with
         | H : Ascii _ _ _ _ _ _ _ _ = _ |- _ => clear H
         end.
  split_and!; try lia.
  unfold date_text. cbn [cd_year cd_month cd_day].
  repeat f_equal; Z.div_mod_to_equations; lia.
Qed.

(** X1: formatting a day of the calendar of the years 1..9999 gives its text
    YYYY-MM-DD, which parses back to the same day and is a valid date
    string. *)
Theorem date_string_round_trip (d : CivilDate) :
  is_calendar_date d → 1 ≤ cd_year d →
  getDateString d = date_text d ∧
  parseEntryDate (getDateString d) = Some d ∧
  isValidDateString (getDateString d) = true.
Proof.
  intros Hcal Hy. pose proof Hcal as (Hyear & Hmonth & Hday).
  pose proof (daysInMonth_le_31 (cd_year d) (cd_month d)).
  rewrite getDateString_date_text by lia. split_and!; [done|..].
  - by apply parseISO_date_text.
  - by apply isValidDateString_date_text.
Qed.

Lemma date_string_round_trip_witness :
  getDateString today_2024_06_15 = "2024-06-15" ∧
  parseEntryDate (getDateString today_2024_06_15) = Some today_2024_06_15 ∧
  isValidDateString (getDateString today_2024_06_15) = true.
Proof.
  apply (date_string_round_trip today_2024_06_15).
  - vm_compute. intuition discriminate.
  - vm_compute. discriminate.
Defined.

Lemma isValidDateString_inv s :
  isValidDateString s = true → ∃ d, is_calendar_date d ∧ s = date_text d.
Proof.
  unfold isValidDateString, parseISO.
  destruct (matchDatePattern s) as [[[y m] dd]|] eqn:E; [|done].
  apply matchDatePattern_inv in E as (Hy & Hm & Hd & ->).
  destruct ((1 <=? m) && (m <=? 12) && (1 <=? dd) && (dd <=? daysInMonth y m))
    eqn:Hrange; [|done].
  intros _. eexists. split; [|done].
  rewrite !andb_true_iff, !Z.leb_le in Hrange.
  unfold is_calendar_date. cbn [cd_year cd_month cd_day]. lia.
Qed.

(** X2: isValidDateString accepts exactly the texts YYYY-MM-DD of the days of
    the calendar: four, two and two digits, a month 1..12 and a day that the
    month has in that year. *)
Theorem isValidDateString_exact (s : string) :
  isValidDateString s = true ↔ ∃ d, is_calendar_date d ∧ s = date_text d.
Proof.
  split.
  - apply isValidDateString_inv.
  - intros (d & Hcal & ->). by apply isValidDateString_date_text.
Qed.

(** ** The count of days *)

Lemma parseISO_inv s d :
  parseISO s = Some d → is_calendar_date d ∧ s = date_text d.
Proof.
  unfold parseISO.
  destruct (matchDatePattern s) as [[[y m] dd]|] eqn:E; [|done].
  apply matchDatePattern_inv in E as (Hy & Hm & Hd & ->).
  destruct ((1 <=? m) && (m <=? 12) && (1 <=? dd) && (dd <=? daysInMonth y m))
    eqn:Hrange; [|done].
  intros [= <-]. split; [|done].
  rewrite !andb_true_iff, !Z.leb_le in Hrange.
  unfold is_calendar_date. cbn [cd_year cd_month cd_day]. lia.
Qed.

Lemma daysInMonth_ge_28 y m : 28 ≤ daysInMonth y m.
Proof.
  unfold daysInMonth.
  repeat match goal with
         | |- context [match ?x with _ => _ end] => destruct x
         end; lia.
Qed.

Lemma daysBeforeYear_succ y :
  0 ≤ y →
  daysBeforeYear (y + 1) = daysBeforeYear y + (if isLeapYear y then 366 else 365).
Proof.
  intros Hy. unfold daysBeforeYear, isLeapYear.
  destruct (Z.eqb_spec (y mod 400) 0), (Z.eqb_spec (y mod 4) 0),
    (Z.eqb_spec (y mod 100) 0); cbn [orb andb negb];
    Z.div_mod_to_equations; lia.
Qed.

Lemma daysBeforeYear_mono y1 y2 :
  0 ≤ y1 ≤ y2 → daysBeforeYear y1 ≤ daysBeforeYear y2.
Proof. intros Hy. unfold daysBeforeYear. Z.div_mod_to_equations. lia. Qed.

Lemma daysBeforeMonth_succ y m :
  1 ≤ m → daysBeforeMonth y (m + 1) = daysBeforeMonth y m + daysInMonth y m.
Proof.
  intros Hm. unfold daysBeforeMonth.
  replace (Z.to_nat (m + 1 - 1)) with (S (Z.to_nat (m - 1))) by lia.
  cbn [daysBeforeMonth_go]. do 2 f_equal. lia.
Qed.

Lemma daysBeforeMonth_nonneg y m : 0 ≤ daysBeforeMonth y m.
Proof.
  unfold daysBeforeMonth. induction (Z.to_nat (m - 1)) as [|k IH]; [done|].
  cbn [daysBeforeMonth_go]. pose proof (daysInMonth_ge_28 y (Z.of_nat (S k))). lia.
Qed.

Lemma daysBeforeMonth_mono y m1 m2 :
  1 ≤ m1 ≤ m2 → daysBeforeMonth y m1 ≤ daysBeforeMonth y m2.
Proof.
  intros Hm. replace m2 with (m1 + Z.of_nat (Z.to_nat (m2 - m1))) by lia.
  induction (Z.to_nat (m2 - m1)) as [|k IH]; [cbn; rewrite Z.add_0_r; lia|].
  replace (m1 + Z.of_nat (S k)) with (m1 + Z.of_nat k + 1) by lia.
  rewrite daysBeforeMonth_succ by lia.
  pose proof (daysInMonth_ge_28 y (m1 + Z.of_nat k)). lia.
Qed.

Lemma daysBeforeMonth_13 y :
  daysBeforeMonth y 13 = if isLeapYear y then 366 else 365.
Proof.
  unfold daysBeforeMonth. change (Z.to_nat (13 - 1)) with 12%nat.
  cbn [daysBeforeMonth_go]. unfold daysInMonth. cbn -[isLeapYear].
  destruct (isLeapYear y); reflexivity.
Qed.

Lemma dayNumber_lt d1 d2 :
  is_calendar_date d1 → is_calendar_date d2 → date_before d1 d2 →
  dayNumber d1 < dayNumber d2.
Proof.
  intros (Hy1 & Hm1 & Hd1) (Hy2 & Hm2 & Hd2) Hbefore. unfold dayNumber.
  destruct d1 as [y1 m1 dd1], d2 as [y2 m2 dd2].
  unfold date_before in Hbefore. cbn [cd_year cd_month cd_day] in *.
  destruct Hbefore as [Hy|[-> [Hm|[-> Hd]]]]; [| |lia].
  - pose proof (daysBeforeMonth_succ y1 m1).
    pose proof (daysBeforeMonth_mono y1 (m1 + 1) 13).
    pose proof (daysBeforeMonth_13 y1).
    pose proof (daysBeforeYear_succ y1).
    pose proof (daysBeforeYear_mono (y1 + 1) y2).
    pose proof (daysBeforeMonth_nonneg y2 m2).
    destruct (isLeapYear y1); lia.
  - pose proof (daysBeforeMonth_succ y2 m1).
    pose proof (daysBeforeMonth_mono y2 (m1 + 1) m2). lia.
Qed.

Lemma date_before_total d1 d2 :
  date_before d1 d2 ∨ d1 = d2 ∨ date_before d2 d1.
Proof.
  destruct d1 as [y1 m1 dd1], d2 as [y2 m2 dd2]. unfold date_before.
  cbn [cd_year cd_month cd_day].
  destruct (Z.lt_total y1 y2) as [?|[->|?]]; [lia| |lia].
  destruct (Z.lt_total m1 m2) as [?|[->|?]]; [lia| |lia].
  destruct (Z.lt_total dd1 dd2) as [?|[->|?]]; [lia| |lia].
  right. by left.
Qed.

Lemma dayNumber_lt_iff d1 d2 :
  is_calendar_date d1 → is_calendar_date d2 →
  dayNumber d1 < dayNumber d2 ↔ date_before d1 d2.
Proof.
  intros H1 H2. split; [|by apply dayNumber_lt].
  intros Hlt. destruct (date_before_total d1 d2) as [?|[->|Hafter]]; [done|lia|].
  apply dayNumber_lt in Hafter; [lia|done..].
Qed.

(** X3: for the text YYYY-MM-DD of a day of the calendar, isFuture is true
    exactly when that day comes after today; for today's own date and for a
    past day it is false. *)
Theorem isFuture_exact (today d : CivilDate) :
  is_calendar_date today → is_calendar_date d →
  isFuture today (date_text d) = true ↔ date_before today d.
Proof.
  intros Htoday Hd. rewrite isFuture_date_text by done.
  rewrite bool_decide_eq_true. by apply dayNumber_lt_iff.
Qed.

Lemma isFuture_exact_witness :
  (isFuture today_2024_06_15 "2024-07-01" = true ↔
   date_before today_2024_06_15
     {| cd_year := 2024; cd_month := 7; cd_day := 1 |}) ∧
  (isFuture today_2024_06_15 "2024-06-15" = true ↔
   date_before today_2024_06_15 today_2024_06_15).
Proof.
  split.
  - apply (isFuture_exact today_2024_06_15
             {| cd_year := 2024; cd_month := 7; cd_day := 1 |});
      vm_compute; intuition discriminate.
  - apply (isFuture_exact today_2024_06_15 today_2024_06_15);
      vm_compute; intuition discriminate.
Defined.

Lemma next_day_calendar d :
  is_calendar_date d → cd_year d < 9999 → is_calendar_date (next_day d).
Proof.
  intros (Hy & Hm & Hd) Hlast. unfold next_day, is_calendar_date.
  destruct (Z.ltb_spec (cd_day d) (daysInMonth (cd_year d) (cd_month d)));
    [|destruct (Z.ltb_spec (cd_month d) 12)]; cbn [cd_year cd_month cd_day].
  - lia.
  - pose proof (daysInMonth_ge_28 (cd_year d) (cd_month d + 1)). lia.
  - pose proof (daysInMonth_ge_28 (cd_year d + 1) 1). lia.
Qed.

Lemma dayNumber_next_day d :
  is_calendar_date d → dayNumber (next_day d) = dayNumber d + 1.
Proof.
  intros (Hy & Hm & Hd). unfold next_day, dayNumber.
  destruct (Z.ltb_spec (cd_day d) (daysInMonth (cd_year d) (cd_month d)));
    [|destruct (Z.ltb_spec (cd_month d) 12)]; cbn [cd_year cd_month cd_day].
  - lia.
  - rewrite daysBeforeMonth_succ by lia. lia.
  - assert (cd_month d = 12) as Hdec by lia. rewrite Hdec in *.
    pose proof (daysBeforeMonth_succ (cd_year d) 12).
    pose proof (daysBeforeMonth_13 (cd_year d)).
    pose proof (daysBeforeYear_succ (cd_year d)).
    change (daysBeforeMonth (cd_year d + 1) 1) with 0.
    change (12 + 1) with 13 in *.
    destruct (isLeapYear (cd_year d)); lia.
Qed.

Lemma next_day_year d : cd_year d ≤ cd_year (next_day d).
Proof. unfold next_day. repeat case_match; cbn [cd_year]; lia. Qed.

Lemma next_day_calendar_upto d :
  is_calendar_date d → cd_year (next_day d) ≤ 9999 →
  is_calendar_date (next_day d).
Proof.
  intros (Hy & Hm & Hd). unfold next_day, is_calendar_date.
  destruct (Z.ltb_spec (cd_day d) (daysInMonth (cd_year d) (cd_month d)));
    [|destruct (Z.ltb_spec (cd_month d) 12)]; cbn [cd_year cd_month cd_day];
    intros Hlast.
  - lia.
  - pose proof (daysInMonth_ge_28 (cd_year d) (cd_month d + 1)). lia.
  - pose proof (daysInMonth_ge_28 (cd_year d + 1) 1). lia.
Qed.

Lemma dayNumber_iter_next_day (n : nat) d :
  is_calendar_date d → cd_year (Nat.iter n next_day d) ≤ 9999 →
  is_calendar_date (Nat.iter n next_day d) ∧
  dayNumber (Nat.iter n next_day d) = dayNumber d + Z.of_nat n.
Proof.
  intros Hcal. induction n as [|n IH]; cbn [Nat.iter nat_rect]; intros Hlast.
  - split; [done|lia].
  - pose proof (next_day_year (Nat.iter n next_day d)) as Hyear.
    destruct IH as [Hn Hnumber]; [unfold Nat.iter in *; lia|].
    split; [by apply next_day_calendar_upto|].
    rewrite dayNumber_next_day by done. unfold Nat.iter in *. lia.
Qed.

Lemma getDaysBetween_date_text a b :
  is_calendar_date a → is_calendar_date b →
  getDaysBetween (date_text a) (date_text b) = dayNumber b - dayNumber a.
Proof.
  intros Ha Hb. unfold getDaysBetween, parseEntryDate.
  by rewrite !parseISO_date_text by done.
Qed.

Lemma next_day_reaches (n : nat) a b :
  is_calendar_date a → is_calendar_date b →
  dayNumber b = dayNumber a + Z.of_nat n → b = Nat.iter n next_day a.
Proof.
  revert a. induction n as [|n IH]; intros a Ha Hb Hnumber.
  - cbn. destruct (date_before_total a b) as [Hlt|[->|Hlt]]; [|done|].
    + apply dayNumber_lt in Hlt; [lia|done..].
    + apply dayNumber_lt in Hlt; [lia|done..].
  - assert (date_before a b) as Hbefore by (apply dayNumber_lt_iff; [done..|lia]).
    assert (is_calendar_date (next_day a)) as Hnext.
    { apply next_day_calendar_upto; [done|].
      destruct Ha as (Hya & Hma & Hda), Hb as (Hyb & Hmb & Hdb).
      pose proof (daysInMonth_le_31 (cd_year b) (cd_month b)).
      unfold date_before in Hbefore. unfold next_day.
      destruct (Z.ltb_spec (cd_day a) (daysInMonth (cd_year a) (cd_month a)));
        [|destruct (Z.ltb_spec (cd_month a) 12)]; cbn [cd_year]; [lia..|].
      assert (cd_month a = 12) as Hdec by lia. rewrite Hdec in *.
      change (daysInMonth (cd_year a) 12) with 31 in *. lia. }
    rewrite Nat.iter_succ_r. apply IH; [done..|].
    rewrite dayNumber_next_day by done. lia.
Qed.

(** X4: getDaysBetween counts the days of the calendar between two texts
    YYYY-MM-DD: when the second day is reached from the first one by n
    steps to the next day, the result is n (0 for the same day, 1 for the
    next day); every later day of the calendar is reached by such steps;
    and exchanging the two dates changes the sign. *)
Theorem getDaysBetween_counts_days :
  (∀ a b (n : nat),
     is_calendar_date a → is_calendar_date b → b = Nat.iter n next_day a →
     getDaysBetween (date_text a) (date_text b) = Z.of_nat n) ∧
  (∀ a b, is_calendar_date a → is_calendar_date b → date_before a b →
          ∃ n : nat, (0 < n)%nat ∧ b = Nat.iter n next_day a) ∧
  (∀ a b, is_calendar_date a → is_calendar_date b →
          getDaysBetween (date_text b) (date_text a)
          = - getDaysBetween (date_text a) (date_text b)).
Proof.
  split_and!.
  - intros a b n Ha Hb ->. rewrite getDaysBetween_date_text by done.
    destruct (dayNumber_iter_next_day n a Ha) as [_ ->]; [apply Hb|lia].
  - intros a b Ha Hb Hbefore. apply dayNumber_lt in Hbefore; [|done..].
    exists (Z.to_nat (dayNumber b - dayNumber a)). split; [lia|].
    apply next_day_reaches; [done..|lia].
  - intros a b Ha Hb. rewrite !getDaysBetween_date_text by done. lia.
Qed.

Lemma getDaysBetween_counts_days_witness :
  getDaysBetween "2024-02-28" "2024-03-01" = 2 ∧
  getDaysBetween "2023-12-31" "2024-01-01" = 1 ∧
  (∃ n : nat, (0 < n)%nat ∧
     today_2024_06_15
     = Nat.iter n next_day {| cd_year := 2024; cd_month := 6; cd_day := 1 |}) ∧
  getDaysBetween "2024-06-15" "2024-06-01" = - getDaysBetween "2024-06-01" "2024-06-15".
Proof.
  destruct getDaysBetween_counts_days as (Hcount & Hreach & Hsign).
  split_and!.
  - apply (Hcount {| cd_year := 2024; cd_month := 2; cd_day := 28 |}
                  {| cd_year := 2024; cd_month := 3; cd_day := 1 |} 2%nat);
      [vm_compute; intuition discriminate..|reflexivity].
  - apply (Hcount {| cd_year := 2023; cd_month := 12; cd_day := 31 |}
                  {| cd_year := 2024; cd_month := 1; cd_day := 1 |} 1%nat);
      [vm_compute; intuition discriminate..|reflexivity].
  - apply (Hreach {| cd_year := 2024; cd_month := 6; cd_day := 1 |}
                  today_2024_06_15); vm_compute; intuition discriminate.
  - apply (Hsign {| cd_year := 2024; cd_month := 6; cd_day := 1 |}
                 today_2024_06_15); vm_compute; intuition discriminate.
Defined.

(** X5: for today's own date string getRelativeTime returns "Today", for the
    text YYYY-MM-DD of the next day "Tomorrow", and for the text of a day
    further ahead "In N days" with N the number of days from today to it. *)
Theorem getRelativeTime_today_and_after (today : CivilDate) :
  is_calendar_date today → 1 ≤ cd_year today < 9999 →
  getRelativeTime today (getTodayDateString today) = "Today" ∧
  getRelativeTime today (date_text (next_day today)) = "Tomorrow" ∧
  (∀ date, is_calendar_date date → date_before (next_day today) date →
           getRelativeTime today (date_text date)
           = "In " +:+ pretty (dayNumber date - dayNumber today) +:+ " days").
Proof.
  intros Hcal Hyear. split_and!.
  - unfold getTodayDateString.
    destruct Hcal as (Hy & Hm & Hd).
    pose proof (daysInMonth_le_31 (cd_year today) (cd_month today)).
    rewrite getDateString_date_text by lia.
    assert (is_calendar_date today) as Hcal by done.
    unfold getRelativeTime, parseEntryDate. rewrite parseISO_date_text by done.
    unfold differenceInDays. by rewrite Z.sub_diag.
  - unfold getRelativeTime, parseEntryDate.
    rewrite parseISO_date_text by (apply next_day_calendar; [done|lia]).
    unfold differenceInDays. rewrite dayNumber_next_day by done.
    by replace (dayNumber today - (dayNumber today + 1)) with (-1) by lia.
  - intros date Hdate Hafter.
    apply dayNumber_lt in Hafter;
      [|apply next_day_calendar; [done|lia]|done].
    rewrite dayNumber_next_day in Hafter by done.
    unfold getRelativeTime, parseEntryDate. rewrite parseISO_date_text by done.
    unfold differenceInDays.
    repeat branch; try lia; do 2 f_equal; f_equal; lia.
Qed.

Lemma getRelativeTime_today_and_after_witness :
  getRelativeTime today_2024_06_15 (getTodayDateString today_2024_06_15) = "Today" ∧
  getRelativeTime today_2024_06_15 (date_text (next_day today_2024_06_15))
  = "Tomorrow" ∧
  (∀ date, is_calendar_date date → date_before (next_day today_2024_06_15) date →
           getRelativeTime today_2024_06_15 (date_text date)
           = "In " +:+ pretty (dayNumber date - dayNumber today_2024_06_15)
             +:+ " days").
Proof.
  apply (getRelativeTime_today_and_after today_2024_06_15);
    vm_compute; intuition discriminate.
Defined.

(** ** The order of date strings *)

Lemma ascii_compare_digitChar a b :
  0 ≤ a ≤ 9 → 0 ≤ b ≤ 9 → Ascii.compare (digitChar a) (digitChar b) = (a ?= b).
Proof.
  intros Ha Hb.
  assert (a = 0 ∨ a = 1 ∨ a = 2 ∨ a = 3 ∨ a = 4 ∨ a = 5 ∨ a = 6 ∨ a = 7 ∨
          a = 8 ∨ a = 9) as Hca by lia.
  assert (b = 0 ∨ b = 1 ∨ b = 2 ∨ b = 3 ∨ b = 4 ∨ b = 5 ∨ b = 6 ∨ b = 7 ∨
          b = 8 ∨ b = 9) as Hcb by lia.
  repeat (destruct Hca as [->|Hca]); try subst a;
    repeat (destruct Hcb as [->|Hcb]); try subst b; reflexivity.
Qed.

(** The texts YYYY-MM-DD are ordered, as strings, like the days they denote. *)
Lemma date_text_le d1 d2 :
  is_calendar_date d1 → is_calendar_date d2 →
  String.le (date_text d1) (date_text d2) ↔ ¬ date_before d2 d1.
Proof.
  intros (Hy1 & Hm1 & Hd1) (Hy2 & Hm2 & Hd2).
  pose proof (daysInMonth_le_31 (cd_year d1) (cd_month d1)).
  pose proof (daysInMonth_le_31 (cd_year d2) (cd_month d2)).
  destruct d1 as [y1 m1 dd1], d2 as [y2 m2 dd2].
  unfold String.le, String.leb, date_text, date_before.
  cbn [cd_year cd_month cd_day String.compare] in *.
  change (Ascii.compare "-" "-") with Eq.
  rewrite !ascii_compare_digitChar by (Z.div_mod_to_equations; lia).
  repeat match goal with
         | |- context [?a ?= ?b] => destruct (Z.compare_spec a b)
         end; cbn;
    first [ split; [intros _|done] | split; [done|intros Hno; apply Hno] ];
    Z.div_mod_to_equations; lia.
Qed.

(** ** Sorting *)

Lemma sort_insert_Permutation {A} (cmp : A → A → Z) x l :
  sort_insert cmp x l ≡ₚ x :: l.
Proof.
  induction l as [|y l IH]; [done|]. cbn.
  destruct (0 <? cmp x y); [|done]. rewrite IH. apply Permutation_swap.
Qed.

Lemma js_sort_Permutation {A} (cmp : A → A → Z) l : js_sort cmp l ≡ₚ l.
Proof.
  induction l as [|x l IH]; [done|]. cbn.
  by rewrite sort_insert_Permutation, IH.
Qed.

Lemma sort_insert_Sorted {A} (cmp : A → A → Z) x l :
  (∀ a b, 0 < cmp a b → cmp b a ≤ 0) →
  Sorted (λ a b, cmp a b ≤ 0) l →
  Sorted (λ a b, cmp a b ≤ 0) (sort_insert cmp x l).
Proof.
  intros Hanti. induction 1 as [|y l Hl IH Hhd]; cbn.
  - by repeat constructor.
  - destruct (Z.ltb_spec 0 (cmp x y)) as [Hgt|Hle].
    + constructor; [done|].
      destruct Hhd as [|z l Hyz]; cbn.
      * constructor. by apply Hanti.
      * destruct (0 <? cmp x z); constructor; [done|by apply Hanti].
    + repeat constructor; done.
Qed.

Lemma js_sort_Sorted {A} (cmp : A → A → Z) l :
  (∀ a b, 0 < cmp a b → cmp b a ≤ 0) →
  Sorted (λ a b, cmp a b ≤ 0) (js_sort cmp l).
Proof.
  intros Hanti. induction l as [|x l IH]; cbn; [constructor|].
  by apply sort_insert_Sorted.
Qed.

Lemma localeCompare_le a b : localeCompare a b ≤ 0 ↔ String.le a b.
Proof.
  unfold localeCompare, String.le, String.leb.
  destruct (String.compare a b); cbn; split; (done || lia).
Qed.

Lemma localeCompare_antisym a b :
  0 < localeCompare a b → localeCompare b a ≤ 0.
Proof.
  unfold localeCompare. rewrite (String.compare_antisym a b).
  destruct (String.compare b a); cbn; lia.
Qed.

Lemma Sorted_weaken {A} (R1 R2 : relation A) l :
  (∀ a b, R1 a b → R2 a b) → Sorted R1 l → Sorted R2 l.
Proof.
  intros Himpl. induction 1 as [|x l Hl IH Hhd]; constructor; [done|].
  destruct Hhd; constructor. by apply Himpl.
Qed.

Lemma sort_newest_first_Sorted l :
  Sorted (flip entry_date_le) (EntryStore.sort_newest_first l).
Proof.
  unfold EntryStore.sort_newest_first.
  eapply Sorted_weaken; [|apply js_sort_Sorted].
  - intros a b Hle. by apply localeCompare_le in Hle.
  - intros a b. apply localeCompare_antisym.
Qed.

#[local] Instance entry_date_le_trans : Transitive entry_date_le.
Proof. intros a b c. unfold entry_date_le. apply transitivity. Qed.

#[local] Instance entry_date_le_total : Total entry_date_le.
Proof. intros a b. unfold entry_date_le. apply total, _. Qed.

Lemma StronglySorted_lookup {A} (R : relation A) l i j a b :
  StronglySorted R l → (i < j)%nat → l !! i = Some a → l !! j = Some b → R a b.
Proof.
  intros Hsorted Hij Hi Hj. rewrite <- (take_drop j l) in Hsorted.
  eapply StronglySorted_app_1_elem_of; [done| |].
  - apply list_elem_of_lookup. exists i. by rewrite lookup_take_lt.
  - apply list_elem_of_lookup. exists 0%nat. by rewrite lookup_drop, Nat.add_0_r.
Qed.

Lemma by_entry_date_Sorted t : Sorted entry_date_le (by_entry_date t).
Proof. apply Sorted_merge_sort, _. Qed.

(** ** Listing *)

(** X6: with a working store getAllEntries resolves with every stored record
    exactly once, ordered by entry_date from the greatest string to the least,
    and getEntryCount resolves with the length of that list. When the dates
    are texts YYYY-MM-DD of days of the calendar, an entry listed before
    another one is of a later day. *)
Theorem getAllEntries_newest_first (w : World) :
  faults w = [] → store_ok (table w) →
  ∃ l, getAllEntries w = (Resolved l, w) ∧
       l ≡ₚ rows (table w) ∧ NoDup l ∧
       Sorted (flip entry_date_le) l ∧
       getEntryCount w = (Resolved (length l), w) ∧
       (∀ i j a b da db,
          (i < j)%nat → l !! i = Some a → l !! j = Some b →
          is_calendar_date da → entry_date a = date_text da →
          is_calendar_date db → entry_date b = date_text db →
          date_before db da).
Proof.
  intros Hf Hok. exists (reverse (by_entry_date (table w))).
  assert (reverse (by_entry_date (table w)) ≡ₚ rows (table w)) as Hperm
    by (by rewrite reverse_Permutation, by_entry_date_rows).
  assert (Sorted (flip entry_date_le) (reverse (by_entry_date (table w))))
    as Hsorted by apply Sorted_reverse, by_entry_date_Sorted.
  split_and!; [by apply getAllEntries_no_fault|done| |done| |].
  - rewrite Hperm. by apply NoDup_rows.
  - unfold getEntryCount, try_catch, table_count.
    rewrite request_read_no_fault by done. do 2 f_equal.
    rewrite Hperm. unfold rows. by rewrite length_fmap, length_map_to_list.
  - intros i j a b da db Hij Hi Hj Hda Ha Hdb Hb.
    assert (flip entry_date_le a b) as Hle.
    { eapply StronglySorted_lookup; [|done..].
      apply Sorted_StronglySorted; [|done]. intros x y z. unfold flip.
      intros ??. by etrans. }
    unfold flip, entry_date_le in Hle. rewrite Ha, Hb in Hle.
    apply date_text_le in Hle; [|done..].
    destruct (date_before_total db da) as [?|[->|?]]; [done| |done].
    exfalso. assert (a = b) as ->.
    { assert (a ∈ rows (table w)) as [ka Hka]%elem_of_rows
        by (rewrite <- Hperm; by eapply list_elem_of_lookup_2).
      assert (b ∈ rows (table w)) as [kb Hkb]%elem_of_rows
        by (rewrite <- Hperm; by eapply list_elem_of_lookup_2).
      destruct Hok as [_ Huniq].
      assert (ka = kb) as -> by (eapply Huniq; [done..|congruence]). congruence. }
    assert (NoDup (reverse (by_entry_date (table w)))) as Hnd
      by (rewrite Hperm; by apply NoDup_rows).
    pose proof (NoDup_lookup _ _ _ _ Hnd Hi Hj). lia.
Qed.

Lemma getAllEntries_newest_first_witness :
  ∃ l, getAllEntries june_world = (Resolved l, june_world) ∧
       l ≡ₚ rows (table june_world) ∧ NoDup l ∧
       Sorted (flip entry_date_le) l ∧
       getEntryCount june_world = (Resolved (length l), june_world) ∧
       (∀ i j a b da db,
          (i < j)%nat → l !! i = Some a → l !! j = Some b →
          is_calendar_date da → entry_date a = date_text da →
          is_calendar_date db → entry_date b = date_text db →
          date_before db da).
Proof.
  apply (getAllEntries_newest_first june_world);
    [reflexivity|apply store_ok_june_world].
Defined.

(** X7: with a working store whose dates are date strings (each entry_date
    a valid date string, or empty), getEntriesInRange resolves with exactly
    the stored records whose entry_date lies between the two bounds, both
    included, ordered from the greatest date string to the least; when the
    end is before the start the list is empty. *)
Theorem getEntriesInRange_spec (startDate endDate : string) (w : World) :
  faults w = [] → date_strings (table w) →
  ∃ l, getEntriesInRange startDate endDate w = (Resolved l, w) ∧
       l ≡ₚ filter (λ e, String.le startDate (entry_date e) ∧
                         String.le (entry_date e) endDate) (rows (table w)) ∧
       Sorted (flip entry_date_le) l ∧
       (¬ String.le startDate endDate → l = []).
Proof.
  intros Hf _. unfold getEntriesInRange, try_catch, bind, table_between.
  rewrite request_read_no_fault by done. unfold ret. eexists. split; [done|].
  assert (js_sort (λ a b, localeCompare (entry_date b) (entry_date a))
            (filter (λ e, String.le startDate (entry_date e) ∧
                          String.le (entry_date e) endDate)
                    (by_entry_date (table w)))
          ≡ₚ filter (λ e, String.le startDate (entry_date e) ∧
                          String.le (entry_date e) endDate) (rows (table w)))
    as Hperm by (by rewrite js_sort_Permutation, by_entry_date_rows).
  split_and!; [done|apply sort_newest_first_Sorted|].
  intros Hempty.
  assert (filter (λ e, String.le startDate (entry_date e) ∧
                       String.le (entry_date e) endDate) (rows (table w)) = [])
    as Hnil.
  { destruct (filter _ (rows (table w))) as [|e l] eqn:E; [done|].
    assert (e ∈ e :: l) as Hin by left. rewrite <- E in Hin.
    apply list_elem_of_filter in Hin as [[H1 H2] _].
    destruct Hempty. by etrans. }
  rewrite Hnil in Hperm. by apply Permutation_nil_r in Hperm.
Qed.

Lemma getEntriesInRange_spec_witness :
  ∃ l, getEntriesInRange "2024-06-02" "2024-06-30" june_world
       = (Resolved l, june_world) ∧
       l ≡ₚ filter (λ e, String.le "2024-06-02" (entry_date e) ∧
                         String.le (entry_date e) "2024-06-30")
                   (rows (table june_world)) ∧
       Sorted (flip entry_date_le) l ∧
       (¬ String.le "2024-06-02" "2024-06-30" → l = []).
Proof.
  apply (getEntriesInRange_spec "2024-06-02" "2024-06-30" june_world).
  - reflexivity.
  - apply date_strings_june_world.
Defined.

(** ** The dates of a month *)

(** X8: for a year 100..9999 and a month 1..12, getDatesInMonth lists the
    texts YYYY-MM-DD of the days 1, 2, ... of that month, one for every day
    the month has in that year (28 to 31); each of them is a valid date
    string, and they are in strictly ascending order. *)
Theorem getDatesInMonth_spec (year month : Z) :
  100 ≤ year ≤ 9999 → 1 ≤ month ≤ 12 →
  getDatesInMonth year month
  = (λ day, date_text {| cd_year := year; cd_month := month; cd_day := day |})
      <$> seqZ 1 (daysInMonth year month) ∧
  (28 ≤ length (getDatesInMonth year month) ≤ 31)%nat ∧
  Forall (λ s, isValidDateString s = true) (getDatesInMonth year month) ∧
  (∀ i j a b, (i < j)%nat →
              getDatesInMonth year month !! i = Some a →
              getDatesInMonth year month !! j = Some b →
              String.le a b ∧ a ≠ b).
Proof.
  intros Hy Hm.
  pose proof (daysInMonth_le_31 year month) as Hle.
  pose proof (daysInMonth_ge_28 year month) as Hge.
  assert (getDatesInMonth year month
          = (λ day, date_text {| cd_year := year; cd_month := month; cd_day := day |})
              <$> seqZ 1 (daysInMonth year month)) as Heq.
  { unfold getDatesInMonth. rewrite jsDateYearMonth_plain by lia.
    apply list_fmap_ext. intros i day [-> Hday]%lookup_seqZ.
    apply getDateString_date_text; cbn [cd_year cd_month cd_day]; lia. }
  assert (∀ i a, getDatesInMonth year month !! i = Some a →
            a = date_text {| cd_year := year; cd_month := month;
                             cd_day := 1 + Z.of_nat i |} ∧
            is_calendar_date {| cd_year := year; cd_month := month;
                                cd_day := 1 + Z.of_nat i |}) as Hlookup.
  { intros i a. rewrite Heq, list_lookup_fmap.
    destruct (seqZ 1 (daysInMonth year month) !! i) as [day|] eqn:E; [|done].
    apply lookup_seqZ in E as [-> Hi]. intros [= <-]. split; [done|].
    unfold is_calendar_date. cbn [cd_year cd_month cd_day]. lia. }
  split_and!;
    [done|rewrite Heq, length_fmap, length_seqZ; lia
         |rewrite Heq, length_fmap, length_seqZ; lia|..].
  - apply Forall_lookup. intros i a [-> Hcal]%Hlookup.
    by apply isValidDateString_date_text.
  - intros i j a b Hij [-> Ha]%Hlookup [-> Hb]%Hlookup. split.
    + apply date_text_le; [done..|]. unfold date_before.
      cbn [cd_year cd_month cd_day]. lia.
    + intros Heq'. apply (f_equal parseISO) in Heq'.
      rewrite !parseISO_date_text in Heq' by done.
      injection Heq' as Hd. lia.
Qed.

Lemma getDatesInMonth_spec_witness :
  getDatesInMonth 2024 2
  = (λ day, date_text {| cd_year := 2024; cd_month := 2; cd_day := day |})
      <$> seqZ 1 (daysInMonth 2024 2) ∧
  (28 ≤ length (getDatesInMonth 2024 2) ≤ 31)%nat ∧
  Forall (λ s, isValidDateString s = true) (getDatesInMonth 2024 2) ∧
  (∀ i j a b, (i < j)%nat →
              getDatesInMonth 2024 2 !! i = Some a →
              getDatesInMonth 2024 2 !! j = Some b →
              String.le a b ∧ a ≠ b).
Proof. apply (getDatesInMonth_spec 2024 2); lia. Defined.

(** X9: the Date constructor behind getDatesInMonth carries a month outside
    1..12 into the neighbouring years, and takes a year 0..99 as 1900 + year:
    month 13 of a year is January of the next one, month 0 is December of the
    year before, and the months of the year 24 are those of 1924. *)
Theorem getDatesInMonth_rollover :
  (∀ year month, ¬ (-1 ≤ year ≤ 99) →
                 getDatesInMonth year (month + 12) = getDatesInMonth (year + 1) month) ∧
  (∀ year month, ¬ (0 ≤ year ≤ 100) →
                 getDatesInMonth year (month - 12) = getDatesInMonth (year - 1) month) ∧
  (∀ year month, 0 ≤ year ≤ 99 →
                 getDatesInMonth year month = getDatesInMonth (1900 + year) month).
Proof.
  assert (∀ year, ¬ (0 ≤ year ≤ 99) → (0 <=? year) && (year <=? 99) = false)
    as Hplain.
  { intros year Hy. apply andb_false_iff. rewrite !Z.leb_gt. lia. }
  split_and!.
  - intros year month Hy. unfold getDatesInMonth, jsDateYearMonth.
    rewrite !Hplain by lia.
    replace ((month + 12 - 1) `div` 12) with ((month - 1) `div` 12 + 1)
      by (Z.div_mod_to_equations; lia).
    replace ((month + 12 - 1) `mod` 12) with ((month - 1) `mod` 12)
      by (Z.div_mod_to_equations; lia).
    by replace (year + ((month - 1) `div` 12 + 1))
      with (year + 1 + (month - 1) `div` 12) by lia.
  - intros year month Hy. unfold getDatesInMonth, jsDateYearMonth.
    rewrite !Hplain by lia.
    replace ((month - 12 - 1) `div` 12) with ((month - 1) `div` 12 - 1)
      by (Z.div_mod_to_equations; lia).
    replace ((month - 12 - 1) `mod` 12) with ((month - 1) `mod` 12)
      by (Z.div_mod_to_equations; lia).
    by replace (year + ((month - 1) `div` 12 - 1))
      with (year - 1 + (month - 1) `div` 12) by lia.
  - intros year month Hy. unfold getDatesInMonth, jsDateYearMonth.
    rewrite (Hplain (1900 + year)) by lia.
    assert ((0 <=? year) && (year <=? 99) = true) as ->; [|done].
    apply andb_true_iff. rewrite !Z.leb_le. lia.
Qed.

Lemma getDatesInMonth_rollover_witness :
  getDatesInMonth 2023 13 = getDatesInMonth 2024 1 ∧
  getDatesInMonth 2024 0 = getDatesInMonth 2023 12 ∧
  getDatesInMonth 24 6 = getDatesInMonth 1924 6.
Proof.
  destruct getDatesInMonth_rollover as (Hnext & Hprev & Hshort).
  split_and!.
  - apply (Hnext 2023 1). lia.
  - apply (Hprev 2024 12). lia.
  - apply (Hshort 24 6). lia.
Defined.

(** X10: for a day of the calendar of the years 100..9999, getCurrentMonthRange
    gives the first and the last of the dates getDatesInMonth lists for the
    month of that day, and the date string of the day lies between the two. *)
Theorem getCurrentMonthRange_spec (now : CivilDate) :
  is_calendar_date now → 100 ≤ cd_year now →
  head (getDatesInMonth (cd_year now) (cd_month now))
  = Some (range_start (getCurrentMonthRange now)) ∧
  last (getDatesInMonth (cd_year now) (cd_month now))
  = Some (range_end (getCurrentMonthRange now)) ∧
  String.le (range_start (getCurrentMonthRange now)) (getTodayDateString now) ∧
  String.le (getTodayDateString now) (range_end (getCurrentMonthRange now)).
Proof.
  intros (Hy & Hm & Hd) Hyear.
  pose proof (daysInMonth_le_31 (cd_year now) (cd_month now)) as Hle.
  pose proof (daysInMonth_ge_28 (cd_year now) (cd_month now)) as Hge.
  unfold getCurrentMonthRange, getDatesInMonth, getTodayDateString.
  rewrite jsDateYearMonth_plain by lia. cbn [range_start range_end].
  rewrite !getDateString_date_text by (cbn [cd_year cd_month cd_day]; lia).
  assert (∀ day, 1 ≤ day ≤ daysInMonth (cd_year now) (cd_month now) →
            is_calendar_date {| cd_year := cd_year now; cd_month := cd_month now;
                                cd_day := day |}) as Hcal.
  { intros day Hday. unfold is_calendar_date. cbn [cd_year cd_month cd_day]. lia. }
  split_and!.
  - replace (daysInMonth (cd_year now) (cd_month now))
      with (Z.succ (daysInMonth (cd_year now) (cd_month now) - 1)) by lia.
    rewrite seqZ_cons by lia. cbn [fmap list_fmap head].
    by rewrite getDateString_date_text by (cbn [cd_year cd_month cd_day]; lia).
  - rewrite fmap_last, last_lookup, length_seqZ.
    replace (Init.Nat.pred (Z.to_nat (daysInMonth (cd_year now) (cd_month now))))
      with (Z.to_nat (daysInMonth (cd_year now) (cd_month now) - 1)) by lia.
    rewrite (lookup_seqZ_lt _ _ _) by lia. cbn [fmap option_fmap option_map].
    rewrite getDateString_date_text by (cbn [cd_year cd_month cd_day]; lia).
    do 3 f_equal. lia.
  - apply date_text_le; [apply Hcal; lia|done|].
    unfold date_before. cbn [cd_year cd_month cd_day]. lia.
  - apply date_text_le; [done|apply Hcal; lia|].
    unfold date_before. cbn [cd_year cd_month cd_day]. lia.
Qed.

Lemma getCurrentMonthRange_spec_witness :
  head (getDatesInMonth 2024 6) = Some (range_start (getCurrentMonthRange today_2024_06_15)) ∧
  last (getDatesInMonth 2024 6) = Some (range_end (getCurrentMonthRange today_2024_06_15)) ∧
  String.le (range_start (getCurrentMonthRange today_2024_06_15))
            (getTodayDateString today_2024_06_15) ∧
  String.le (getTodayDateString today_2024_06_15)
            (range_end (getCurrentMonthRange today_2024_06_15)).
Proof.
  apply (getCurrentMonthRange_spec today_2024_06_15).
  - vm_compute. intuition discriminate.
  - vm_compute. discriminate.
Defined.

(** ** Validation, field by field *)

Lemma length_zero_empty s : String.length s = 0%nat ↔ s = "".
Proof. by destruct s. Qed.

Lemma validate_gratitude_text_nil data isUpdate :
  validate_gratitude_text data isUpdate = [] ↔
  (isUpdate = true ∧ p_gratitude_text data = None) ∨
  (∃ t, p_gratitude_text data = Some t ∧ trim t ≠ "" ∧
        (String.length t ≤ 1000)%nat).
Proof.
  assert (∀ t, (if (String.length (trim t) =? 0)%nat
                then [{| field := "gratitude_text";
                         message := "Gratitude text is required" |}]
                else if (1000 <? String.length t)%nat
                     then [{| field := "gratitude_text";
                              message := "Gratitude text must be 1000 characters or less" |}]
                     else []) = [] ↔
               trim t ≠ "" ∧ (String.length t ≤ 1000)%nat) as Hchecked.
  { intros t. rewrite <- length_zero_empty.
    destruct (Nat.eqb_spec (String.length (trim t)) 0);
      [|destruct (Nat.ltb_spec 1000 (String.length t))];
      (split; [intros ?|intros [? ?]]); first [done|lia]. }
  unfold validate_gratitude_text.
  destruct isUpdate, (p_gratitude_text data) as [t|];
    cbn [negb orb bool_decide decide_rel]; unfold default, from_option, Datatypes.id.
  - rewrite bool_decide_eq_true_2 by eauto. rewrite Hchecked. split.
    + intros [? ?]. right. by exists t.
    + intros [[_ [=]]|(t0 & [= <-] & ? & ?)]. done.
  - rewrite bool_decide_eq_false_2 by (by intros [? ?]). split; [by left|done].
  - rewrite Hchecked. split.
    + intros [? ?]. right. by exists t.
    + intros [[[=] _]|(t0 & [= <-] & ? & ?)]. done.
  - split; [done|]. by intros [[[=] _]|(? & [=] & _)].
Qed.

Lemma validate_rating_nil data isUpdate :
  validate_rating data isUpdate = [] ↔
  (isUpdate = true ∧ p_rating data = None) ∨
  (∃ r, p_rating data = Some r ∧ 1 ≤ r ≤ 7).
Proof.
  assert (∀ r, (if (r <? 1) || (7 <? r)
                then [{| field := "rating";
                         message := "Rating must be between 1 and 7" |}]
                else []) = [] ↔ 1 ≤ r ≤ 7) as Hchecked.
  { intros r. destruct (Z.ltb_spec r 1), (Z.ltb_spec 7 r); cbn [orb];
      (split; [intros ?|intros ?]); first [done|lia]. }
  unfold validate_rating.
  destruct isUpdate, (p_rating data) as [r|]; cbn [negb orb].
  - rewrite bool_decide_eq_true_2 by eauto. rewrite Hchecked. split.
    + intros ?. right. by exists r.
    + intros [[_ [=]]|(r0 & [= <-] & ?)]. done.
  - rewrite bool_decide_eq_false_2 by (by intros [? ?]). split; [by left|done].
  - rewrite Hchecked. split.
    + intros ?. right. by exists r.
    + intros [[[=] _]|(r0 & [= <-] & ?)]. done.
  - split; [done|]. by intros [[[=] _]|(? & [=] & _)].
Qed.

Lemma validate_entry_date_nil today data isUpdate :
  is_calendar_date today →
  validate_entry_date today data isUpdate = [] ↔
  isUpdate = true ∨ p_entry_date data = None ∨ p_entry_date data = Some "" ∨
  (∃ d, p_entry_date data = Some (date_text d) ∧ is_calendar_date d ∧
        ¬ date_before today d).
Proof.
  intros Htoday. unfold validate_entry_date.
  destruct (p_entry_date data) as [s|]; [|split; [by right; left|done]].
  destruct isUpdate; cbn [negb andb]; [split; [by left|done]|].
  case_bool_decide as Hempty; cbn [negb];
    [subst; split; [by right; right; left|done]|].
  destruct (isValidDateString s) eqn:Hvalid; cbn [negb].
  - apply isValidDateString_inv in Hvalid as (d & Hcal & ->).
    rewrite isFuture_date_text by done.
    case_bool_decide as Hfuture.
    + split; [done|].
      intros [?|[?|[Hs|(d' & Hd' & Hcal' & Hno)]]]; [done|done|by simplify_eq|].
      assert (parseISO (date_text d) = parseISO (date_text d')) as Hp
        by congruence.
      rewrite !parseISO_date_text in Hp by done. injection Hp as <-.
      exfalso. apply Hno. by apply dayNumber_lt_iff.
    + split; [|done]. intros _. do 3 right. exists d. split_and!; [done..|].
      intros Hbefore. apply Hfuture. by apply dayNumber_lt.
  - split; [done|].
    intros [?|[?|[Hs|(d' & Hd' & Hcal' & Hno)]]]; [done|done|by simplify_eq|].
    assert (s = date_text d') as -> by congruence.
    by rewrite isValidDateString_date_text in Hvalid.
Qed.

Lemma validateEntry_valid today data isUpdate :
  valid (validateEntry today data isUpdate) = true ↔
  validate_gratitude_text data isUpdate = [] ∧
  validate_rating data isUpdate = [] ∧
  validate_entry_date today data isUpdate = [].
Proof.
  unfold validateEntry. cbn [valid].
  destruct (validate_gratitude_text data isUpdate),
    (validate_rating data isUpdate), (validate_entry_date today data isUpdate);
    cbn; (split; [intros ?|intros (? & ? & ?)]); done.
Qed.

(** X11: for a create payload whose rating, when present, is an integer (the
    number NaN is outside the model), validateEntry accepts exactly when the
    text is present, not blank after trimming and of at most 1000 code units,
    the rating is present and in 1..7, and the entry_date is absent, empty,
    or the text YYYY-MM-DD of a day of the calendar that is not after
    today. *)
Theorem validateEntry_create_exact (today : CivilDate) (data : PartialEntry) :
  is_calendar_date today →
  valid (validateEntry today data false) = true ↔
  (∃ t, p_gratitude_text data = Some t ∧ trim t ≠ "" ∧
        (String.length t ≤ 1000)%nat) ∧
  (∃ r, p_rating data = Some r ∧ 1 ≤ r ≤ 7) ∧
  (p_entry_date data = None ∨ p_entry_date data = Some "" ∨
   ∃ d, p_entry_date data = Some (date_text d) ∧ is_calendar_date d ∧
        ¬ date_before today d).
Proof.
  intros Htoday.
  rewrite validateEntry_valid, validate_gratitude_text_nil, validate_rating_nil,
    validate_entry_date_nil by done.
  split.
  - intros ([[[=] _]|Ht] & [[[=] _]|Hr] & [[=]|Hd]). done.
  - intros (Ht & Hr & Hd). split_and!; by right.
Qed.

Lemma validateEntry_create_exact_witness :
  valid (validateEntry today_2024_06_15
           {| p_gratitude_text := Some "Tea"; p_rating := Some 5;
              p_entry_date := Some "" |} false) = true ↔
  (∃ t, Some "Tea" = Some t ∧ trim t ≠ "" ∧ (String.length t ≤ 1000)%nat) ∧
  (∃ r, Some 5 = Some r ∧ 1 ≤ r ≤ 7) ∧
  (Some "" = None ∨ Some "" = Some "" ∨
   ∃ d, Some "" = Some (date_text d) ∧ is_calendar_date d ∧
        ¬ date_before today_2024_06_15 d).
Proof.
  apply (validateEntry_create_exact today_2024_06_15
           {| p_gratitude_text := Some "Tea"; p_rating := Some 5;
              p_entry_date := Some "" |}).
  vm_compute. intuition discriminate.
Defined.

(** X12: in update mode validateEntry checks only the fields that are
    present: for a payload whose rating, when present, is an integer (the
    number NaN is outside the model), the result is valid exactly when the
    text, if present, is not blank and has at most 1000 code units, and the
    rating, if present, is in 1..7. The entry_date and the day of today play
    no part, and the empty update is valid. *)
Theorem validateEntry_update_exact (today : CivilDate) (data : PartialEntry) :
  (valid (validateEntry today data true) = true ↔
   (∀ t, p_gratitude_text data = Some t →
         trim t ≠ "" ∧ (String.length t ≤ 1000)%nat) ∧
   (∀ r, p_rating data = Some r → 1 ≤ r ≤ 7)) ∧
  valid (validateEntry today
           {| p_gratitude_text := None; p_rating := None;
              p_entry_date := p_entry_date data |} true) = true.
Proof.
  assert (∀ d, validate_entry_date today d true = []) as Hdate.
  { intros d. unfold validate_entry_date. by destruct (p_entry_date d). }
  split.
  - rewrite validateEntry_valid, validate_gratitude_text_nil,
      validate_rating_nil, Hdate. split.
    + intros ([[_ Ht]|(t & Ht & ? & ?)] & [[_ Hr]|(r & Hr & ?)] & _);
        split; intros x Hx; rewrite Hx in *; simplify_eq; done.
    + intros [Ht Hr]. split_and!; [| |done].
      * destruct (p_gratitude_text data) as [t|]; [|by left].
        right. exists t. by destruct (Ht t eq_refl).
      * destruct (p_rating data) as [r|]; [|by left].
        right. exists r. split; [done|]. by apply Hr.
  - apply validateEntry_valid. split_and!; [| |apply Hdate].
    + apply validate_gratitude_text_nil. by left.
    + apply validate_rating_nil. by left.
Qed.

(** X13: validateEntry does not stop at the first violation. For a create
    payload whose rating, when present, is an integer (the number NaN is
    outside the model), the error list names gratitude_text exactly when the
    text is missing, blank or too long, and rating exactly when the rating
    is missing or outside 1..7, whatever the other fields are; the fields
    come in the order gratitude_text, rating, entry_date, each at most once,
    and the result is valid exactly when the list is empty. *)
Theorem validateEntry_collects_errors (today : CivilDate) (data : PartialEntry)
  (isUpdate : bool) :
  sublist (field <$> errors (validateEntry today data isUpdate))
          ["gratitude_text"; "rating"; "entry_date"] ∧
  (valid (validateEntry today data isUpdate) = true ↔
   errors (validateEntry today data isUpdate) = []) ∧
  ("gratitude_text" ∈ field <$> errors (validateEntry today data false) ↔
   ¬ ∃ t, p_gratitude_text data = Some t ∧ trim t ≠ "" ∧
          (String.length t ≤ 1000)%nat) ∧
  ("rating" ∈ field <$> errors (validateEntry today data false) ↔
   ¬ ∃ r, p_rating data = Some r ∧ 1 ≤ r ≤ 7).
Proof.
  assert (∀ u, (validate_gratitude_text data u = [] ∧
                field <$> validate_gratitude_text data u = []) ∨
               (validate_gratitude_text data u ≠ [] ∧
                field <$> validate_gratitude_text data u = ["gratitude_text"]))
    as Htext.
  { intros u. unfold validate_gratitude_text. repeat case_match; auto. }
  assert (∀ u, (validate_rating data u = [] ∧
                field <$> validate_rating data u = []) ∨
               (validate_rating data u ≠ [] ∧
                field <$> validate_rating data u = ["rating"])) as Hrating.
  { intros u. unfold validate_rating. repeat case_match; auto. }
  assert (∀ u, field <$> validate_entry_date today data u = [] ∨
               field <$> validate_entry_date today data u = ["entry_date"])
    as Hdate.
  { intros u. unfold validate_entry_date. repeat case_match; auto. }
  assert (∀ u, field <$> errors (validateEntry today data u)
               = (field <$> validate_gratitude_text data u) ++
                 (field <$> validate_rating data u) ++
                 (field <$> validate_entry_date today data u)) as Hfields.
  { intros u. unfold validateEntry. cbn [errors]. by rewrite !fmap_app. }
  pose proof (validate_gratitude_text_nil data false) as Htext_nil.
  pose proof (validate_rating_nil data false) as Hrating_nil.
  split_and!.
  - rewrite Hfields.
    destruct (Htext isUpdate) as [[_ ->]|[_ ->]],
      (Hrating isUpdate) as [[_ ->]|[_ ->]], (Hdate isUpdate) as [-> | ->];
      cbn [app]; repeat constructor.
  - unfold validateEntry. cbn [valid errors].
    destruct (_ ++ _); cbn; split; done.
  - rewrite Hfields.
    destruct (Htext false) as [[Hnil ->]|[Hne ->]],
      (Hrating false) as [[_ ->]|[_ ->]], (Hdate false) as [-> | ->]; cbn [app].
    all: split; [intros Hin|intros Hno].
    all: try (apply Htext_nil in Hnil as [[[=] _]|Hok]; by destruct Hno).
    all: try (repeat (apply elem_of_cons in Hin as [[=]|Hin]);
              by apply elem_of_nil in Hin).
    all: try (intros Hok; apply Hne, Htext_nil; by right).
    all: by left.
  - rewrite Hfields.
    destruct (Htext false) as [[_ ->]|[_ ->]],
      (Hrating false) as [[Hnil ->]|[Hne ->]], (Hdate false) as [-> | ->];
      cbn [app].
    all: split; [intros Hin|intros Hno].
    all: try (apply Hrating_nil in Hnil as [[[=] _]|Hok]; by destruct Hno).
    all: try (repeat (apply elem_of_cons in Hin as [[=]|Hin]);
              by apply elem_of_nil in Hin).
    all: try (intros Hok; apply Hne, Hrating_nil; by right).
    all: repeat first [by left|right].
Qed.

(** ** Trimming *)

Lemma trimEnd_idempotent s : trimEnd (trimEnd s) = trimEnd s.
Proof.
  induction s as [|c s IH]; [done|]. cbn [trimEnd].
  destruct (trimEnd s) as [|c' t] eqn:E.
  - destruct (isWhiteSpace c) eqn:Hc; [done|]. cbn. by rewrite Hc.
  - cbn [trimEnd]. cbn [trimEnd] in IH. by rewrite IH.
Qed.

Lemma trimStart_head s :
  trimStart s = "" ∨ ∃ c t, trimStart s = String c t ∧ isWhiteSpace c = false.
Proof.
  induction s as [|c s IH]; [by left|]. cbn.
  destruct (isWhiteSpace c) eqn:Hc; [done|]. right. eauto.
Qed.

Lemma trimEnd_head c s :
  trimEnd (String c s) = "" ∨ ∃ t, trimEnd (String c s) = String c t.
Proof.
  cbn [trimEnd]. destruct (trimEnd s); [destruct (isWhiteSpace c)|]; eauto.
Qed.

Lemma trim_idempotent s : trim (trim s) = trim s.
Proof.
  unfold trim.
  assert (trimStart (trimEnd (trimStart s)) = trimEnd (trimStart s)) as ->;
    [|apply trimEnd_idempotent].
  destruct (trimStart_head s) as [-> |(c & t & -> & Hc)]; [done|].
  destruct (trimEnd_head c t) as [-> |[t' ->]]; [done|]. cbn. by rewrite Hc.
Qed.

Lemma length_trimStart s : (String.length (trimStart s) ≤ String.length s)%nat.
Proof.
  induction s as [|c s IH]; [done|]. cbn [trimStart].
  destruct (isWhiteSpace c); cbn [String.length]; lia.
Qed.

Lemma length_trimEnd s : (String.length (trimEnd s) ≤ String.length s)%nat.
Proof.
  induction s as [|c s IH]; [done|]. cbn [trimEnd].
  destruct (trimEnd s); [destruct (isWhiteSpace c)|]; cbn [String.length] in *; lia.
Qed.

Lemma length_trim s : (String.length (trim s) ≤ String.length s)%nat.
Proof.
  unfold trim. pose proof (length_trimEnd (trimStart s)).
  pose proof (length_trimStart s). lia.
Qed.

(** ** What a resolved operation has done *)

Lemma createEntry_resolved today now uuid input w e w1 :
  createEntry today now uuid input w = (Resolved e, w1) →
  valid (validateEntry today (partial_of_create input) false) = true ∧
  e = {| id := uuid; entry_date := c_entry_date input;
         gratitude_text := trim (c_gratitude_text input);
         rating := c_rating input; created_at := now; updated_at := now;
         synced_at := None; deleted := None |} ∧
  table w !! uuid = None ∧
  entry_date_equals (c_entry_date input) (table w) = [] ∧
  table w1 = <[uuid := e]> (table w).
Proof.
  unfold createEntry.
  destruct (valid _) eqn:Hvalid; cbn [negb]; [|done].
  unfold bind at 1.
  destruct (getEntryByDate _ w) as [o2 w2] eqn:E2.
  apply getEntryByDate_cases in E2 as [Ht2 [->| ->]]; [|done].
  destruct (head _); [done|].
  unfold try_catch, bind.
  destruct (table_add _ w2) as [o3 w3] eqn:E3.
  apply table_add_cases in E3 as [[Ht3 [msg ->]]|(Ht3 & -> & Hfree & Hdate)].
  - by destruct (includes msg "constraint").
  - intros [= <- <-]. cbn [id entry_date] in *. rewrite Ht2 in *. done.
Qed.

Lemma updateEntry_effect today now key updates w o w1 :
  updateEntry today now key updates w = (o, w1) →
  (table w1 = table w ∧ ∃ msg, o = Rejected msg) ∨
  (valid (validateEntry today (partial_of_update updates) true) = true ∧
   ∃ e, table w !! key = Some e ∧
        o = Resolved (merge_updates e updates now) ∧
        table w1 = <[key := merge_updates e updates now]> (table w)).
Proof.
  unfold updateEntry.
  destruct (valid _) eqn:Hvalid; cbn [negb];
    [|intros [= <- <-]; left; eauto].
  unfold bind at 1.
  destruct (getEntryById _ w) as [o2 w2] eqn:E2.
  apply getEntryById_cases in E2 as [Ht2 [->| ->]];
    [|intros [= <- <-]; left; eauto].
  destruct (table w !! key) as [e|] eqn:Hkey; [|intros [= <- <-]; left; eauto].
  unfold try_catch, bind, table_update.
  destruct (request _ w2) as [o3 w3] eqn:E3.
  apply request_cases in E3 as [[Ht3 (msg & -> & _)]|[Ht3 ->]].
  - intros [= <- <-]. left. split; [congruence|eauto].
  - rewrite Ht2, Hkey in *. cbn in *. intros [= <- <-]. right.
    split; [done|]. exists e. split_and!; [done..|congruence].
Qed.

Lemma deleteEntry_effect key w o w1 :
  deleteEntry key w = (o, w1) →
  (table w1 = table w ∧ ∃ msg, o = Rejected msg) ∨
  (is_Some (table w !! key) ∧ o = Resolved tt ∧
   table w1 = delete key (table w)).
Proof.
  unfold deleteEntry, bind.
  destruct (getEntryById _ w) as [o2 w2] eqn:E2.
  apply getEntryById_cases in E2 as [Ht2 [->| ->]];
    [|intros [= <- <-]; left; eauto].
  destruct (table w !! key) as [e|] eqn:Hkey; [|intros [= <- <-]; left; eauto].
  unfold try_catch, table_delete.
  destruct (request _ w2) as [o3 w3] eqn:E3.
  apply request_cases in E3 as [[Ht3 (msg & -> & _)]|[Ht3 ->]].
  - intros [= <- <-]. left. split; [congruence|eauto].
  - cbn in *. intros [= <- <-]. right. split_and!; [eauto|done|congruence].
Qed.

Lemma head_entry_date_equals_insert t e :
  entry_date_equals (entry_date e) t = [] →
  head (entry_date_equals (entry_date e) (<[id e := e]> t)) = Some e.
Proof.
  intros Hnil.
  destruct (entry_date_equals (entry_date e) (<[id e := e]> t)) as [|x l] eqn:E.
  - assert (e ∈ entry_date_equals (entry_date e) (<[id e := e]> t)) as Hin.
    { apply elem_of_entry_date_equals. split; [|done].
      exists (id e). apply lookup_insert_eq. }
    rewrite E in Hin. by apply elem_of_nil in Hin.
  - assert (x ∈ entry_date_equals (entry_date e) (<[id e := e]> t)) as Hin
      by (rewrite E; left).
    apply elem_of_entry_date_equals in Hin as [[k Hk] Hd].
    apply lookup_insert_Some in Hk as [[_ ->]|[_ Hk]]; [done|].
    rewrite entry_date_equals_nil in Hnil. by destruct (Hnil k x).
Qed.

(** ** Creating *)

(** X14: with a working store, a valid payload whose date no stored entry has
    and an id that is not in use, createEntry resolves with the new record
    (the given date and rating, the trimmed text, both time stamps the reading
    of the clock); the record is then what getEntryByDate gives for its date
    and getEntryById for its id, the count has grown by one, the other records
    are as before and the dates of the store are still distinct. *)
Theorem createEntry_round_trip (today : CivilDate) (now : Z) (uuid : string)
  (input : CreateEntryInput) (w : World) :
  faults w = [] →
  valid (validateEntry today (partial_of_create input) false) = true →
  table w !! uuid = None →
  (∀ k e, table w !! k = Some e → entry_date e ≠ c_entry_date input) →
  ∃ w',
    let e := {| id := uuid; entry_date := c_entry_date input;
                gratitude_text := trim (c_gratitude_text input);
                rating := c_rating input; created_at := now; updated_at := now;
                synced_at := None; deleted := None |} in
    createEntry today now uuid input w = (Resolved e, w') ∧
    getEntryByDate (c_entry_date input) w' = (Resolved (Some e), w') ∧
    getEntryById uuid w' = (Resolved (Some e), w') ∧
    getEntryCount w' = (Resolved (S (size (table w))), w') ∧
    table w' = <[uuid := e]> (table w) ∧
    (store_ok (table w) → store_ok (table w')).
Proof.
  intros Hf Hvalid Hfree Hdate. apply entry_date_equals_nil in Hdate.
  set (e := {| id := uuid; entry_date := c_entry_date input;
               gratitude_text := trim (c_gratitude_text input);
               rating := c_rating input; created_at := now; updated_at := now;
               synced_at := None; deleted := None |}).
  exists {| table := <[uuid := e]> (table w); faults := [];
            constraint_message := constraint_message w |}.
  cbv zeta. fold e. split_and!.
  - unfold createEntry. rewrite Hvalid. cbn [negb]. unfold bind at 1.
    rewrite getEntryByDate_no_fault, Hdate by done. cbn [head].
    unfold try_catch, bind. fold e.
    rewrite (table_add_fresh e) by (done || by apply not_collides). done.
  - rewrite getEntryByDate_no_fault by done. cbn [table]. do 2 f_equal.
    exact (head_entry_date_equals_insert (table w) e Hdate).
  - rewrite getEntryById_no_fault by done. cbn [table].
    by rewrite lookup_insert_eq.
  - unfold getEntryCount, try_catch, table_count.
    rewrite request_read_no_fault by done. cbn [table].
    by rewrite map_size_insert_None.
  - done.
  - intros Hok. cbn [table]. by apply (store_ok_insert _ e).
Qed.

Lemma createEntry_round_trip_witness :
  ∃ w',
    let e := {| id := "id-3"; entry_date := "2024-06-03";
                gratitude_text := "Quiet";
                rating := 4; created_at := 300; updated_at := 300;
                synced_at := None; deleted := None |} in
    createEntry today_2024_06_15 300 "id-3"
      {| c_entry_date := "2024-06-03"; c_gratitude_text := " Quiet ";
         c_rating := 4 |} june_world = (Resolved e, w') ∧
    getEntryByDate "2024-06-03" w' = (Resolved (Some e), w') ∧
    getEntryById "id-3" w' = (Resolved (Some e), w') ∧
    getEntryCount w' = (Resolved (S (size (table june_world))), w') ∧
    table w' = <["id-3" := e]> (table june_world) ∧
    (store_ok (table june_world) → store_ok (table w')).
Proof.
  apply (createEntry_round_trip today_2024_06_15 300 "id-3"
           {| c_entry_date := "2024-06-03"; c_gratitude_text := " Quiet ";
              c_rating := 4 |} june_world); [reflexivity..|].
  intros k e Hk. unfold june_world in Hk. cbn [table] in Hk.
  apply lookup_insert_Some in Hk as [[_ <-]|[_ Hk]]; [done|].
  apply lookup_insert_Some in Hk as [[_ <-]|[_ Hk]]; [done|].
  by rewrite lookup_empty in Hk.
Defined.

(** X15: a createEntry that rejects has not changed the table, whatever
    requests the engine failed. An invalid payload is rejected with the
    messages of validateEntry joined by ", " before any request is made. With
    a working store, a valid payload and a free date, an id that is already a
    key of the table makes the add fail: createEntry rejects with "Failed to
    save entry", or with the duplicate-date message when the engine's message
    contains "constraint", and the world is as before. *)
Theorem createEntry_failures (today : CivilDate) (now : Z) (uuid : string)
  (input : CreateEntryInput) (w : World) :
  (∀ msg w1, createEntry today now uuid input w = (Rejected msg, w1) →
             table w1 = table w) ∧
  (valid (validateEntry today (partial_of_create input) false) = false →
   createEntry today now uuid input w
   = (Rejected (join ", " (message <$>
                  errors (validateEntry today (partial_of_create input) false))),
      w)) ∧
  (faults w = [] →
   valid (validateEntry today (partial_of_create input) false) = true →
   (∀ k e, table w !! k = Some e → entry_date e ≠ c_entry_date input) →
   is_Some (table w !! uuid) →
   createEntry today now uuid input w
   = (Rejected (if includes (constraint_message w) "constraint"
                then "An entry already exists for this date. Please edit the existing entry instead."
                else "Failed to save entry"), w)).
Proof.
  split_and!.
  - intros msg w1 [[Ht _]|(e & [=] & _)]%createEntry_cases. done.
  - intros Hinvalid. unfold createEntry. by rewrite Hinvalid.
  - intros Hf Hvalid Hdate%entry_date_equals_nil Htaken.
    unfold createEntry. rewrite Hvalid. cbn [negb]. unfold bind at 1.
    rewrite getEntryByDate_no_fault, Hdate by done. cbn [head].
    unfold try_catch, bind.
    rewrite table_add_refused by (done || by left).
    by destruct (includes (constraint_message w) "constraint").
Qed.

Lemma createEntry_failures_witness :
  createEntry today_2024_06_15 300 "id-3"
    {| c_entry_date := "2024-06-30"; c_gratitude_text := "  "; c_rating := 0 |}
    failing_world
  = (Rejected "Gratitude text is required, Rating must be between 1 and 7, Cannot create entries for future dates",
     failing_world) ∧
  createEntry today_2024_06_15 300 "id-2"
    {| c_entry_date := "2024-06-03"; c_gratitude_text := "Quiet"; c_rating := 4 |}
    june_world
  = (Rejected "Failed to save entry", june_world).
Proof.
  split.
  - apply (createEntry_failures today_2024_06_15 300 "id-3"
             {| c_entry_date := "2024-06-30"; c_gratitude_text := "  ";
                c_rating := 0 |} failing_world). reflexivity.
  - apply (createEntry_failures today_2024_06_15 300 "id-2"
             {| c_entry_date := "2024-06-03"; c_gratitude_text := "Quiet";
                c_rating := 4 |} june_world); [reflexivity..| |by eexists].
    intros k e Hk. unfold june_world in Hk. cbn [table] in Hk.
    apply lookup_insert_Some in Hk as [[_ <-]|[_ Hk]]; [done|].
    apply lookup_insert_Some in Hk as [[_ <-]|[_ Hk]]; [done|].
    by rewrite lookup_empty in Hk.
Defined.

(** ** Updating *)

(** X16: for an update in which the rating is an integer or its key is absent
    (a rating key holding undefined, and the number NaN, are outside the
    model): with a working store and a valid update of the entry stored
    under the id, updateEntry resolves with the stored record in which the
    text is the trimmed new text (or the old text when none is given), the
    rating the new rating (or the old one when the key is absent) and
    updated_at the reading of the clock; id, entry_date, created_at and the
    sync fields are kept, and only that key of the table changes. On an id
    that is not stored it rejects with "Entry not found"; an invalid update
    is rejected before any request; and an updateEntry that rejects has not
    changed the table. *)
Theorem updateEntry_outcomes (today : CivilDate) (now : Z) (key : string)
  (updates : UpdateEntryInput) (w : World) :
  (faults w = [] →
   valid (validateEntry today (partial_of_update updates) true) = true →
   ∀ e, table w !! key = Some e →
        ∃ e' w', updateEntry today now key updates w = (Resolved e', w') ∧
                 table w' = <[key := e']> (table w) ∧
                 gratitude_text e' =
                   match u_gratitude_text updates with
                   | Some text => trim text
                   | None => gratitude_text e
                   end ∧
                 rating e' = default (rating e) (u_rating updates) ∧
                 updated_at e' = now ∧
                 id e' = id e ∧ entry_date e' = entry_date e ∧
                 created_at e' = created_at e ∧
                 synced_at e' = synced_at e ∧ deleted e' = deleted e) ∧
  (faults w = [] →
   valid (validateEntry today (partial_of_update updates) true) = true →
   table w !! key = None →
   updateEntry today now key updates w = (Rejected "Entry not found", w)) ∧
  (valid (validateEntry today (partial_of_update updates) true) = false →
   updateEntry today now key updates w
   = (Rejected (join ", " (message <$>
                  errors (validateEntry today (partial_of_update updates) true))),
      w)) ∧
  (∀ msg w1, updateEntry today now key updates w = (Rejected msg, w1) →
             table w1 = table w).
Proof.
  split_and!.
  - intros Hf Hvalid e Hkey.
    eexists (merge_updates e updates now), _. split.
    { unfold updateEntry. rewrite Hvalid. cbn [negb]. unfold bind at 1.
      rewrite getEntryById_no_fault, Hkey by done.
      unfold try_catch, bind. by erewrite table_update_no_fault. }
    by split_and!.
  - intros Hf Hvalid Hkey. unfold updateEntry. rewrite Hvalid. cbn [negb].
    unfold bind. by rewrite getEntryById_no_fault, Hkey.
  - intros Hinvalid. unfold updateEntry. by rewrite Hinvalid.
  - intros msg w1 [[Ht _]|(_ & e & _ & [=] & _)]%updateEntry_effect. done.
Qed.

Lemma updateEntry_outcomes_witness :
  (∃ e' w', updateEntry today_2024_06_15 900 "id-1"
              {| u_gratitude_text := Some "  Evening sun "; u_rating := None |}
              june_world = (Resolved e', w') ∧
            table w' = <["id-1" := e']> (table june_world) ∧
            gratitude_text e' = "Evening sun" ∧
            rating e' = 7 ∧ updated_at e' = 900 ∧
            id e' = "id-1" ∧ entry_date e' = "2024-06-01" ∧
            created_at e' = 100 ∧
            synced_at e' = None ∧ deleted e' = None) ∧
  updateEntry today_2024_06_15 900 "id-9"
    {| u_gratitude_text := None; u_rating := Some 2 |} june_world
  = (Rejected "Entry not found", june_world) ∧
  updateEntry today_2024_06_15 900 "id-1"
    {| u_gratitude_text := Some " "; u_rating := Some 8 |} failing_world
  = (Rejected "Gratitude text is required, Rating must be between 1 and 7",
     failing_world).
Proof.
  destruct (updateEntry_outcomes today_2024_06_15 900 "id-1"
              {| u_gratitude_text := Some "  Evening sun "; u_rating := None |}
              june_world) as (Hmerge & _).
  destruct (updateEntry_outcomes today_2024_06_15 900 "id-9"
              {| u_gratitude_text := None; u_rating := Some 2 |} june_world)
    as (_ & Habsent & _).
  destruct (updateEntry_outcomes today_2024_06_15 900 "id-1"
              {| u_gratitude_text := Some " "; u_rating := Some 8 |}
              failing_world) as (_ & _ & Hinvalid & _).
  split_and!.
  - exact (Hmerge eq_refl eq_refl entry_june_1 eq_refl).
  - exact (Habsent eq_refl eq_refl eq_refl).
  - exact (Hinvalid eq_refl).
Defined.

(** ** The records of the store *)

Lemma validate_entry_date_accepts today data :
  validate_entry_date today data false = [] →
  ∀ s, p_entry_date data = Some s → s = "" ∨ isValidDateString s = true.
Proof.
  unfold validate_entry_date. intros Hnil s Hs. rewrite Hs in Hnil.
  cbn [negb andb] in Hnil. case_bool_decide; [by left|]. cbn [negb] in Hnil.
  destruct (isValidDateString s); [by right|done].
Qed.

Lemma created_record_ok today now uuid input :
  valid (validateEntry today (partial_of_create input) false) = true →
  record_ok {| id := uuid; entry_date := c_entry_date input;
               gratitude_text := trim (c_gratitude_text input);
               rating := c_rating input; created_at := now; updated_at := now;
               synced_at := None; deleted := None |}.
Proof.
  intros (Htext & Hrating & Hdate)%validateEntry_valid.
  apply validate_gratitude_text_nil in Htext as [[[=] _]|(t & [= <-] & Ht & Hlen)].
  apply validate_rating_nil in Hrating as [[[=] _]|(r & [= <-] & Hr)].
  unfold record_ok. cbn [gratitude_text rating entry_date]. split_and!.
  - done.
  - apply trim_idempotent.
  - pose proof (length_trim (c_gratitude_text input)). lia.
  - lia.
  - lia.
  - by eapply validate_entry_date_accepts.
Qed.

Lemma updated_record_ok today now updates e :
  valid (validateEntry today (partial_of_update updates) true) = true →
  record_ok e → record_ok (merge_updates e updates now).
Proof.
  intros (Htext & Hrating & _)%validateEntry_valid (Hne & Htrim & Hlen & Hr & Hd).
  apply validate_gratitude_text_nil in Htext.
  apply validate_rating_nil in Hrating.
  unfold record_ok. cbn [merge_updates gratitude_text rating entry_date].
  cbn [partial_of_update p_gratitude_text p_rating] in *.
  assert (1 ≤ default (rating e) (u_rating updates) ≤ 7) as Hr'.
  { destruct Hrating as [[_ ->]|(r & -> & ?)]; done. }
  destruct Htext as [[_ ->]|(t & -> & Ht & Hlen')].
  - split_and!; (done || lia).
  - pose proof (length_trim t).
    split_and!; [done|apply trim_idempotent|lia|lia|lia|done].
Qed.

(** X17: the gateway keeps the records well formed under payloads whose
    ratings are integers (in an update the rating key may be absent; a
    rating key holding undefined, and the number NaN, are outside the
    model): when every record of the store has a text that is trimmed, not
    empty and of at most 1000 code units, a rating in 1..7 and an entry_date
    that is empty or a valid date string, this is still so after any
    sequence of such create, update and delete operations, whatever requests
    the engine fails. *)
Theorem records_stay_well_formed (ops : list Operation) (w : World) :
  (∀ k e, table w !! k = Some e → record_ok e) →
  ∀ k e, table (run_operations ops w) !! k = Some e → record_ok e.
Proof.
  revert w. induction ops as [|op ops IH]; intros w Hinv; [done|].
  cbn [run_operations foldl]. apply IH.
  destruct op as [today now uuid input|today now key updates|key];
    cbn [run_operation].
  - destruct (createEntry today now uuid input w) as [[e|msg] w1] eqn:E;
      cbn [snd].
    + apply createEntry_resolved in E as (Hvalid & -> & _ & _ & ->).
      intros k e [[_ <-]|[_ Hk]]%lookup_insert_Some; [|by eapply Hinv].
      by eapply created_record_ok.
    + apply createEntry_cases in E as [[-> _]|(e & [=] & _)]. done.
  - destruct (updateEntry today now key updates w) as [o w1] eqn:E. cbn [snd].
    apply updateEntry_effect in E as [[-> _]|(Hvalid & e & Hkey & _ & ->)];
      [done|].
    intros k e' [[_ <-]|[_ Hk]]%lookup_insert_Some; [|by eapply Hinv].
    eapply updated_record_ok; [done|]. by eapply Hinv.
  - destruct (deleteEntry key w) as [o w1] eqn:E. cbn [snd].
    apply deleteEntry_cases in E as [-> | ->]; [done|].
    intros k e [_ Hk]%lookup_delete_Some. by eapply Hinv.
Qed.

Lemma records_stay_well_formed_witness :
  Forall record_ok (rows (table (run_operations example_operations empty_world))).
Proof.
  apply Forall_forall. intros e [k Hk]%elem_of_rows.
  apply (records_stay_well_formed example_operations empty_world) with k;
    [|done].
  intros k' e' Hk'. unfold empty_world in Hk'. cbn [table] in Hk'.
  by rewrite lookup_empty in Hk'.
Defined.

(** ** The random entry *)

Lemma random_index_in_range (random : Q) (n : nat) :
  (0 <= random)%Q → (random < 1)%Q → (0 < n)%nat →
  0 ≤ Qfloor (random * inject_Z (Z.of_nat n)) < Z.of_nat n.
Proof.
  intros H0 H1 Hn.
  assert (0 < inject_Z (Z.of_nat n))%Q as Hpos
    by (change 0%Q with (inject_Z 0); rewrite <- Zlt_Qlt; lia).
  split.
  - change 0 with (Qfloor 0). apply Qfloor_resp_le.
    apply Qmult_le_0_compat; [done|]. by apply Qlt_le_weak.
  - rewrite Zlt_Qlt. eapply Qle_lt_trans; [apply Qfloor_le|].
    rewrite <- (Qmult_1_l (inject_Z (Z.of_nat n))) at 2.
    by apply Qmult_lt_compat_r.
Qed.

(** X18: getRandomEntry never rejects and never changes the table; an entry
    it gives is a record of the store whose entry_date is not today's. With a
    working store and a reading 0 <= random < 1 it gives an entry exactly
    when the store holds one of another day. *)
Theorem getRandomEntry_spec (today : CivilDate) (random : Q) (w : World) :
  (∃ r w', getRandomEntry today random w = (Resolved r, w') ∧
           table w' = table w ∧
           ∀ e, r = Some e →
                (∃ k, table w !! k = Some e) ∧
                entry_date e ≠ getTodayDateString today) ∧
  (faults w = [] → (0 <= random)%Q → (random < 1)%Q →
   (∃ e, (getRandomEntry today random w).1 = Resolved (Some e)) ↔
   (∃ k e, table w !! k = Some e ∧ entry_date e ≠ getTodayDateString today)).
Proof.
  assert (∀ l : list Entry,
            l = filter (λ e, entry_date e ≠ getTodayDateString today)
                       (by_entry_date (table w)) →
            ∀ i e, l !! i = Some e →
                   (∃ k, table w !! k = Some e) ∧
                   entry_date e ≠ getTodayDateString today) as Hmem.
  { intros l -> i e Hi%list_elem_of_lookup_2.
    apply list_elem_of_filter in Hi as [Hd Hin].
    rewrite by_entry_date_rows, elem_of_rows in Hin. done. }
  split.
  - unfold getRandomEntry, try_catch, bind, table_not_equal.
    destruct (request _ w) as [o1 w1] eqn:E1.
    apply request_cases in E1 as [[Ht (msg & -> & _)]|[Ht ->]]; cbn [fst snd] in *.
    + exists None, w1. by split_and!.
    + destruct (length _ =? 0)%nat; [exists None, w1; by split_and!|].
      unfold ret. eexists _, w1. split_and!; [done..|].
      intros e. destruct (_ <? 0); [done|]. intros He. by eapply Hmem.
  - intros Hf H0 H1. unfold getRandomEntry, try_catch, bind, table_not_equal.
    rewrite request_read_no_fault by done.
    set (l := filter (λ e, entry_date e ≠ getTodayDateString today)
                     (by_entry_date (table w))).
    destruct (Nat.eqb_spec (length l) 0) as [Hlen|Hlen]; cbn [fst ret].
    + split; [by intros [e [=]]|]. intros (k & e & Hk & Hd).
      assert (e ∈ l) as Hin.
      { apply list_elem_of_filter. split; [done|].
        rewrite by_entry_date_rows, elem_of_rows. eauto. }
      destruct l; [by apply elem_of_nil in Hin|done].
    + pose proof (random_index_in_range random (length l) H0 H1) as Hidx.
      unfold ret. cbn [fst].
      destruct (Z.ltb_spec (Qfloor (random * inject_Z (Z.of_nat (length l)))) 0);
        [lia|].
      destruct (l !! Z.to_nat (Qfloor (random * inject_Z (Z.of_nat (length l)))))
        as [e|] eqn:He.
      * split; [intros _|eauto].
        destruct (Hmem l eq_refl _ e He) as [[k Hk] Hd]. eauto.
      * apply lookup_ge_None in He. lia.
Qed.

Lemma getRandomEntry_spec_witness :
  (∃ e, (getRandomEntry today_2024_06_15 (1 # 2) june_world).1
        = Resolved (Some e)) ↔
  (∃ k e, table june_world !! k = Some e ∧
          entry_date e ≠ getTodayDateString today_2024_06_15).
Proof.
  apply (getRandomEntry_spec today_2024_06_15 (1 # 2) june_world);
    [reflexivity|discriminate|reflexivity].
Defined.

(** ** The entry of today *)

Lemma createEntry_fresh today now uuid input w :
  faults w = [] →
  valid (validateEntry today (partial_of_create input) false) = true →
  table w !! uuid = None →
  entry_date_equals (c_entry_date input) (table w) = [] →
  createEntry today now uuid input w
  = (Resolved {| id := uuid; entry_date := c_entry_date input;
                 gratitude_text := trim (c_gratitude_text input);
                 rating := c_rating input; created_at := now; updated_at := now;
                 synced_at := None; deleted := None |},
     {| table := <[uuid := {| id := uuid; entry_date := c_entry_date input;
                              gratitude_text := trim (c_gratitude_text input);
                              rating := c_rating input; created_at := now;
                              updated_at := now;
                              synced_at := None; deleted := None |}]> (table w);
        faults := []; constraint_message := constraint_message w |}).
Proof.
  intros Hf Hvalid Hfree Hdate.
  unfold createEntry. rewrite Hvalid. cbn [negb]. unfold bind at 1.
  rewrite getEntryByDate_no_fault, Hdate by done. cbn [head].
  unfold try_catch, bind.
  by rewrite table_add_fresh by (done || by apply not_collides).
Qed.

Lemma createEntry_taken_date today now uuid input w e :
  faults w = [] →
  valid (validateEntry today (partial_of_create input) false) = true →
  head (entry_date_equals (c_entry_date input) (table w)) = Some e →
  createEntry today now uuid input w
  = (Rejected (duplicate_date_message (c_entry_date input)), w).
Proof.
  intros Hf Hvalid Hhead.
  unfold createEntry. rewrite Hvalid. cbn [negb]. unfold bind.
  by rewrite getEntryByDate_no_fault, Hhead.
Qed.

Lemma today_payload_valid today text r :
  is_calendar_date today → 1 ≤ cd_year today →
  trim text ≠ "" → (String.length text ≤ 1000)%nat → 1 ≤ r ≤ 7 →
  valid (validateEntry today
           (partial_of_create
              {| c_entry_date := getTodayDateString today;
                 c_gratitude_text := text; c_rating := r |}) false) = true.
Proof.
  intros Hcal Hyear Htext Hlen Hr. apply validateEntry_valid. split_and!.
  - apply validate_gratitude_text_nil. right. by exists text.
  - apply validate_rating_nil. right. by exists r.
  - apply validate_entry_date_nil; [done|]. do 3 right. exists today.
    cbn [partial_of_create p_entry_date c_entry_date]. unfold getTodayDateString.
    pose proof Hcal as (Hy & Hm & Hd).
    pose proof (daysInMonth_le_31 (cd_year today) (cd_month today)).
    rewrite getDateString_date_text by lia. split_and!; [done..|].
    unfold date_before. lia.
Qed.

(** X19: the daily flow. For a day of the calendar of the years 1..9999, a
    working store without an entry for today, a text that is not blank and of
    at most 1000 code units, a rating in 1..7 and an id not in use,
    createTodayEntry resolves with an entry dated today; getTodayEntry then
    gives that entry, and a second createTodayEntry on the same day rejects
    with the duplicate-date message and changes nothing. *)
Theorem createTodayEntry_flow (today : CivilDate) (now : Z) (uuid : string)
  (text : string) (r : Z) (w : World) :
  is_calendar_date today → 1 ≤ cd_year today →
  faults w = [] →
  trim text ≠ "" → (String.length text ≤ 1000)%nat → 1 ≤ r ≤ 7 →
  table w !! uuid = None →
  getTodayEntry today w = (Resolved None, w) →
  ∃ e w',
    createTodayEntry today now uuid text r w = (Resolved e, w') ∧
    entry_date e = getTodayDateString today ∧
    gratitude_text e = trim text ∧ rating e = r ∧
    getTodayEntry today w' = (Resolved (Some e), w') ∧
    ∀ now' uuid',
      createTodayEntry today now' uuid' text r w'
      = (Rejected (duplicate_date_message (getTodayDateString today)), w').
Proof.
  intros Hcal Hyear Hf Htext Hlen Hr Hfree Hnone.
  pose proof (today_payload_valid today text r Hcal Hyear Htext Hlen Hr) as Hvalid.
  assert (entry_date_equals (getTodayDateString today) (table w) = []) as Hdate.
  { unfold getTodayEntry, try_catch, table_first_by_date in Hnone.
    rewrite request_read_no_fault in Hnone by done.
    injection Hnone as Hhead. by destruct (entry_date_equals _ _). }
  eexists _, _. split_and!.
  - unfold createTodayEntry. by apply createEntry_fresh.
  - done.
  - done.
  - done.
  - unfold getTodayEntry, try_catch, table_first_by_date.
    rewrite request_read_no_fault by done. cbn [table]. do 2 f_equal.
    exact (head_entry_date_equals_insert (table w)
             {| id := uuid; entry_date := getTodayDateString today;
                gratitude_text := trim text; rating := r; created_at := now;
                updated_at := now; synced_at := None; deleted := None |} Hdate).
  - intros now' uuid'. unfold createTodayEntry.
    eapply createEntry_taken_date; [done..|]. cbn [table c_entry_date].
    exact (head_entry_date_equals_insert (table w)
             {| id := uuid; entry_date := getTodayDateString today;
                gratitude_text := trim text; rating := r; created_at := now;
                updated_at := now; synced_at := None; deleted := None |} Hdate).
Qed.

Lemma createTodayEntry_flow_witness :
  ∃ e w',
    createTodayEntry today_2024_06_15 300 "id-3" " Tea " 5 june_world
    = (Resolved e, w') ∧
    entry_date e = getTodayDateString today_2024_06_15 ∧
    gratitude_text e = trim " Tea " ∧ rating e = 5 ∧
    getTodayEntry today_2024_06_15 w' = (Resolved (Some e), w') ∧
    ∀ now' uuid',
      createTodayEntry today_2024_06_15 now' uuid' " Tea " 5 w'
      = (Rejected (duplicate_date_message (getTodayDateString today_2024_06_15)),
         w').
Proof.
  apply (createTodayEntry_flow today_2024_06_15 300 "id-3" " Tea " 5 june_world);
    try reflexivity.
  - vm_compute. intuition discriminate.
  - vm_compute. discriminate.
  - vm_compute. discriminate.
  - vm_compute. lia.
  - lia.
Defined.

(** ** Import and export, whatever the input and the engine do *)

Lemma import_entries_any (items : list Json) :
  ∀ (n : nat) (w : World),
    ∃ m w',
      import_entries items n w = (Resolved (n + m)%nat, w') ∧
      (m ≤ length items)%nat ∧
      table w ⊆ table w' ∧
      size (table w') = (size (table w) + m)%nat ∧
      (store_ok (table w) → store_ok (table w')).
Proof.
  induction items as [|item items IH]; intros n w.
  - exists 0%nat, w. cbn. rewrite !Nat.add_0_r. by split_and!.
  - cbn [import_entries]. unfold bind at 1.
    destruct (entry_of_json item) as [entry|].
    + unfold try_catch, bind.
      destruct (table_add entry w) as [o1 w1] eqn:E1.
      apply table_add_cases in E1
        as [[Ht [msg ->]]|(Ht & -> & Hfree & Hdate)]; unfold ret.
      * destruct (IH n w1) as (m & w' & -> & Hm & Hsub & Hsize & Hok).
        rewrite Ht in *. exists m, w'. cbn [length]. split_and!; (done || lia).
      * destruct (IH (S n) w1) as (m & w' & -> & Hm & Hsub & Hsize & Hok).
        rewrite Ht in *. exists (S m), w'. cbn [length]. split_and!.
        -- do 2 f_equal. lia.
        -- lia.
        -- etrans; [|done]. by apply insert_subseteq.
        -- rewrite Hsize, map_size_insert_None by done. lia.
        -- intros Hok0. apply Hok. by apply store_ok_insert.
    + unfold ret.
      destruct (IH n w) as (m & w' & -> & Hm & Hsub & Hsize & Hok).
      exists m, w'. cbn [length]. split_and!; (done || lia).
Qed.

(** X20: importDatabase of an array of entry records never rejects, whatever
    records the array holds (a date or an id twice, or already stored) and
    whatever requests the engine fails: it resolves with a count that is at
    most the length of the array, every record the store held is still there
    unchanged, the table has grown by exactly the count, and the dates of the
    store are still distinct. A parsed value that is not an array is rejected
    with "Invalid import data: expected array of entries" before any
    request. *)
Theorem importDatabase_robust (w : World) :
  (∀ records : list Entry,
     ∃ n w', importDatabase (JArray (json_of_entry <$> records)) w
             = (Resolved n, w') ∧
             (n ≤ length records)%nat ∧
             table w ⊆ table w' ∧
             size (table w') = (size (table w) + n)%nat ∧
             (store_ok (table w) → store_ok (table w'))) ∧
  (∀ jsonData, (∀ items, jsonData ≠ JArray items) →
     importDatabase jsonData w
     = (Rejected "Invalid import data: expected array of entries", w)).
Proof.
  split.
  - intros records.
    destruct (import_entries_any (json_of_entry <$> records) 0 w)
      as (m & w' & Hrun & Hm & Hrest).
    rewrite length_fmap in Hm.
    exists m, w'. split; [|done]. unfold importDatabase, try_catch.
    by rewrite Hrun.
  - intros jsonData Hno. unfold importDatabase, try_catch.
    destruct jsonData; try done. by destruct (Hno items).
Qed.

Lemma importDatabase_robust_witness :
  (∃ n w', importDatabase
             (JArray (json_of_entry <$>
                        [entry_june_9; entry_june_1; entry_june_9;
                         entry_june_1_again]))
             failing_later_world
           = (Resolved n, w') ∧
           (n ≤ 4)%nat ∧
           table failing_later_world ⊆ table w' ∧
           size (table w') = (size (table failing_later_world) + n)%nat ∧
           (store_ok (table failing_later_world) → store_ok (table w'))) ∧
  importDatabase (JString "backup") june_world
  = (Rejected "Invalid import data: expected array of entries", june_world).
Proof.
  destruct (importDatabase_robust failing_later_world) as [Harray _].
  destruct (importDatabase_robust june_world) as [_ Hother].
  split.
  - exact (Harray [entry_june_9; entry_june_1; entry_june_9;
                   entry_june_1_again]).
  - apply Hother. by intros items.
Defined.

(** X21: importing the export of a store into that same store adds nothing:
    with a working store the import resolves with 0 and the table is as
    before. *)
Theorem import_own_export (w : World) :
  faults w = [] → store_ok (table w) →
  ∃ snapshot w',
    exportDatabase w = (Resolved snapshot, w) ∧
    importDatabase snapshot w = (Resolved 0%nat, w') ∧
    table w' = table w.
Proof.
  intros Hf Hok.
  exists (JArray (json_of_entry <$> by_primary_key (table w))).
  destruct (import_entries_spec (by_primary_key (table w)) 0 w Hf
              (NoDup_ids_by_primary_key _ Hok)
              (NoDup_dates_by_primary_key _ Hok))
    as (m & w' & Hrun & _ & _ & Hsize & Hiff).
  assert (table w' = table w) as Htable.
  { apply map_eq. intros k. apply option_eq. intros e. rewrite Hiff. split.
    - intros [?|(Hin & -> & Hnc)]; [done|].
      rewrite by_primary_key_rows, elem_of_rows in Hin. destruct Hin as [k Hk].
      destruct Hnc. left. destruct Hok as [Hid _].
      rewrite (Hid _ _ Hk). eauto.
    - by left. }
  exists w'. split_and!.
  - unfold exportDatabase, try_catch, bind, table_toArray.
    by rewrite request_read_no_fault.
  - unfold importDatabase, try_catch. rewrite Hrun. do 2 f_equal.
    rewrite Htable in Hsize. lia.
  - done.
Qed.

Lemma import_own_export_witness :
  ∃ snapshot w',
    exportDatabase june_world = (Resolved snapshot, june_world) ∧
    importDatabase snapshot june_world = (Resolved 0%nat, w') ∧
    table w' = table june_world.
Proof.
  apply (import_own_export june_world);
    [reflexivity|apply store_ok_june_world].
Defined.

(** X22: clearDatabase and exportDatabase throw the engine's own error again:
    when the engine fails the request they reject with the engine's message,
    not with a message of their own, and the table is as before. With a
    working store clearDatabase leaves an empty table, for which
    getAllEntries gives the empty list and getEntryCount 0; exportDatabase
    never changes the table. *)
Theorem clear_and_export (w : World) :
  (faults w = [] →
   ∃ w', clearDatabase w = (Resolved tt, w') ∧ table w' = ∅ ∧
         getAllEntries w' = (Resolved [], w') ∧
         getEntryCount w' = (Resolved 0%nat, w')) ∧
  (∀ msg rest, faults w = Some msg :: rest →
     ∃ w', clearDatabase w = (Rejected msg, w') ∧
           exportDatabase w = (Rejected msg, w') ∧
           table w' = table w) ∧
  (∀ o w', exportDatabase w = (o, w') → table w' = table w).
Proof.
  split_and!.
  - intros Hf. eexists. split.
    { unfold clearDatabase, try_catch, table_clear.
      by rewrite request_no_fault. }
    split_and!; [done|..].
    + by rewrite getAllEntries_no_fault.
    + unfold getEntryCount, try_catch, table_count.
      by rewrite request_read_no_fault.
  - intros msg rest Hf. eexists. split_and!.
    + unfold clearDatabase, try_catch, table_clear.
      by rewrite (request_fault _ _ _ _ Hf).
    + unfold exportDatabase, try_catch, bind, table_toArray.
      by rewrite (request_fault _ _ _ _ Hf).
    + done.
  - intros o w'. unfold exportDatabase, try_catch, bind, table_toArray.
    destruct (request _ w) as [o1 w1] eqn:E1.
    apply request_cases in E1 as [[Ht (msg & -> & _)]|[Ht ->]]; cbn in *;
      by intros [= <- <-].
Qed.

Lemma clear_and_export_witness :
  (∃ w', clearDatabase june_world = (Resolved tt, w') ∧ table w' = ∅ ∧
         getAllEntries w' = (Resolved [], w') ∧
         getEntryCount w' = (Resolved 0%nat, w')) ∧
  (∃ w', clearDatabase failing_world = (Rejected "QuotaExceededError", w') ∧
         exportDatabase failing_world = (Rejected "QuotaExceededError", w') ∧
         table w' = table failing_world).
Proof.
  split.
  - apply (clear_and_export june_world). reflexivity.
  - apply (clear_and_export failing_world) with []. reflexivity.
Defined.

(** X23: one entry per date. When every record is stored under its own id and
    no two records share an entry_date, this is still so after any sequence
    of create, update and delete operations, after an import of any array of
    entry records, and after clearing, whatever requests the engine fails. *)
Theorem one_entry_per_date_kept (w : World) :
  store_ok (table w) →
  (∀ ops, store_ok (table (run_operations ops w))) ∧
  (∀ records : list Entry,
     store_ok (table (importDatabase (JArray (json_of_entry <$> records)) w).2)) ∧
  store_ok (table (clearDatabase w).2).
Proof.
  intros Hok. split_and!.
  - intros ops. by apply store_ok_run_operations.
  - intros records. unfold importDatabase, try_catch.
    destruct (import_entries_any (json_of_entry <$> records) 0 w)
      as (m & w' & -> & _ & _ & _ & Hok').
    by apply Hok'.
  - unfold clearDatabase, try_catch, table_clear.
    destruct (request _ w) as [o1 w1] eqn:E1.
    apply request_cases in E1 as [[Ht (msg & -> & _)]|[Ht ->]]; cbn in *;
      rewrite Ht; [done|apply store_ok_empty].
Qed.

Lemma one_entry_per_date_kept_witness :
  (∀ ops, store_ok (table (run_operations ops june_world))) ∧
  (∀ records : list Entry,
     store_ok (table (importDatabase (JArray (json_of_entry <$> records))
                        june_world).2)) ∧
  store_ok (table (clearDatabase june_world).2).
Proof. apply (one_entry_per_date_kept june_world), store_ok_june_world. Defined.

(** ** The state cache *)

Lemma rows_dates_unique t x y :
  store_ok t → x ∈ rows t → y ∈ rows t → entry_date x = entry_date y → x = y.
Proof.
  intros [_ Huniq] [kx Hx]%elem_of_rows [ky Hy]%elem_of_rows Hd.
  assert (kx = ky) as -> by eauto. congruence.
Qed.

Lemma newest_first_unique (l1 l2 : list Entry) :
  (∀ x y, x ∈ l1 → y ∈ l2 → entry_date x = entry_date y → x = y) →
  Sorted (flip entry_date_le) l1 → Sorted (flip entry_date_le) l2 →
  l1 ≡ₚ l2 → l1 = l2.
Proof.
  intros Huniq H1 H2 Hperm.
  assert (Transitive (flip entry_date_le)) as Htrans.
  { intros x y z. unfold flip. intros ??. by etrans. }
  apply (Sorted_unique_strong (flip entry_date_le)); [|done..].
  intros x y Hx Hy Hxy Hyx. apply Huniq; [done..|].
  unfold flip, entry_date_le in *. by apply (anti_symm String.le).
Qed.

Lemma newest_first_of_table t l :
  store_ok t → l ≡ₚ rows t → Sorted (flip entry_date_le) l →
  l = reverse (by_entry_date t).
Proof.
  intros Hok Hperm Hsorted.
  assert (reverse (by_entry_date t) ≡ₚ rows t) as Hperm'
    by (by rewrite reverse_Permutation, by_entry_date_rows).
  apply newest_first_unique; [|done| |by rewrite Hperm'].
  - intros x y Hx Hy. rewrite Hperm in Hx. rewrite Hperm' in Hy.
    by apply (rows_dates_unique t).
  - apply Sorted_reverse, by_entry_date_Sorted.
Qed.

Lemma Sorted_filter_trans {A} (R : relation A) `{!Transitive R}
  (P : A → Prop) `{!∀ x, Decision (P x)} l :
  Sorted R l → Sorted R (filter P l).
Proof.
  intros Hs%Sorted_StronglySorted; [|done]. apply StronglySorted_Sorted.
  induction Hs as [|x l Hs IH Hall]; [constructor|].
  destruct (decide (P x)).
  - rewrite filter_cons_True by done. constructor; [done|].
    apply Forall_forall. intros y [_ Hy]%list_elem_of_filter.
    rewrite Forall_forall in Hall. by apply Hall.
  - by rewrite filter_cons_False.
Qed.

Lemma rows_insert_fresh t k e :
  t !! k = None → rows (<[k := e]> t) ≡ₚ e :: rows t.
Proof.
  intros Hk. unfold rows. by rewrite map_to_list_insert.
Qed.

Lemma rows_delete t k e :
  t !! k = Some e → rows t ≡ₚ e :: rows (delete k t).
Proof.
  intros Hk. unfold rows. by rewrite <- (map_to_list_delete t k e) at 1.
Qed.

Lemma head_by_date l t d e :
  store_ok t → l ≡ₚ rows t →
  head (filter (λ x, entry_date x = d) l) = Some e ↔
  (∃ k, t !! k = Some e) ∧ entry_date e = d.
Proof.
  intros Hok Hperm. split.
  - intros Hh. apply head_Some_elem_of in Hh.
    apply list_elem_of_filter in Hh as [Hd Hin].
    rewrite Hperm in Hin. by apply elem_of_rows in Hin.
  - intros [Hin%elem_of_rows Hd].
    destruct (filter (λ x, entry_date x = d) l) as [|x l'] eqn:E.
    + assert (e ∈ filter (λ x, entry_date x = d) l) as Hin'
        by (apply list_elem_of_filter; by rewrite Hperm).
      rewrite E in Hin'. by apply elem_of_nil in Hin'.
    + assert (x ∈ filter (λ x, entry_date x = d) l) as Hx by (rewrite E; left).
      apply list_elem_of_filter in Hx as [Hdx Hx]. rewrite Hperm in Hx.
      cbn. f_equal. apply (rows_dates_unique t); [done..|congruence].
Qed.

Lemma head_by_date_agree l1 l2 t d :
  store_ok t → l1 ≡ₚ rows t → l2 ≡ₚ rows t →
  head (filter (λ x, entry_date x = d) l1)
  = head (filter (λ x, entry_date x = d) l2).
Proof.
  intros Hok H1 H2. apply option_eq. intros e.
  by rewrite (head_by_date l1 t), (head_by_date l2 t).
Qed.

Lemma head_entry_date_equals t d e :
  store_ok t →
  head (entry_date_equals d t) = Some e ↔
  (∃ k, t !! k = Some e) ∧ entry_date e = d.
Proof.
  intros Hok. unfold entry_date_equals. apply head_by_date; [done|].
  apply by_entry_date_rows.
Qed.

Lemma head_entry_date_equals_None t d :
  head (entry_date_equals d t) = None ↔
  ∀ k e, t !! k = Some e → entry_date e ≠ d.
Proof. by rewrite head_None, entry_date_equals_nil. Qed.

Lemma filter_all {A} (P : A → Prop) `{!∀ x, Decision (P x)} (l : list A) :
  (∀ x, x ∈ l → P x) → filter P l = l.
Proof.
  induction l as [|x l IH]; intros Hall; [done|].
  rewrite filter_cons_True by (apply Hall; left).
  f_equal. apply IH. intros y Hy. apply Hall. by right.
Qed.

Lemma cache_entries_perm today s t :
  cache_ok today s t → EntryStore.entries s ≡ₚ rows t.
Proof.
  intros (-> & _). by rewrite reverse_Permutation, by_entry_date_rows.
Qed.

Lemma cache_ok_failure {A} today msg s t :
  cache_ok today s t →
  cache_ok today (EntryStore.set_error msg (EntryStore.clear_error s)) t ∧
  settles_in (Rejected msg : Outcome A) s
    (EntryStore.set_error msg (EntryStore.clear_error s)).
Proof. intros (? & ? & ?). by split_and!. Qed.

Ltac store_proj :=
  cbn [EntryStore.entries EntryStore.todayEntry EntryStore.selectedEntry
       EntryStore.isLoading EntryStore.error EntryStore.clear_error
       EntryStore.set_error].

Lemma cache_ok_create today now uuid input s w o s' w' :
  store_ok (table w) → cache_ok today s (table w) →
  EntryStore.createEntry today now uuid input s w = (o, s', w') →
  store_ok (table w') ∧ cache_ok today s' (table w') ∧ settles_in o s s' ∧
  (∀ e, o = Resolved e → table w' !! uuid = Some e).
Proof.
  intros Hok Hcache. unfold EntryStore.createEntry.
  destruct (createEntry today now uuid input w) as [o1 w1] eqn:E.
  destruct o1 as [entry|msg]; intros [= <- <- <-].
  - apply createEntry_resolved in E as (_ & He & Hfree & Hdate & Htab).
    assert (id entry = uuid) as Hid by (by rewrite He).
    assert (entry_date entry = c_entry_date input) as Hd by (by rewrite He).
    rewrite <- Hid in Htab, Hfree. rewrite <- Hd in Hdate.
    assert (store_ok (table w1)) as Hok1
      by (rewrite Htab; by apply store_ok_insert).
    pose proof (cache_entries_perm _ _ _ Hcache) as Hperm.
    destruct Hcache as (Hentries & Htoday & Hsel).
    split; [done|]. split; [|split; [done|]].
    2: { intros e [= <-]. by rewrite Htab, <- Hid, lookup_insert_eq. }
    split_and!; store_proj.
    + apply newest_first_of_table; [done| |apply sort_newest_first_Sorted].
      unfold EntryStore.sort_newest_first.
      rewrite js_sort_Permutation, Htab, rows_insert_fresh by done.
      by rewrite Hperm.
    + case_bool_decide as Hcase.
      * symmetry. apply head_entry_date_equals; [done|]. split; [|congruence].
        exists (id entry). by rewrite Htab, lookup_insert_eq.
      * rewrite Htoday. apply option_eq. intros e.
        rewrite !head_entry_date_equals by done. rewrite Htab. split.
        -- intros [[k Hk] Hde]. split; [|done]. exists k.
           rewrite lookup_insert_ne; [done|]. intros <-. congruence.
        -- intros [[k Hk] Hde]. split; [|done]. exists k.
           apply lookup_insert_Some in Hk as [[_ <-]|[_ Hk]]; [|done].
           congruence.
    + intros e He'. rewrite Htab. rewrite lookup_insert_ne; [by apply Hsel|].
      intros Heq. apply Hsel in He'. congruence.
  - apply createEntry_cases in E as [[Htab _]|(e & [=] & _)].
    rewrite Htab. split; [done|].
    destruct (cache_ok_failure (A := Entry) today msg s (table w) Hcache)
      as [? ?].
    by split_and!.
Qed.

Lemma cache_ok_update today now key updates s w o s' w' :
  store_ok (table w) → cache_ok today s (table w) →
  EntryStore.updateEntry today now key updates s w = (o, s', w') →
  store_ok (table w') ∧ cache_ok today s' (table w') ∧ settles_in o s s' ∧
  (∀ e, o = Resolved e → table w' !! key = Some e).
Proof.
  intros Hok Hcache. unfold EntryStore.updateEntry.
  destruct (updateEntry today now key updates w) as [o1 w1] eqn:E.
  apply updateEntry_effect in E
    as [[Htab [msg ->]]|(_ & e0 & Hkey & -> & Htab)]; intros [= <- <- <-].
  { rewrite Htab. split; [done|].
    destruct (cache_ok_failure (A := Entry) today msg s (table w) Hcache)
      as [? ?].
    by split_and!. }
  set (updated := merge_updates e0 updates now) in *.
  assert (id e0 = key) as Hid0 by (destruct Hok as [Hid _]; eauto).
  assert (store_ok (table w1)) as Hok1
    by (rewrite Htab; by apply (store_ok_update _ _ e0)).
  assert (table w1 !! key = Some updated) as Hkey1
    by (by rewrite Htab, lookup_insert_eq).
  pose proof (cache_entries_perm _ _ _ Hcache) as Hperm.
  destruct Hcache as (Hentries & Htoday & Hsel).
  split; [done|]. split; [|split; [done|by intros e [= <-]]].
  split_and!; store_proj.
  - assert ((λ e, if bool_decide (id e = key) then updated else e)
              <$> EntryStore.entries s
            = (λ e, if bool_decide (id e = key)
                    then merge_updates e updates now else e)
              <$> EntryStore.entries s) as ->.
    { apply list_fmap_ext. intros i x Hx. case_bool_decide as Hc; [|done].
      assert (x ∈ rows (table w)) as [k Hk]%elem_of_rows
        by (rewrite <- Hperm; by eapply list_elem_of_lookup_2).
      assert (k = key) as -> by (destruct Hok as [Hid _]; rewrite <- Hc; symmetry; eauto).
      unfold updated. congruence. }
    apply newest_first_of_table; [done| |].
    + rewrite Hperm, (rows_delete _ _ _ Hkey), Htab, <- insert_delete_eq.
      rewrite rows_insert_fresh by apply lookup_delete_eq.
      rewrite fmap_cons, bool_decide_eq_true_2 by done.
      apply Permutation_skip, Permutation_refl'.
      etrans; [|apply list_fmap_id].
      apply list_fmap_ext. intros i x Hx. unfold Datatypes.id.
      apply list_elem_of_lookup_2, elem_of_rows in Hx as [k Hk].
      apply lookup_delete_Some in Hk as [Hne Hk].
      destruct Hok as [Hid _]. rewrite bool_decide_eq_false_2; [done|].
      rewrite (Hid _ _ Hk). done.
    + rewrite Hentries.
      apply (Sorted_fmap _ (flip entry_date_le) (flip entry_date_le)).
      * intros x y. unfold flip, entry_date_le. by repeat case_bool_decide.
      * apply Sorted_reverse, by_entry_date_Sorted.
  - rewrite Htoday.
    destruct (head (entry_date_equals (getTodayDateString today) (table w)))
      as [e|] eqn:Eh; cbn [EntryStore.replace_if_id].
    + apply head_entry_date_equals in Eh as [[k Hk] Hd]; [|done].
      assert (id e = k) as Hidk by (destruct Hok as [Hid _]; eauto).
      symmetry.
      case_bool_decide as Hc; (apply head_entry_date_equals; [done|]).
      * assert (e = e0) as -> by congruence. split; [eauto|done].
      * split; [|done]. exists k. rewrite Htab, lookup_insert_ne; congruence.
    + symmetry. apply head_entry_date_equals_None. intros k e Hk Hd.
      rewrite head_entry_date_equals_None in Eh. rewrite Htab in Hk.
      apply lookup_insert_Some in Hk as [[_ <-]|[_ Hk]].
      * by apply (Eh key e0).
      * by apply (Eh k e).
  - intros e. destruct (EntryStore.selectedEntry s) as [sel|] eqn:Es;
      cbn [EntryStore.replace_if_id]; [|done].
    specialize (Hsel sel eq_refl). case_bool_decide as Hc; intros [= <-].
    + change (id updated) with (id e0). by rewrite Hid0.
    + rewrite Htab, lookup_insert_ne; done.
Qed.

Lemma cache_ok_delete today key s w o s' w' :
  store_ok (table w) → cache_ok today s (table w) →
  EntryStore.deleteEntry key s w = (o, s', w') →
  store_ok (table w') ∧ cache_ok today s' (table w') ∧ settles_in o s s' ∧
  (o = Resolved tt → table w' !! key = None).
Proof.
  intros Hok Hcache. unfold EntryStore.deleteEntry.
  destruct (deleteEntry key w) as [o1 w1] eqn:E.
  apply deleteEntry_effect in E
    as [[Htab [msg ->]]|([e0 Hkey] & -> & Htab)]; intros [= <- <- <-].
  { rewrite Htab. split; [done|].
    destruct (cache_ok_failure (A := unit) today msg s (table w) Hcache)
      as [? ?].
    by split_and!. }
  assert (store_ok (table w1)) as Hok1
    by (rewrite Htab; by apply store_ok_delete).
  pose proof (cache_entries_perm _ _ _ Hcache) as Hperm.
  destruct Hcache as (Hentries & Htoday & Hsel).
  assert (∀ k e, table w !! k = Some e → id e = k) as Hid by apply Hok.
  rewrite Htab in Hok1. rewrite Htab. clear Htab.
  split; [done|]. split; [|split; [done|intros _; apply lookup_delete_eq]].
  split_and!; store_proj.
  - apply newest_first_of_table; [done| |].
    + rewrite Hperm, (rows_delete _ _ _ Hkey).
      rewrite filter_cons_False by (rewrite (Hid _ _ Hkey); tauto).
      apply Permutation_refl', filter_all.
      intros x [k [Hne Hk]%lookup_delete_Some]%elem_of_rows.
      by rewrite (Hid _ _ Hk).
    + rewrite Hentries. apply Sorted_filter_trans.
      * intros x y z. unfold flip. intros ??. by etrans.
      * apply Sorted_reverse, by_entry_date_Sorted.
  - rewrite Htoday.
    destruct (head (entry_date_equals (getTodayDateString today) (table w)))
      as [e|] eqn:Eh; cbn [EntryStore.replace_if_id].
    + apply head_entry_date_equals in Eh as [[k Hk] Hd]; [|done].
      pose proof (Hid _ _ Hk) as Hidk. symmetry. case_bool_decide as Hc.
      * apply head_entry_date_equals_None.
        intros k' e' [Hne Hk']%lookup_delete_Some Hd'.
        destruct Hok as [_ Huniq].
        assert (k' = k) by (eapply Huniq; [done..|congruence]). congruence.
      * apply head_entry_date_equals; [done|]. split; [|done]. exists k.
        apply lookup_delete_Some. split; [congruence|done].
    + symmetry. apply head_entry_date_equals_None.
      intros k e [_ Hk]%lookup_delete_Some.
      rewrite head_entry_date_equals_None in Eh. by apply (Eh k e).
  - intros e. destruct (EntryStore.selectedEntry s) as [sel|] eqn:Es;
      cbn [EntryStore.replace_if_id]; [|done].
    specialize (Hsel sel eq_refl). case_bool_decide as Hc; intros [= <-].
    apply lookup_delete_Some. done.
Qed.

Lemma cache_holds today s t e :
  cache_ok today s t → e ∈ EntryStore.entries s ↔ ∃ k, t !! k = Some e.
Proof.
  intros Hcache. by rewrite (cache_entries_perm _ _ _ Hcache), elem_of_rows.
Qed.

Lemma date_strings_create today now uuid input w :
  date_strings (table w) →
  date_strings (table (createEntry today now uuid input w).2).
Proof.
  intros Hdates.
  destruct (createEntry today now uuid input w) as [[e|msg] w1] eqn:E; cbn [snd].
  - apply createEntry_resolved in E as (Hvalid & -> & _ & _ & ->).
    intros k e [[_ <-]|[_ Hk]]%lookup_insert_Some; [|by eapply Hdates].
    apply (created_record_ok today now uuid input Hvalid).
  - apply createEntry_cases in E as [[-> _]|(e & [=] & _)]. done.
Qed.

Lemma date_strings_update today now key updates w :
  date_strings (table w) →
  date_strings (table (updateEntry today now key updates w).2).
Proof.
  intros Hdates.
  destruct (updateEntry today now key updates w) as [o w1] eqn:E. cbn [snd].
  apply updateEntry_effect in E as [[-> _]|(_ & e & Hkey & _ & ->)]; [done|].
  intros k e' [[_ <-]|[_ Hk]]%lookup_insert_Some; [|by eapply Hdates].
  apply (Hdates key e Hkey).
Qed.

Lemma date_strings_delete key w :
  date_strings (table w) → date_strings (table (deleteEntry key w).2).
Proof.
  intros Hdates. destruct (deleteEntry key w) as [o w1] eqn:E. cbn [snd].
  apply deleteEntry_cases in E as [-> | ->]; [done|].
  intros k e [_ Hk]%lookup_delete_Some. by eapply Hdates.
Qed.

Lemma store_createEntry_world today now uuid input s w :
  (EntryStore.createEntry today now uuid input s w).2
  = (createEntry today now uuid input w).2.
Proof.
  unfold EntryStore.createEntry.
  by destruct (createEntry today now uuid input w) as [[e|msg] w1].
Qed.

Lemma store_updateEntry_world today now key updates s w :
  (EntryStore.updateEntry today now key updates s w).2
  = (updateEntry today now key updates w).2.
Proof.
  unfold EntryStore.updateEntry.
  by destruct (updateEntry today now key updates w) as [[e|msg] w1].
Qed.

Lemma store_deleteEntry_world key s w :
  (EntryStore.deleteEntry key s w).2 = (deleteEntry key w).2.
Proof.
  unfold EntryStore.deleteEntry.
  by destruct (deleteEntry key w) as [[u|msg] w1].
Qed.

(** X24: the cache of the state store stays a mirror of the table under the
    store's createEntry, updateEntry and deleteEntry, whatever the engine
    answers.  The payloads are those of the model (a rating is an integer,
    or absent in an update).  From a table with one record per id and per
    date whose dates are date strings (valid, or empty), and a cache that
    mirrors it, each of the three actions leaves such a table and a cache
    that mirrors it: the list is the table's records, newest date first,
    todayEntry is the table's record of today, and selectedEntry is a
    record of the table.  An action that resolves leaves error null, and the
    entry it resolves with is in the cached list (after a delete no entry of
    the list has the id); an action that rejects with a message leaves that
    message in error and the cached list, todayEntry and selectedEntry as
    they were. *)
Theorem store_cache_stays_coherent (today : CivilDate) (now : Z)
  (s : EntryStore.EntryState) (w : World) :
  store_ok (table w) → date_strings (table w) → cache_ok today s (table w) →
  (∀ uuid input o s' w',
     EntryStore.createEntry today now uuid input s w = (o, s', w') →
     store_ok (table w') ∧ date_strings (table w') ∧
     cache_ok today s' (table w') ∧ settles_in o s s' ∧
     (∀ e, o = Resolved e → e ∈ EntryStore.entries s')) ∧
  (∀ key updates o s' w',
     EntryStore.updateEntry today now key updates s w = (o, s', w') →
     store_ok (table w') ∧ date_strings (table w') ∧
     cache_ok today s' (table w') ∧ settles_in o s s' ∧
     (∀ e, o = Resolved e → e ∈ EntryStore.entries s')) ∧
  (∀ key o s' w',
     EntryStore.deleteEntry key s w = (o, s', w') →
     store_ok (table w') ∧ date_strings (table w') ∧
     cache_ok today s' (table w') ∧ settles_in o s s' ∧
     (o = Resolved tt → ∀ e, e ∈ EntryStore.entries s' → id e ≠ key)).
Proof.
  intros Hok Hdates Hcache. split_and!.
  - intros uuid input o s' w' E.
    destruct (cache_ok_create _ _ _ _ _ _ _ _ _ Hok Hcache E)
      as (Hok' & Hcache' & Hsettles & Hin).
    split_and!; [done| |done..|].
    + apply (f_equal snd) in E. cbn [snd] in E. rewrite <- E.
      rewrite store_createEntry_world. by apply date_strings_create.
    + intros e He. apply (cache_holds today s' (table w')); eauto.
  - intros key updates o s' w' E.
    destruct (cache_ok_update _ _ _ _ _ _ _ _ _ Hok Hcache E)
      as (Hok' & Hcache' & Hsettles & Hin).
    split_and!; [done| |done..|].
    + apply (f_equal snd) in E. cbn [snd] in E. rewrite <- E.
      rewrite store_updateEntry_world. by apply date_strings_update.
    + intros e He. apply (cache_holds today s' (table w')); eauto.
  - intros key o s' w' E.
    destruct (cache_ok_delete _ _ _ _ _ _ _ Hok Hcache E)
      as (Hok' & Hcache' & Hsettles & Hgone).
    split_and!; [done| |done..|].
    + apply (f_equal snd) in E. cbn [snd] in E. rewrite <- E.
      rewrite store_deleteEntry_world. by apply date_strings_delete.
    + intros He e Hin Hid.
      apply (cache_holds today s' (table w')) in Hin as [k Hk]; [|done].
      destruct Hok' as [Hid' _]. rewrite (Hid' _ _ Hk) in Hid.
      rewrite Hid, Hgone in Hk; done.
Qed.

Lemma cache_ok_june_cache :
  cache_ok today_2024_06_15 june_cache (table june_world).
Proof.
  split_and!; [vm_compute; reflexivity..|].
  intros e [= <-]. vm_compute. reflexivity.
Qed.

Lemma store_cache_stays_coherent_witness :
  store_ok (table june_world) ∧ date_strings (table june_world) ∧
  cache_ok today_2024_06_15 june_cache (table june_world) ∧
  ∃ o s' w',
    EntryStore.deleteEntry "id-1" june_cache failing_later_world = (o, s', w') ∧
    cache_ok today_2024_06_15 s' (table w') ∧ settles_in o june_cache s'.
Proof.
  split; [apply store_ok_june_world|]. split; [apply date_strings_june_world|].
  split; [apply cache_ok_june_cache|].
  destruct (store_cache_stays_coherent today_2024_06_15 300 june_cache
              failing_later_world store_ok_june_world date_strings_june_world
              cache_ok_june_cache)
    as (_ & _ & Hdelete).
  destruct (EntryStore.deleteEntry "id-1" june_cache failing_later_world)
    as [[o s'] w'] eqn:E.
  exists o, s', w'. split; [reflexivity|].
  destruct (Hdelete _ _ _ _ E) as (_ & _ & Hcache & Hsettles & _).
  split; [exact Hcache|exact Hsettles].
Defined.

(** X25: the two loading actions of the state store never reject.
    loadEntries resolves with isLoading false; either error is null and the
    cached list is the table's records, newest date first, or the store
    failed, error is Failed to load entries and the cached list is the one it
    was.  loadTodayEntry resolves; either error is null and todayEntry is the
    table's record of today (null when there is none), or the store failed,
    error is Failed to load today's entry and todayEntry is the one it was.
    Neither changes the table, the selected entry, or the other's part of the
    cache. *)
Theorem load_actions_never_reject (today : CivilDate)
  (s : EntryStore.EntryState) (w : World) :
  (∃ s' w',
     EntryStore.loadEntries s w = (Resolved tt, s', w') ∧
     table w' = table w ∧ EntryStore.isLoading s' = false ∧
     EntryStore.todayEntry s' = EntryStore.todayEntry s ∧
     EntryStore.selectedEntry s' = EntryStore.selectedEntry s ∧
     (EntryStore.error s' = None ∧
      EntryStore.entries s' = reverse (by_entry_date (table w)) ∨
      EntryStore.error s' = Some "Failed to load entries" ∧
      EntryStore.entries s' = EntryStore.entries s ∧ faults w ≠ [])) ∧
  (∃ s' w',
     EntryStore.loadTodayEntry today s w = (Resolved tt, s', w') ∧
     table w' = table w ∧
     EntryStore.isLoading s' = EntryStore.isLoading s ∧
     EntryStore.entries s' = EntryStore.entries s ∧
     EntryStore.selectedEntry s' = EntryStore.selectedEntry s ∧
     (EntryStore.error s' = None ∧
      EntryStore.todayEntry s'
      = head (entry_date_equals (getTodayDateString today) (table w)) ∨
      EntryStore.error s' = Some "Failed to load today's entry" ∧
      EntryStore.todayEntry s' = EntryStore.todayEntry s ∧ faults w ≠ [])).
Proof.
  split.
  - unfold EntryStore.loadEntries, getAllEntries, try_catch, table_by_date_desc,
      request, throw.
    destruct (faults w) as [|[msg|] rest] eqn:Ef; cbn;
      eexists _, _; (split; [reflexivity|]); cbn;
      split_and!; try done; first [by left|by right].
  - unfold EntryStore.loadTodayEntry, getTodayEntry, try_catch,
      table_first_by_date, request, throw.
    destruct (faults w) as [|[msg|] rest] eqn:Ef; cbn;
      eexists _, _; (split; [reflexivity|]); cbn;
      split_and!; try done; first [by left|by right].
Qed.

(** X26: with a working store, loadEntries followed by loadTodayEntry makes
    the cache a mirror of the table, with error null and isLoading false,
    and leaves the store as it was; the selected entry, which neither action
    touches, has to be a record of the table (null at the start). *)
Theorem loading_fills_cache (today : CivilDate) (s : EntryStore.EntryState)
  (w : World) :
  faults w = [] →
  (∀ e, EntryStore.selectedEntry s = Some e → table w !! id e = Some e) →
  ∃ s1 s2,
    EntryStore.loadEntries s w = (Resolved tt, s1, w) ∧
    EntryStore.loadTodayEntry today s1 w = (Resolved tt, s2, w) ∧
    cache_ok today s2 (table w) ∧
    EntryStore.error s2 = None ∧ EntryStore.isLoading s2 = false.
Proof.
  intros Hf Hsel. unfold EntryStore.loadEntries, EntryStore.loadTodayEntry.
  rewrite getAllEntries_no_fault by done.
  unfold getTodayEntry, try_catch, table_first_by_date.
  rewrite request_read_no_fault by done.
  eexists _, _. split; [reflexivity|]. split; [reflexivity|]. by split_and!.
Qed.

Lemma loading_fills_cache_witness :
  ∃ s1 s2,
    EntryStore.loadEntries EntryStore.initial june_world
    = (Resolved tt, s1, june_world) ∧
    EntryStore.loadTodayEntry today_2024_06_15 s1 june_world
    = (Resolved tt, s2, june_world) ∧
    cache_ok today_2024_06_15 s2 (table june_world) ∧
    EntryStore.error s2 = None ∧ EntryStore.isLoading s2 = false.
Proof.
  apply (loading_fills_cache today_2024_06_15 EntryStore.initial june_world).
  - reflexivity.
  - intros e He. discriminate He.
Defined.

(** X27: on a cache that mirrors a table whose dates are date strings (valid,
    or empty) the selectors of the state store answer as the gateway does
    with a working store: useEntryByDate as getEntryByDate, useEntriesInRange
    as getEntriesInRange (the same records in the same order), useEntryCount
    as getEntryCount, the cached list as getAllEntries and the cached
    todayEntry as getTodayEntry. *)
Theorem selectors_agree_with_gateway (today : CivilDate)
  (s : EntryStore.EntryState) (w : World) :
  faults w = [] → store_ok (table w) → date_strings (table w) →
  cache_ok today s (table w) →
  (∀ dateString,
     getEntryByDate dateString w
     = (Resolved (EntryStore.useEntryByDate dateString s), w)) ∧
  (∀ startDate endDate,
     getEntriesInRange startDate endDate w
     = (Resolved (EntryStore.useEntriesInRange startDate endDate s), w)) ∧
  getEntryCount w = (Resolved (EntryStore.useEntryCount s), w) ∧
  getAllEntries w = (Resolved (EntryStore.entries s), w) ∧
  getTodayEntry today w = (Resolved (EntryStore.todayEntry s), w).
Proof.
  intros Hf Hok _ Hcache.
  pose proof (cache_entries_perm _ _ _ Hcache) as Hperm.
  destruct Hcache as (Hentries & Htoday & _). split_and!.
  - intros d. rewrite getEntryByDate_no_fault by done. do 2 f_equal.
    unfold EntryStore.useEntryByDate, entry_date_equals.
    apply (head_by_date_agree _ _ (table w)); [done| |done].
    apply by_entry_date_rows.
  - intros a b. unfold getEntriesInRange, try_catch, bind, table_between.
    rewrite request_read_no_fault by done. cbn [ret]. do 2 f_equal.
    unfold EntryStore.useEntriesInRange. rewrite Hentries.
    apply newest_first_unique.
    + intros x y Hx Hy. rewrite js_sort_Permutation in Hx.
      apply list_elem_of_filter in Hx as [_ Hx].
      apply list_elem_of_filter in Hy as [_ Hy].
      rewrite by_entry_date_rows in Hx.
      rewrite reverse_Permutation, by_entry_date_rows in Hy.
      by apply (rows_dates_unique (table w)).
    + apply sort_newest_first_Sorted.
    + apply Sorted_filter_trans.
      * intros x y z. unfold flip. intros ??. by etrans.
      * apply Sorted_reverse, by_entry_date_Sorted.
    + by rewrite js_sort_Permutation, filter_reverse, reverse_Permutation.
  - unfold getEntryCount, try_catch, table_count.
    rewrite request_read_no_fault by done. do 2 f_equal.
    unfold EntryStore.useEntryCount. rewrite Hperm. unfold rows.
    by rewrite length_fmap, length_map_to_list.
  - rewrite getAllEntries_no_fault by done. by rewrite Hentries.
  - unfold getTodayEntry, try_catch, table_first_by_date.
    rewrite request_read_no_fault by done. by rewrite Htoday.
Qed.

Lemma selectors_agree_with_gateway_witness :
  (∀ dateString,
     getEntryByDate dateString june_world
     = (Resolved (EntryStore.useEntryByDate dateString june_cache), june_world)) ∧
  (∀ startDate endDate,
     getEntriesInRange startDate endDate june_world
     = (Resolved (EntryStore.useEntriesInRange startDate endDate june_cache),
        june_world)) ∧
  getEntryCount june_world
  = (Resolved (EntryStore.useEntryCount june_cache), june_world) ∧
  getAllEntries june_world = (Resolved (EntryStore.entries june_cache), june_world) ∧
  getTodayEntry today_2024_06_15 june_world
  = (Resolved (EntryStore.todayEntry june_cache), june_world).
Proof.
  apply (selectors_agree_with_gateway today_2024_06_15 june_cache june_world).
  - reflexivity.
  - apply store_ok_june_world.
  - apply date_strings_june_world.
  - apply cache_ok_june_cache.
Defined.

(** ** Truncation of a text *)

Lemma length_string_take n s :
  String.length (string_take n s) = (n `min` String.length s)%nat.
Proof.
  revert s. induction n as [|n IH]; intros [|c s]; cbn; [done..|].
  by rewrite IH.
Qed.

Lemma string_take_take n m s :
  string_take n (string_take m s) = string_take (n `min` m)%nat s.
Proof.
  revert m s. induction n as [|n IH]; intros [|m] [|c s]; cbn; [done..|].
  by rewrite IH.
Qed.

Lemma get_string_take i n s :
  (i < n)%nat → String.get i (string_take n s) = String.get i s.
Proof.
  revert i s. induction n as [|n IH]; intros i [|c s] Hi; cbn; [lia|lia|done|].
  destruct i as [|i]; [done|]. apply IH. lia.
Qed.

Lemma get_Some_lt i s c : String.get i s = Some c → (i < String.length s)%nat.
Proof.
  revert i. induction s as [|a s IH]; intros i; cbn; [done|].
  destruct i as [|i]; [lia|]. intros Hi%IH. lia.
Qed.

Lemma length_append_string s1 s2 :
  String.length (s1 +:+ s2) = (String.length s1 + String.length s2)%nat.
Proof.
  induction s1 as [|a s1 IH]; [done|].
  change (String a s1 +:+ s2) with (String a (s1 +:+ s2)).
  cbn [String.length]. by rewrite IH.
Qed.

Lemma lastIndexOf_go_spec c s i found :
  (lastIndexOf_go c s i found = found ∧ ∀ j, String.get j s ≠ Some c) ∨
  (∃ j : nat, lastIndexOf_go c s i found = i + Z.of_nat j ∧
              String.get j s = Some c ∧
              ∀ j', (j < j')%nat → String.get j' s ≠ Some c).
Proof.
  revert i found. induction s as [|a s IH]; intros i found; cbn [lastIndexOf_go].
  { left. split; [done|]. by intros []. }
  destruct (IH (i + 1) (if Ascii.eqb a c then i else found))
    as [[Hr Hnone]|(j & Hr & Hj & Hlater)].
  - rewrite Hr. destruct (Ascii.eqb a c) eqn:Eac.
    + apply Ascii.eqb_eq in Eac as ->. right. exists 0%nat.
      split; [lia|]. split; [done|]. intros [|j'] Hlt; [lia|]. apply Hnone.
    + apply Ascii.eqb_neq in Eac. left. split; [done|].
      intros [|j']; cbn; [congruence|apply Hnone].
  - right. exists (S j). split; [lia|]. split; [done|].
    intros [|j'] Hlt; [lia|]. cbn. apply Hlater. lia.
Qed.

(** X28: truncateText returns a text of at most maxLength code units as it
    is.  A longer text (maxLength an integer, not negative) is cut and three
    dots are added: the cut is at maxLength when none of the code units 1 to
    maxLength - 1 is a space, and otherwise at the last space among them,
    which is dropped with what follows it.  The result has the length of the
    kept part plus three, so it can be up to three code units longer than
    maxLength. *)
Theorem truncateText_spec (text : string) (maxLength : Z) :
  (Z.of_nat (String.length text) ≤ maxLength →
   truncateText text maxLength = text) ∧
  (0 ≤ maxLength < Z.of_nat (String.length text) →
   ∃ n : nat,
     truncateText text maxLength = string_take n text +:+ "..." ∧
     String.length (truncateText text maxLength) = (n + 3)%nat ∧
     ((Z.of_nat n = maxLength ∧
       ∀ i : nat, (0 < i)%nat → Z.of_nat i < maxLength →
                  String.get i text ≠ Some " "%char) ∨
      ((0 < n)%nat ∧ Z.of_nat n < maxLength ∧
       String.get n text = Some " "%char ∧
       ∀ i : nat, (n < i)%nat → Z.of_nat i < maxLength →
                  String.get i text ≠ Some " "%char))).
Proof.
  unfold truncateText. split.
  - intros Hle. by rewrite (proj2 (Z.leb_le _ _)).
  - intros [H0 Hlt]. rewrite (proj2 (Z.leb_gt _ _)) by done.
    assert (slice_from_start text maxLength
            = string_take (Z.to_nat maxLength) text) as ->.
    { unfold slice_from_start. rewrite (proj2 (Z.ltb_ge _ _)) by done.
      by rewrite Z.min_l by lia. }
    set (m := Z.to_nat maxLength).
    assert (m < String.length text)%nat as Hm by (unfold m; lia).
    assert (Z.of_nat m = maxLength) as HmZ by (unfold m; lia).
    clearbody m.
    assert (String.length (string_take m text) = m) as Hlen
      by (rewrite length_string_take; lia).
    unfold lastIndexOf.
    destruct (lastIndexOf_go_spec " " (string_take m text) 0 (-1))
      as [[-> Hnone]|(j & -> & Hj & Hlater)].
    + exists m. rewrite (proj2 (Z.ltb_ge _ _)) by lia. split; [done|].
      split; [rewrite length_append_string, Hlen; done|].
      left. split; [lia|]. intros i _ Hi.
      rewrite <- (get_string_take i m) by lia. apply Hnone.
    + pose proof (get_Some_lt _ _ _ Hj) as Hjm. rewrite Hlen in Hjm.
      destruct j as [|j].
      * exists m. rewrite (proj2 (Z.ltb_ge _ _)) by lia. split; [done|].
        split; [rewrite length_append_string, Hlen; done|].
        left. split; [lia|]. intros i Hi0 Hi.
        rewrite <- (get_string_take i m) by lia. apply Hlater. lia.
      * rewrite (proj2 (Z.ltb_lt _ _)) by lia.
        assert (slice_from_start (string_take m text) (0 + Z.of_nat (S j))
                = string_take (S j) text) as ->.
        { unfold slice_from_start. rewrite (proj2 (Z.ltb_ge _ _)) by lia.
          rewrite Hlen, Z.min_l by lia.
          replace (Z.to_nat (0 + Z.of_nat (S j))) with (S j) by lia.
          rewrite string_take_take. f_equal. lia. }
        exists (S j). split; [done|].
        split.
        { rewrite length_append_string, length_string_take.
          change (String.length "...") with 3%nat. lia. }
        right. split; [lia|]. split; [lia|].
        split; [by rewrite <- (get_string_take (S j) m) by lia|].
        intros i Hji Hi. rewrite <- (get_string_take i m) by lia.
        apply Hlater. lia.
Qed.

Lemma truncateText_spec_witness :
  truncateText "short" 150 = "short" ∧
  ∃ n : nat,
    truncateText "thank you for the music" 15
    = string_take n "thank you for the music" +:+ "..." ∧
    String.length (truncateText "thank you for the music" 15) = (n + 3)%nat ∧
    ((Z.of_nat n = 15 ∧
      ∀ i : nat, (0 < i)%nat → Z.of_nat i < 15 →
                 String.get i "thank you for the music" ≠ Some " "%char) ∨
     ((0 < n)%nat ∧ Z.of_nat n < 15 ∧
      String.get n "thank you for the music" = Some " "%char ∧
      ∀ i : nat, (n < i)%nat → Z.of_nat i < 15 →
                 String.get i "thank you for the music" ≠ Some " "%char)).
Proof.
  split.
  - apply (truncateText_spec "short" 150). cbn. lia.
  - apply (truncateText_spec "thank you for the music" 15). cbn. lia.
Defined.

(** ** The other figures of the month *)







